(** * knowhub: resource placement and plugin resolution

    A shallow embedding of the placement engine of knowhub
    (src/file.ts, src/resource.ts, src/commands/sync.ts,
    src/plugins/registry.ts, src/errors.ts) together with a model of
    the parts of node:fs and node:path the engine calls, and the
    properties of the engine proved over that model.

    The engine is written in a state-and-exception monad over the world
    of a run.  What lies outside the sources is modelled as follows.
    - A path is the list of its components below the root.
    - The file system is a finite map from locations to files,
      directories and symbolic links; paths are resolved component by
      component as the kernel does, links and ".." included.
    - The content of a file is a string of bytes; a text written or
      read as utf8 is that string.  A string of the program is kept in
      its UTF-8 form; where JavaScript orders strings, their UTF-16 code
      units are compared.
    - A logger is the list of the calls made to it.
    - A plugin's fetch is a function on the machine; import() looks a
      module up in a table that holds, for a path, the namespace or the
      error the import yields.  Where a statement depends on what
      evaluating a module may do, the import is a parameter.
    - process.cwd() reads the working directory of the machine, which
      is always there. *)

From Stdlib Require Import String Ascii List Bool Arith Lia DecimalString.
From stdpp Require Import base option gmap strings list fin_maps sorting.

Set Default Proof Using "Type".

(** ** Paths (node:path, POSIX flavour)

    A path is kept in the form path.resolve produces: absolute and
    normalised, i.e. the list of its components below the root. *)

Abbreviation path := (list string).

Definition showPath (p : path) : string :=
  match p with
  | [] => "/"
  | _ => String.concat EmptyString (map (fun c => "/" +:+ c) p)
  end.

Definition dirname (p : path) : path := removelast p.

Definition join (dir : path) (name : string) : path := dir ++ [name].

(** Splitting a string at every slash. *)
Fixpoint segments (s : string) : list string :=
  match s with
  | EmptyString => [EmptyString]
  | String c s' =>
      if Ascii.eqb c "/"%char then EmptyString :: segments s'
      else match segments s' with
           | seg :: rest => String c seg :: rest
           | [] => [String c EmptyString]
           end
  end.

Definition normalizeStep (cur : path) (seg : string) : path :=
  if String.eqb seg EmptyString then cur
  else if String.eqb seg "." then cur
  else if String.eqb seg ".." then removelast cur
  else cur ++ [seg].

Definition isAbsolute (s : string) : bool :=
  match s with
  | String c _ => Ascii.eqb c "/"%char
  | EmptyString => false
  end.

(** [resolve from to]: path.resolve with an absolute first argument. *)
Definition resolve (from : path) (to : string) : path :=
  fold_left normalizeStep (segments to) (if isAbsolute to then [] else from).

Fixpoint dropCommon (from to : path) : path * path :=
  match from, to with
  | a :: from', b :: to' =>
      if String.eqb a b then dropCommon from' to' else (from, to)
  | _, _ => (from, to)
  end.

(** [relative from to]: the components that lead from [from] to [to]. *)
Definition relative (from to : path) : list string :=
  let '(up, down) := dropCommon from to in
  repeat ".." (length up) ++ down.

(** ** Error values (src/errors.ts, src/plugins/errors.ts, node) *)

(** [quote s] is [s] between double quotes, as the message templates
    of the sources write it. *)
Definition dquote : string := String (Ascii.ascii_of_nat 34) EmptyString.
Definition quote (s : string) : string := dquote +:+ s +:+ dquote.

Inductive errno :=
| ENOENT | EACCES | EPERM | EEXIST | ENOTDIR | EISDIR | ELOOP
| ENAMETOOLONG | EINVAL.

Global Instance errno_eq_dec : EqDecision errno.
Proof. solve_decision. Defined.

Definition errnoName (c : errno) : string :=
  match c with
  | ENOENT => "ENOENT" | EACCES => "EACCES" | EPERM => "EPERM"
  | EEXIST => "EEXIST" | ENOTDIR => "ENOTDIR" | EISDIR => "EISDIR"
  | ELOOP => "ELOOP" | ENAMETOOLONG => "ENAMETOOLONG" | EINVAL => "EINVAL"
  end.

Definition errnoText (c : errno) : string :=
  match c with
  | ENOENT => "no such file or directory"
  | EACCES => "permission denied"
  | EPERM => "operation not permitted"
  | EEXIST => "file already exists"
  | ENOTDIR => "not a directory"
  | EISDIR => "illegal operation on a directory"
  | ELOOP => "too many symbolic links encountered"
  | ENAMETOOLONG => "name too long"
  | EINVAL => "invalid argument"
  end.

(** The values the engine throws and catches.  [Thrown s] stands for a
    thrown value that is not an Error; [s] is its String(...) image. *)
Inductive jsError :=
| ErrnoException (code : errno) (syscall : string) (p : string)
| Error (message : string)
| ConfigurationError (message : string) (configPath : option string)
| ResourceError (message : string) (resourcePath : option string)
| ValidationError (message : string) (field : option string)
| FileOperationError (message : string) (filePath : string) (operation : string)
| PluginError (message : string) (pluginName : string)
| PluginNotFoundError (pluginName : string)
| Thrown (str : string).

Definition errorMessage (e : jsError) : string :=
  match e with
  | ErrnoException c sc p =>
      errnoName c +:+ ": " +:+ errnoText c +:+ ", " +:+ sc +:+ " '" +:+ p +:+ "'"
  | Error m => m
  | ConfigurationError m _ => m
  | ResourceError m _ => m
  | ValidationError m _ => m
  | FileOperationError m _ _ => m
  | PluginError m n => "Plugin " +:+ quote n +:+ ": " +:+ m
  | PluginNotFoundError n => "Plugin not found: " +:+ n
  | Thrown s => s
  end.

Definition errorCode (e : jsError) : option errno :=
  match e with
  | ErrnoException c _ _ => Some c
  | _ => None
  end.

(** [formatError] of src/errors.ts. *)
Definition formatError (e : jsError) : string := errorMessage e.

Definition isResourceError (e : jsError) : bool :=
  match e with
  | ResourceError _ _ => true
  | _ => false
  end.

(** ** The file tree (what node:fs/promises acts on)

    A tree is a finite map from locations to nodes; the root is a
    directory and owns no entry.  A symbolic link keeps the components
    of its target and whether the target is absolute. *)

Inductive node :=
| File (data : string)
| Dir
| Link (absolute : bool) (target : list string).

Abbreviation tree := (gmap (list string) node).

Definition nodeAt (m : tree) (p : path) : option node :=
  match p with
  | [] => Some Dir
  | _ => m !! p
  end.

Definition isNil {A} (l : list A) : bool :=
  match l with
  | [] => true
  | _ => false
  end.

(** Number of symbolic links one path resolution may traverse. *)
Definition SYMLOOP_MAX : nat := 40.

(** Path resolution as the kernel does it: [cur] is the directory
    reached so far, [rest] the components still to walk.  A link met
    on the way is replaced by its target; the last component is
    followed only when [follow] is set (stat) and kept otherwise
    (lstat, symlink, mkdir). *)
Fixpoint walk (follow : bool) (m : tree) (fuel : nat)
  : path -> list string -> errno + path :=
  fix go (cur : path) (rest : list string) {struct rest} : errno + path :=
    match rest with
    | [] => inr cur
    | c :: rest' =>
        match nodeAt m cur with
        | Some Dir =>
            if String.eqb c "." then go cur rest'
            else if String.eqb c ".." then go (removelast cur) rest'
            else
              match m !! (cur ++ [c]) with
              | Some (Link a t) =>
                  if negb follow && isNil rest' then inr (cur ++ [c])
                  else
                    match fuel with
                    | O => inl ELOOP
                    | S f => walk follow m f (if a then [] else cur) (t ++ rest')
                    end
              | _ => go (cur ++ [c]) rest'
              end
        | Some _ => inl ENOTDIR
        | None => inl ENOENT
        end
    end.

Definition realpath (m : tree) (p : path) : errno + path :=
  walk true m SYMLOOP_MAX [] p.

Definition linkpath (m : tree) (p : path) : errno + path :=
  walk false m SYMLOOP_MAX [] p.

(** stat: the node a path denotes, links followed. *)
Definition stat (m : tree) (p : path) : errno + node :=
  match realpath m p with
  | inl e => inl e
  | inr q =>
      match nodeAt m q with
      | Some n => inr n
      | None => inl ENOENT
      end
  end.

Definition isDirectoryNode (n : node) : bool :=
  match n with
  | Dir => true
  | _ => false
  end.

Definition isFileNode (n : node) : bool :=
  match n with
  | File _ => true
  | _ => false
  end.

Definition readFile (m : tree) (p : path) : errno + string :=
  match realpath m p with
  | inl e => inl e
  | inr q =>
      match nodeAt m q with
      | Some (File d) => inr d
      | Some Dir => inl EISDIR
      | Some (Link _ _) => inl ELOOP
      | None => inl ENOENT
      end
  end.

(** writeFile: create or truncate the file the path denotes. *)
Definition writeFile (m : tree) (p : path) (data : string) : errno + tree :=
  match realpath m p with
  | inl e => inl e
  | inr q =>
      match nodeAt m q with
      | Some (File _) => inr (<[q := File data]> m)
      | Some Dir => inl EISDIR
      | Some (Link _ _) => inl ELOOP
      | None =>
          match nodeAt m (removelast q) with
          | Some Dir => inr (<[q := File data]> m)
          | Some _ => inl ENOTDIR
          | None => inl ENOENT
          end
      end
  end.

(** copyFile of node:fs/promises (imported as fsCopyFile). *)
Definition fsCopyFile (m : tree) (src dest : path) : errno + tree :=
  match readFile m src with
  | inl e => inl e
  | inr d => writeFile m dest d
  end.

(** One level of mkdir with the recursive option: an existing
    directory is accepted, anything else in the way is an error, a
    missing directory is created. *)
Definition mkdirStep (final : bool) (m : tree) (p : path) : errno + tree :=
  match stat m p with
  | inr Dir => inr m
  | inr _ => inl (if final then EEXIST else ENOTDIR)
  | inl e =>
      match linkpath m p with
      | inl e' => inl e'
      | inr l =>
          match nodeAt m l with
          | None => inr (<[l := Dir]> m)
          | Some _ => inl e
          end
      end
  end.

Fixpoint mkdirFrom (m : tree) (done : path) (todo : list string)
  : errno + tree :=
  match todo with
  | [] => inr m
  | c :: todo' =>
      match mkdirStep (isNil todo') m (done ++ [c]) with
      | inl e => inl e
      | inr m' => mkdirFrom m' (done ++ [c]) todo'
      end
  end.

(** mkdir(p, { recursive: true }). *)
Definition mkdir (m : tree) (p : path) : errno + tree := mkdirFrom m [] p.

(** symlink(target, p): fails on any existing entry at [p], dangling
    links included; an empty target is refused. *)
Definition symlink (m : tree) (target : list string) (p : path)
  : errno + tree :=
  if isNil target then inl ENOENT
  else
    match linkpath m p with
    | inl e => inl e
    | inr l =>
        match nodeAt m l with
        | Some _ => inl EEXIST
        | None => inr (<[l := Link false target]> m)
        end
    end.

(** A directory entry as readdir reports it with withFileTypes: the
    name and the node itself (links are reported as links). *)
Definition childrenOf (m : tree) (q : path) : list (string * node) :=
  omap (fun kn : list string * node =>
          match kn.1 with
          | [] => None
          | _ => if decide (removelast kn.1 = q)
                 then Some (List.last kn.1 EmptyString, kn.2) else None
          end)
       (map_to_list m).

Definition readdir (m : tree) (p : path) : errno + list (string * node) :=
  match realpath m p with
  | inl e => inl e
  | inr q =>
      match nodeAt m q with
      | Some Dir => inr (childrenOf m q)
      | Some _ => inl ENOTDIR
      | None => inl ENOENT
      end
  end.

(** ** Plugin contract (src/plugins/types.ts) *)

(** Values of type unknown: plugin configurations and metadata. *)
#[warnings="-register-all"]
Inductive jsValue :=
| JUndefined
| JNull
| JBool (b : bool)
| JNumber (n : nat)
| JString (s : string)
| JObject (fields : list (string * jsValue)).

Definition getField (o : list (string * jsValue)) (k : string) : jsValue :=
  match List.find (fun kv => String.eqb (fst kv) k) o with
  | Some kv => snd kv
  | None => JUndefined
  end.

Inductive Platform := Win32 | Darwin | Linux.

Global Instance Platform_eq_dec : EqDecision Platform.
Proof. solve_decision. Defined.

(** The machine a run acts on: the file tree, process.cwd(),
    process.platform, and whether the platform refuses to create
    symbolic links at all (no privilege, unsupported volume) and with
    which code. *)
Record os := {
  files : tree;
  cwd : path;
  platform : Platform;
  symlinkRefusal : option errno;
}.

Definition setFiles (m : tree) (o : os) : os :=
  {| files := m; cwd := cwd o; platform := platform o;
     symlinkRefusal := symlinkRefusal o |}.

(** The five methods of the Logger interface, and console.warn.  The
    logger of a run is the list of the calls made to it, in order, as
    TestLogger of logger.ts records them. *)
Inductive channel := Info | ErrorLog | Warn | Success | Skip | ConsoleWarn.

Abbreviation logLine := (channel * string)%type.

Module PluginResult.
Record t := {
  content : option string;
  localPath : option path;
  isDirectory : option bool;
  metadata : option (list (string * jsValue));
}.
End PluginResult.

(** A plugin's fetch acts on the machine, may log through the logger
    of its context, and returns a result or throws. *)
Definition fetchFn : Type :=
  jsValue -> path -> os -> os * list logLine * (jsError + PluginResult.t).

Module Plugin.
Record t := {
  name : string;
  version : string;
  description : string;
  fetch : fetchFn;
}.
End Plugin.

(** What a dynamically imported module may export.  An object export
    has a name property (absent, or a string) and a fetch property
    (absent or not callable, or a function). *)
Module Exported.
Record object := {
  name : option string;
  version : string;
  description : string;
  fetch : option fetchFn;
}.

Inductive value :=
| Function (construct : jsError + object)
| Object (o : object)
| Primitive (truthy : bool).
End Exported.

Abbreviation moduleNamespace := (list (string * Exported.value)).

(** ** Resources (src/config.ts) *)

Module ValidatedResource.
Record t := {
  plugin : string;
  pluginConfig : jsValue;
  overwrite : bool;
  outputs : list string;
}.
End ValidatedResource.

Module FetchedResource.
Record t := {
  definition : ValidatedResource.t;
  localPath : option path;
  isDirectory : bool;
  content : option string;
  pluginMetadata : option (list (string * jsValue));
}.
End FetchedResource.

(** ** The world of a run, and the monad of the engine

    Besides the machine: the lines written so far, the process-wide
    plugin registry, the modules import() can load, and the resource
    descriptors whose plugin fetch has been invoked so far. *)
Record world := {
  machine : os;
  output : list logLine;
  registry : gmap string Plugin.t;
  modules : gmap (list string) (jsError + moduleNamespace);
  fetches : list ValidatedResource.t;
}.

Definition setMachine (o : os) (w : world) : world :=
  {| machine := o; output := output w; registry := registry w;
     modules := modules w; fetches := fetches w |}.

Definition setOutput (l : list logLine) (w : world) : world :=
  {| machine := machine w; output := l; registry := registry w;
     modules := modules w; fetches := fetches w |}.

Definition setRegistry (r : gmap string Plugin.t) (w : world) : world :=
  {| machine := machine w; output := output w; registry := r;
     modules := modules w; fetches := fetches w |}.

Definition tree_of (w : world) : tree := files (machine w).

(** A computation either returns or throws, and changes the world. *)
Definition M (A : Type) : Type := world -> world * (jsError + A).

Definition ret {A} (a : A) : M A := fun w => (w, inr a).

Definition throw {A} (e : jsError) : M A := fun w => (w, inl e).

Definition bind {A B} (c : M A) (k : A -> M B) : M B :=
  fun w =>
    match c w with
    | (w', inr a) => k a w'
    | (w', inl e) => (w', inl e)
    end.

Definition tryCatch {A} (c : M A) (handler : jsError -> M A) : M A :=
  fun w =>
    match c w with
    | (w', inr a) => (w', inr a)
    | (w', inl e) => handler e w'
    end.

Declare Scope engine_scope.
Delimit Scope engine_scope with engine.
Notation "'let!' x ':=' c 'in' k" := (bind c (fun x => k))
  (at level 10, x pattern, c at level 100, k at level 200) : engine_scope.
Notation "c ';;' k" := (bind c (fun _ => k))
  (at level 100, k at level 200, right associativity) : engine_scope.
Local Open Scope engine_scope.

Definition emit (ch : channel) (msg : string) : M unit :=
  fun w => (setOutput (output w ++ [(ch, msg)]) w, inr tt).

(** A call into node:fs that only reads the tree. *)
Definition fsRead {A} (syscall : string) (what : string)
  (f : tree -> errno + A) : M A :=
  fun w =>
    match f (tree_of w) with
    | inr a => (w, inr a)
    | inl c => (w, inl (ErrnoException c syscall what))
    end.

(** A call into node:fs that changes the tree. *)
Definition fsWrite (syscall : string) (what : string)
  (f : tree -> errno + tree) : M unit :=
  fun w =>
    match f (tree_of w) with
    | inr m => (setMachine (setFiles m (machine w)) w, inr tt)
    | inl c => (w, inl (ErrnoException c syscall what))
    end.

(** How node names the two paths of copyfile and symlink in a message. *)
Definition twoPaths (a b : string) : string := a +:+ "' -> '" +:+ b.

(** ** Filesystem primitives (file.ts) *)

Module CopyResult.
Record t := { created : bool; updated : bool }.
End CopyResult.

Module DirResult.
Record t := { created : nat; skipped : nat }.
End DirResult.

Module LinkResult.
Record t := { created : bool; updated : bool; usedSymlink : bool }.
End LinkResult.

Inductive SymlinkType := SymFile | SymDir | SymJunction.

Definition pathExists (p : path) : M bool :=
  tryCatch
    (fsRead "stat" (showPath p) (fun m => stat m p);; ret true)
    (fun _ => ret false).

Definition ensureDirectoryExists (dirPath : path) : M unit :=
  tryCatch
    (fsWrite "mkdir" (showPath dirPath) (fun m => mkdir m dirPath))
    (fun error =>
       if decide (errorCode error = Some EEXIST) then ret tt
       else throw (FileOperationError
                     ("Failed to create directory: " +:+ showPath dirPath)
                     (showPath dirPath) "create directory")).

Definition copyFile (src dest : path) (overwrite : bool) : M CopyResult.t :=
  let! exists_ := pathExists dest in
  if exists_ && negb overwrite then
    ret {| CopyResult.created := false; CopyResult.updated := false |}
  else
    let copy : M CopyResult.t :=
      ensureDirectoryExists (dirname dest);;
      fsWrite "copyfile" (twoPaths (showPath src) (showPath dest))
        (fun m => fsCopyFile m src dest);;
      if exists_ && overwrite then
        ret {| CopyResult.created := false; CopyResult.updated := true |}
      else
        ret {| CopyResult.created := true; CopyResult.updated := false |} in
    if exists_ && overwrite then
      let! srcContent :=
        fsRead "open" (showPath src) (fun m => readFile m src) in
      let! destContent :=
        fsRead "open" (showPath dest) (fun m => readFile m dest) in
      if String.eqb srcContent destContent then
        ret {| CopyResult.created := false; CopyResult.updated := false |}
      else copy
    else copy.

(** The deepest directory nesting a path can name (PATH_MAX is 4096
    bytes and a level costs at least two): below it mkdir of the
    destination fails with ENAMETOOLONG, which ensureDirectoryExists
    reports as a FileOperationError. *)
Definition DEPTH_MAX : nat := 2048.

(** The loop of copyDirectory over the directory entries; [recurse]
    is the recursive call for a subdirectory. *)
Fixpoint copyEntries (recurse : path -> path -> M DirResult.t)
  (srcDir destDir : path) (overwrite : bool)
  (entries : list (string * node)) (created skipped : nat)
  : M DirResult.t :=
  match entries with
  | [] =>
      ret {| DirResult.created := created; DirResult.skipped := skipped |}
  | (name, entry) :: entries' =>
      let srcPath := join srcDir name in
      let destPath := join destDir name in
      if isDirectoryNode entry then
        let! result := recurse srcPath destPath in
        copyEntries recurse srcDir destDir overwrite entries'
          (created + DirResult.created result)
          (skipped + DirResult.skipped result)
      else if isFileNode entry then
        let! result := copyFile srcPath destPath overwrite in
        if CopyResult.created result || CopyResult.updated result
        then copyEntries recurse srcDir destDir overwrite entries'
               (S created) skipped
        else copyEntries recurse srcDir destDir overwrite entries'
               created (S skipped)
      else copyEntries recurse srcDir destDir overwrite entries'
             created skipped
  end.

Fixpoint copyDirectoryAt (depth : nat) (srcDir destDir : path)
  (overwrite : bool) : M DirResult.t :=
  match depth with
  | O =>
      throw (FileOperationError
               ("Failed to create directory: " +:+ showPath destDir)
               (showPath destDir) "create directory")
  | S depth' =>
      ensureDirectoryExists destDir;;
      let! entries :=
        fsRead "scandir" (showPath srcDir) (fun m => readdir m srcDir) in
      copyEntries (fun srcPath destPath =>
                     copyDirectoryAt depth' srcPath destPath overwrite)
                  srcDir destDir overwrite entries 0 0
  end.

Definition copyDirectory : path -> path -> bool -> M DirResult.t :=
  copyDirectoryAt DEPTH_MAX.

(** symlink of node:fs/promises on this machine. *)
Definition fsSymlink (target : list string) (dest : path) (ty : SymlinkType)
  : M unit :=
  fun w =>
    match symlinkRefusal (machine w) with
    | Some c =>
        (w, inl (ErrnoException c "symlink"
                   (twoPaths (String.concat "/" target) (showPath dest))))
    | None =>
        fsWrite "symlink" (twoPaths (String.concat "/" target) (showPath dest))
          (fun m => symlink m target dest) w
    end.

Definition currentPlatform : M Platform :=
  fun w => (w, inr (platform (machine w))).

Definition codeText (e : jsError) : string :=
  match errorCode e with
  | Some c => errnoName c
  | None => "undefined"
  end.

(** The catch block of symlinkOrCopy: [exists_] is the variable
    [exists] of the function, [error] the caught value. *)
Definition copyFallback (src dest : path) (overwrite isDir exists_ : bool)
  (error : jsError) : M LinkResult.t :=
  emit ConsoleWarn
    ("Symlink failed (" +:+ codeText error
       +:+ "), falling back to copy: " +:+ showPath dest);;
  tryCatch
    (if isDir then
       let! result := copyDirectory src dest overwrite in
       ret {| LinkResult.created :=
                (0 <? DirResult.created result) && negb exists_;
              LinkResult.updated :=
                (0 <? DirResult.created result) && exists_;
              LinkResult.usedSymlink := false |}
     else
       let! result := copyFile src dest overwrite in
       ret {| LinkResult.created := CopyResult.created result;
              LinkResult.updated := CopyResult.updated result;
              LinkResult.usedSymlink := false |})
    (fun fallbackError =>
       throw (FileOperationError
                ("Both symlink and copy operations failed for: "
                   +:+ showPath dest)
                (showPath dest) "symlink or copy")).

Definition symlinkOrCopy (src dest : path) (overwrite isDir : bool)
  : M LinkResult.t :=
  let! exists_ := pathExists dest in
  if exists_ && negb overwrite then
    ret {| LinkResult.created := false; LinkResult.updated := false;
           LinkResult.usedSymlink := false |}
  else
    ensureDirectoryExists (dirname dest);;
    tryCatch
      (let! pf := currentPlatform in
       let symlinkType :=
         if isDir
         then (if decide (pf = Win32) then SymJunction else SymDir)
         else SymFile in
       let relativeSrc := relative (dirname dest) src in
       fsSymlink relativeSrc dest symlinkType;;
       if exists_ && overwrite then
         ret {| LinkResult.created := false; LinkResult.updated := true;
                LinkResult.usedSymlink := true |}
       else
         ret {| LinkResult.created := true; LinkResult.updated := false;
                LinkResult.usedSymlink := true |})
      (copyFallback src dest overwrite isDir exists_).

Definition writeTextFile (dest : path) (content : string) (overwrite : bool)
  : M CopyResult.t :=
  let! exists_ := pathExists dest in
  if exists_ && negb overwrite then
    ret {| CopyResult.created := false; CopyResult.updated := false |}
  else
    let write : M CopyResult.t :=
      ensureDirectoryExists (dirname dest);;
      fsWrite "open" (showPath dest) (fun m => writeFile m dest content);;
      if exists_ && overwrite then
        ret {| CopyResult.created := false; CopyResult.updated := true |}
      else
        ret {| CopyResult.created := true; CopyResult.updated := false |} in
    if exists_ && overwrite then
      let! same :=
        tryCatch
          (let! existingContent :=
             fsRead "open" (showPath dest) (fun m => readFile m dest) in
           ret (String.eqb existingContent content))
          (fun _ => ret false) in
      if same then
        ret {| CopyResult.created := false; CopyResult.updated := false |}
      else write
    else write.

(** ** Plugin registry (plugins/registry.ts) *)

Definition register (plugin : Plugin.t) : M unit :=
  fun w => (setRegistry (<[Plugin.name plugin := plugin]> (registry w)) w, inr tt).

Definition resolvePlugin (name : string) : M Plugin.t :=
  fun w =>
    match registry w !! name with
    | Some plugin => (w, inr plugin)
    | None => (w, inl (PluginNotFoundError name))
    end.

Definition has (name : string) : M bool :=
  fun w => (w, inr (bool_decide (is_Some (registry w !! name)))).

Definition unregister (name : string) : M bool :=
  fun w => (setRegistry (delete name (registry w)) w,
            inr (bool_decide (is_Some (registry w !! name)))).

Definition clear : M unit :=
  fun w => (setRegistry ∅ w, inr tt).

Definition size : M nat :=
  fun w => (w, inr (base.size (registry w))).

(** import(absolutePath): what the table holds for the path, a
    namespace or the error that is thrown; a path the table does not
    hold is a module that is not found.  Nothing else happens to the
    world. *)
Definition importModule (absolutePath : path) : M moduleNamespace :=
  fun w =>
    match modules w !! absolutePath with
    | Some (inr pluginModule) => (w, inr pluginModule)
    | Some (inl e) => (w, inl e)
    | None =>
        (w, inl (Error ("Cannot find module '" +:+ showPath absolutePath +:+ "'")))
    end.

(** The shape check [x.name && typeof x.fetch === "function"]; an
    object that passes is a plugin. *)
Definition shapeCheck (o : Exported.object) : option Plugin.t :=
  match Exported.name o, Exported.fetch o with
  | Some n, Some f =>
      if String.eqb n EmptyString then None
      else Some {| Plugin.name := n; Plugin.version := Exported.version o;
                   Plugin.description := Exported.description o;
                   Plugin.fetch := f |}
  | _, _ => None
  end.

(** [try { const instance = new X(); ... } catch {}]. *)
Definition tryConstruct (construct : jsError + Exported.object)
  : option Plugin.t :=
  match construct with
  | inr instance => shapeCheck instance
  | inl _ => None
  end.

Fixpoint searchExports (exports : moduleNamespace) : option Plugin.t :=
  match exports with
  | [] => None
  | (exportName, exportValue) :: rest =>
      match exportValue with
      | Exported.Function construct =>
          match tryConstruct construct with
          | Some instance => Some instance
          | None => searchExports rest
          end
      | Exported.Object o =>
          match shapeCheck o with
          | Some instance => Some instance
          | None => searchExports rest
          end
      | Exported.Primitive _ => searchExports rest
      end
  end.

Definition getExport (pluginModule : moduleNamespace) (k : string)
  : option Exported.value :=
  match List.find (fun kv => String.eqb (fst kv) k) pluginModule with
  | Some kv => Some (snd kv)
  | None => None
  end.

(** The candidate search of loadPlugin, as its if / else-if / else
    chain runs it. *)
Definition findPlugin (pluginModule : moduleNamespace) : option Plugin.t :=
  match getExport pluginModule "default" with
  | Some (Exported.Function construct) => tryConstruct construct
  | Some (Exported.Object o) =>
      match shapeCheck o with
      | Some instance => Some instance
      | None => searchExports pluginModule
      end
  | _ => searchExports pluginModule
  end.

Definition loadPlugin (pluginPath : string) (projectRoot : path) : M unit :=
  tryCatch
    (let absolutePath := resolve projectRoot pluginPath in
     let! pluginModule := importModule absolutePath in
     match findPlugin pluginModule with
     | None =>
         throw (Error ("No valid plugin found in " +:+ pluginPath
                         +:+ ". Plugin must export a class or instance implementing the Plugin interface."))
     | Some pluginInstance => register pluginInstance
     end)
    (fun error =>
       throw (Error ("Failed to load plugin from " +:+ pluginPath +:+ ": "
                       +:+ formatError error))).

Fixpoint loadPlugins (pluginPaths : list string) (projectRoot : path)
  : M unit :=
  match pluginPaths with
  | [] => ret tt
  | pluginPath :: rest =>
      loadPlugin pluginPath projectRoot;; loadPlugins rest projectRoot
  end.

(** The plugin-loading step of loadConfig (config.ts): a failure
    becomes a ConfigurationError carrying the configuration file. *)
Definition loadConfiguredPlugins (plugins : list string) (projectRoot : path)
  (filepath : string) : M unit :=
  tryCatch
    (loadPlugins plugins projectRoot)
    (fun error =>
       throw (ConfigurationError
                ("Failed to load plugins: " +:+ formatError error)
                (Some filepath))).

(** ** Resource fetch orchestrator (resource.ts) *)

(** [plugin.fetch(definition.pluginConfig, context)]; the call is
    recorded in [fetches]. *)
Definition callFetch (plugin : Plugin.t) (definition : ValidatedResource.t)
  (projectRoot : path) : M PluginResult.t :=
  fun w =>
    let '(o, lines, r) :=
      Plugin.fetch plugin (ValidatedResource.pluginConfig definition)
        projectRoot (machine w) in
    ({| machine := o; output := output w ++ lines; registry := registry w;
        modules := modules w; fetches := fetches w ++ [definition] |}, r).

Definition fetchSingleResource (definition : ValidatedResource.t)
  (projectRoot : path) : M FetchedResource.t :=
  let! plugin := resolvePlugin (ValidatedResource.plugin definition) in
  tryCatch
    (let! result := callFetch plugin definition projectRoot in
     ret {| FetchedResource.definition := definition;
            FetchedResource.localPath := PluginResult.localPath result;
            FetchedResource.isDirectory :=
              default false (PluginResult.isDirectory result);
            FetchedResource.content := PluginResult.content result;
            FetchedResource.pluginMetadata := PluginResult.metadata result |})
    (fun error =>
       if isResourceError error then throw error
       else
         throw (ResourceError
                  ("Failed to fetch with plugin "
                     +:+ quote (ValidatedResource.plugin definition)
                     +:+ ": " +:+ formatError error)
                  (Some (ValidatedResource.plugin definition)))).

Fixpoint fetchResourcesFrom (resources : list ValidatedResource.t)
  (projectRoot : path) (fetchedResources : list FetchedResource.t)
  : M (list FetchedResource.t) :=
  match resources with
  | [] => ret fetchedResources
  | definition :: rest =>
      let! fetched :=
        tryCatch
          (fetchSingleResource definition projectRoot)
          (fun error =>
             if isResourceError error then throw error
             else
               throw (ResourceError
                        ("Failed to fetch resource: " +:+ formatError error)
                        None)) in
      fetchResourcesFrom rest projectRoot (fetchedResources ++ [fetched])
  end.

Definition fetchResources (resources : list ValidatedResource.t)
  (projectRoot : path) : M (list FetchedResource.t) :=
  fetchResourcesFrom resources projectRoot [].

(** ** Placement engine (commands/sync.ts) *)

Module PlaceResult.
Record t := { created : nat; updated : nat }.
End PlaceResult.

Module SyncResult.
Record t := {
  created : nat;
  updated : nat;
  skipped : nat;
  errors : list string;
}.
End SyncResult.

Definition countOf (b : bool) : nat := if b then 1 else 0.

Definition wantsSymlink (fetchedResource : FetchedResource.t) : bool :=
  String.eqb
    (ValidatedResource.plugin (FetchedResource.definition fetchedResource))
    "local"
  && match FetchedResource.pluginMetadata fetchedResource with
     | Some metadata =>
         match getField metadata "symlink" with
         | JBool true => true
         | _ => false
         end
     | None => false
     end.

Definition placeResourceAtOutput (fetchedResource : FetchedResource.t)
  (outputPath : path) : M PlaceResult.t :=
  let definition := FetchedResource.definition fetchedResource in
  let overwrite := ValidatedResource.overwrite definition in
  match FetchedResource.content fetchedResource with
  | Some content =>
      let! result := writeTextFile outputPath content overwrite in
      ret {| PlaceResult.created := countOf (CopyResult.created result);
             PlaceResult.updated := countOf (CopyResult.updated result) |}
  | None =>
      match FetchedResource.localPath fetchedResource with
      | None => throw (Error "Local path is undefined for local resource")
      | Some localPath =>
          let symlink := wantsSymlink fetchedResource in
          if FetchedResource.isDirectory fetchedResource then
            if symlink then
              let! result := symlinkOrCopy localPath outputPath overwrite true in
              ret {| PlaceResult.created := countOf (LinkResult.created result);
                     PlaceResult.updated := countOf (LinkResult.updated result) |}
            else
              let! result := copyDirectory localPath outputPath overwrite in
              ret {| PlaceResult.created := DirResult.created result;
                     PlaceResult.updated := 0 |}
          else if symlink then
            let! result := symlinkOrCopy localPath outputPath overwrite false in
            ret {| PlaceResult.created := countOf (LinkResult.created result);
                   PlaceResult.updated := countOf (LinkResult.updated result) |}
          else
            let! result := copyFile localPath outputPath overwrite in
            ret {| PlaceResult.created := countOf (CopyResult.created result);
                   PlaceResult.updated := countOf (CopyResult.updated result) |}
      end
  end.

Definition noResult : SyncResult.t :=
  {| SyncResult.created := 0; SyncResult.updated := 0;
     SyncResult.skipped := 0; SyncResult.errors := [] |}.

(** One turn of the loop over [definition.outputs]; [acc] holds the
    counters and the error list as they stand when the turn starts. *)
Definition processOutput (fetchedResource : FetchedResource.t)
  (projectRoot : path) (dryRun : bool) (outputPath : string)
  (acc : SyncResult.t) : M SyncResult.t :=
  let definition := FetchedResource.definition fetchedResource in
  tryCatch
    (let absoluteOutputPath := resolve projectRoot outputPath in
     if dryRun then
       emit Info ("[DRY RUN] Would process: " +:+ outputPath);;
       ret acc
     else
       let! result := placeResourceAtOutput fetchedResource absoluteOutputPath in
       let created := SyncResult.created acc + PlaceResult.created result in
       let updated := SyncResult.updated acc + PlaceResult.updated result in
       if 0 <? PlaceResult.created result then
         emit Success ("✓ Created: " +:+ outputPath);;
         ret {| SyncResult.created := created; SyncResult.updated := updated;
                SyncResult.skipped := SyncResult.skipped acc;
                SyncResult.errors := SyncResult.errors acc |}
       else if 0 <? PlaceResult.updated result then
         emit Success ("✓ Updated: " +:+ outputPath);;
         ret {| SyncResult.created := created; SyncResult.updated := updated;
                SyncResult.skipped := SyncResult.skipped acc;
                SyncResult.errors := SyncResult.errors acc |}
       else
         (if negb (ValidatedResource.overwrite definition) then
            emit Skip ("- Skipped: " +:+ outputPath
                         +:+ " (already exists, overwrite: false)")
          else
            emit Skip ("- Skipped: " +:+ outputPath +:+ " (content identical)"));;
         ret {| SyncResult.created := created; SyncResult.updated := updated;
                SyncResult.skipped := S (SyncResult.skipped acc);
                SyncResult.errors := SyncResult.errors acc |})
    (fun error =>
       let errorMessage := formatError error in
       let fullError :=
         "Failed to process output " +:+ quote outputPath +:+ ": "
           +:+ errorMessage in
       emit ErrorLog ("✗ " +:+ fullError);;
       ret {| SyncResult.created := SyncResult.created acc;
              SyncResult.updated := SyncResult.updated acc;
              SyncResult.skipped := SyncResult.skipped acc;
              SyncResult.errors := SyncResult.errors acc ++ [fullError] |}).

Fixpoint processOutputs (fetchedResource : FetchedResource.t)
  (projectRoot : path) (dryRun : bool) (outputs : list string)
  (acc : SyncResult.t) : M SyncResult.t :=
  match outputs with
  | [] => ret acc
  | outputPath :: rest =>
      let! acc' :=
        processOutput fetchedResource projectRoot dryRun outputPath acc in
      processOutputs fetchedResource projectRoot dryRun rest acc'
  end.

Definition processFetchedResource (fetchedResource : FetchedResource.t)
  (projectRoot : path) (dryRun : bool) : M SyncResult.t :=
  processOutputs fetchedResource projectRoot dryRun
    (ValidatedResource.outputs (FetchedResource.definition fetchedResource))
    noResult.

Definition showNat (n : nat) : string :=
  NilEmpty.string_of_uint (Nat.to_uint n).

Definition newline : string := String (Ascii.ascii_of_nat 10) EmptyString.

Definition rule : string := String.concat EmptyString (repeat "=" 50).

Definition printSummary (result : SyncResult.t) (dryRun : bool) : M unit :=
  let created := SyncResult.created result in
  let updated := SyncResult.updated result in
  let skipped := SyncResult.skipped result in
  let errors := SyncResult.errors result in
  let total := created + updated + skipped in
  emit Info (newline +:+ rule);;
  (if dryRun then emit Info "DRY RUN SUMMARY" else emit Info "SYNC SUMMARY");;
  emit Info rule;;
  emit Info ("Total outputs processed: " +:+ showNat total);;
  emit Info ("Created: " +:+ showNat created);;
  emit Info ("Updated: " +:+ showNat updated);;
  emit Info ("Skipped: " +:+ showNat skipped);;
  (if 0 <? length errors then
     emit Info ("Errors: " +:+ showNat (length errors));;
     emit Info (newline +:+ "Errors encountered:");;
     (fix each (errors : list string) : M unit :=
        match errors with
        | [] => ret tt
        | error :: rest => emit Info ("  • " +:+ error);; each rest
        end) errors
   else ret tt);;
  emit Info rule;;
  if length errors =? 0 then
    if dryRun then emit Success "✓ Dry run completed successfully"
    else emit Success "✓ Sync completed successfully"
  else emit Warn "⚠ Sync completed with errors".

Definition addResult (acc result : SyncResult.t) : SyncResult.t :=
  {| SyncResult.created := SyncResult.created acc + SyncResult.created result;
     SyncResult.updated := SyncResult.updated acc + SyncResult.updated result;
     SyncResult.skipped := SyncResult.skipped acc + SyncResult.skipped result;
     SyncResult.errors := SyncResult.errors acc ++ SyncResult.errors result |}.

(** The loop of runSync over the fetched resources.  The counters are
    variables of runSync that its catch block reads, so an exception
    leaves the loop together with the counters as they stand. *)
Fixpoint placeAll (fetchedResources : list FetchedResource.t)
  (projectRoot : path) (dryRun : bool) (acc : SyncResult.t)
  : world -> world * (jsError * SyncResult.t + SyncResult.t) :=
  match fetchedResources with
  | [] => fun w => (w, inr acc)
  | fetchedResource :: rest =>
      fun w =>
        match processFetchedResource fetchedResource projectRoot dryRun w with
        | (w', inr result) =>
            placeAll rest projectRoot dryRun (addResult acc result) w'
        | (w', inl error) => (w', inl (error, acc))
        end
  end.

Section RunSync.

(** loadConfig of config.ts finds and parses the configuration file
    through cosmiconfig; the engine only consumes its outcome.  Of the
    options of runSync, [logger] is the logger of the world and [quiet]
    only selects whether ConsoleLogger prints. *)
Variable loadConfig : option string -> path -> M (list ValidatedResource.t).

Definition currentDirectory : M path :=
  fun w => (w, inr (cwd (machine w))).

(** The catch block of runSync. *)
Definition syncFailed (acc : SyncResult.t) (error : jsError)
  : M SyncResult.t :=
  let errorMessage := formatError error in
  emit ErrorLog ("Error: " +:+ errorMessage);;
  ret {| SyncResult.created := SyncResult.created acc;
         SyncResult.updated := SyncResult.updated acc;
         SyncResult.skipped := SyncResult.skipped acc;
         SyncResult.errors := SyncResult.errors acc ++ [errorMessage] |}.

Definition runSync (configPath : option string) (dryRun : bool)
  : M SyncResult.t :=
  let! projectRoot := currentDirectory in
  fun w =>
    match (let! resources := loadConfig configPath projectRoot in
           fetchResources resources projectRoot) w with
    | (w1, inl error) => syncFailed noResult error w1
    | (w1, inr fetchedResources) =>
        match placeAll fetchedResources projectRoot dryRun noResult w1 with
        | (w2, inl (error, acc)) => syncFailed acc error w2
        | (w2, inr result) =>
            tryCatch (printSummary result dryRun;; ret result)
                     (syncFailed result) w2
        end
    end.

End RunSync.

(** ** Vocabulary of the statements *)

Definition isLinkNode (n : node) : bool :=
  match n with
  | Link _ _ => true
  | _ => false
  end.

(** A location holds no directory and no link: it is free or a file. *)
Definition plainAt (m : tree) (l : path) : Prop :=
  match m !! l with
  | None | Some (File _) => True
  | _ => False
  end.

(** [extends m m']: whatever resolves in [m] resolves to the same
    place in [m'], and whatever is there in [m] is still there. *)
Definition extends (m m' : tree) : Prop :=
  (forall p q, realpath m p = inr q -> realpath m' p = inr q) /\
  (forall q n, nodeAt m q = Some n -> nodeAt m' q = Some n).

Definition setTree (m : tree) (w : world) : world :=
  setMachine (setFiles m (machine w)) w.

Definition succeeds {E A} (r : E + A) : bool :=
  match r with
  | inr _ => true
  | inl _ => false
  end.

Definition directoryError (dirPath : path) : jsError :=
  FileOperationError ("Failed to create directory: " +:+ showPath dirPath)
                     (showPath dirPath) "create directory".

Definition copied : CopyResult.t :=
  {| CopyResult.created := true; CopyResult.updated := false |}.

Definition refreshed : CopyResult.t :=
  {| CopyResult.created := false; CopyResult.updated := true |}.

Definition untouched : CopyResult.t :=
  {| CopyResult.created := false; CopyResult.updated := false |}.

Definition exampleTree : tree :=
  <[ ["proj"; "old.md"] := File "Y" ]>
  (<[ ["proj"; "same.md"] := File "X" ]>
  (<[ ["shared"; "a.md"] := File "X" ]>
  (<[ ["shared"] := Dir ]>
  (<[ ["proj"] := Dir ]> ∅)))).

Definition exampleWorld : world :=
  {| machine := {| files := exampleTree; cwd := ["proj"]; platform := Linux;
                   symlinkRefusal := None |};
     output := []; registry := ∅; modules := ∅; fetches := [] |}.

(** [dest] names the free entry [l] of an existing directory: nothing
    is there, not even a dangling link. *)
Definition freeEntry (m : tree) (dest l : path) : Prop :=
  linkpath m dest = inr l /\ nodeAt m l = None /\
  nodeAt m (dirname l) = Some Dir.

Definition treeOr (r : errno + tree) : tree :=
  match r with
  | inr m => m
  | inl _ => ∅
  end.

(** What the symlink call of symlinkOrCopy does on a machine. *)
Definition linkAttempt (o : os) (target : list string) (dest : path)
  : errno + tree :=
  match symlinkRefusal o with
  | Some c => inl c
  | None => symlink (files o) target dest
  end.

Definition symlinkError (c : errno) (target : list string) (dest : path)
  : jsError :=
  ErrnoException c "symlink"
    (twoPaths (String.concat "/" target) (showPath dest)).

Definition bothFailed (dest : path) : jsError :=
  FileOperationError
    ("Both symlink and copy operations failed for: " +:+ showPath dest)
    (showPath dest) "symlink or copy".

(** No link appears between two trees. *)
Definition noNewLinks (m m' : tree) : Prop :=
  forall p a t, m' !! p = Some (Link a t) -> m !! p = Some (Link a t).

(** The example machine on a platform that refuses symbolic links. *)
Definition refusingWorld : world :=
  {| machine := {| files := exampleTree; cwd := ["proj"]; platform := Win32;
                   symlinkRefusal := Some EPERM |};
     output := []; registry := ∅; modules := ∅; fetches := [] |}.

Definition fallenBack (created updated : bool) : LinkResult.t :=
  {| LinkResult.created := created; LinkResult.updated := updated;
     LinkResult.usedSymlink := false |}.

Definition symlinkWarning (c : errno) (dest : path) : logLine :=
  (ConsoleWarn,
   "Symlink failed (" +:+ errnoName c +:+ "), falling back to copy: "
     +:+ showPath dest).

(** [keeps R c]: whatever [c] does to the world stays within [R]. *)
Definition keeps {A} (R : world -> world -> Prop) (c : M A) : Prop :=
  forall w w' r, c w = (w', r) -> R w w'.

Definition linkFree (w w' : world) : Prop :=
  noNewLinks (tree_of w) (tree_of w').

(** [copyOnly w w']: the worlds differ in the file tree only, and no
    link was added to it. *)
Definition copyOnly (w w' : world) : Prop :=
  w' = setTree (tree_of w') w /\ noNewLinks (tree_of w) (tree_of w').

(** The world after one more line has been written. *)
Definition emitted (line : logLine) (w : world) : world :=
  setOutput (output w ++ [line]) w.

Definition logged (lines : list logLine) (w : world) : world :=
  setOutput (output w ++ lines) w.

Definition failureMessage (outputPath : string) (error : jsError) : string :=
  "Failed to process output " +:+ quote outputPath +:+ ": "
    +:+ formatError error.

Definition withError (acc : SyncResult.t) (msg : string) : SyncResult.t :=
  {| SyncResult.created := SyncResult.created acc;
     SyncResult.updated := SyncResult.updated acc;
     SyncResult.skipped := SyncResult.skipped acc;
     SyncResult.errors := SyncResult.errors acc ++ [msg] |}.

(** The counters after an output that was placed with [result]. *)
Definition counted (acc : SyncResult.t) (result : PlaceResult.t) : SyncResult.t :=
  {| SyncResult.created := SyncResult.created acc + PlaceResult.created result;
     SyncResult.updated := SyncResult.updated acc + PlaceResult.updated result;
     SyncResult.skipped :=
       if (0 <? PlaceResult.created result) || (0 <? PlaceResult.updated result)
       then SyncResult.skipped acc else S (SyncResult.skipped acc);
     SyncResult.errors := SyncResult.errors acc |}.

(** The line logged for an output that was placed with [result]. *)
Definition placedLine (overwrite : bool) (outputPath : string)
  (result : PlaceResult.t) : logLine :=
  if 0 <? PlaceResult.created result then
    (Success, "✓ Created: " +:+ outputPath)
  else if 0 <? PlaceResult.updated result then
    (Success, "✓ Updated: " +:+ outputPath)
  else if negb overwrite then
    (Skip, "- Skipped: " +:+ outputPath +:+ " (already exists, overwrite: false)")
  else
    (Skip, "- Skipped: " +:+ outputPath +:+ " (content identical)").

Definition dryRunLine (outputPath : string) : logLine :=
  (Info, "[DRY RUN] Would process: " +:+ outputPath).

(** The statements of runSync that come before the placement loop. *)
Definition fetchStage
  (loadConfig : option string -> path -> M (list ValidatedResource.t))
  (configPath : option string) : M (list FetchedResource.t) :=
  fun w =>
    (let! resources := loadConfig configPath (cwd (machine w)) in
     fetchResources resources (cwd (machine w))) w.

(** The same statements for the project root [process.cwd()] gave. *)
Definition fetchStageIn
  (loadConfig : option string -> path -> M (list ValidatedResource.t))
  (configPath : option string) (projectRoot : path)
  : M (list FetchedResource.t) :=
  let! resources := loadConfig configPath projectRoot in
  fetchResources resources projectRoot.

(** The try statement of runSync with its catch block: everything
    runSync does once [process.cwd()] has given the project root. *)
Definition runSyncIn
  (loadConfig : option string -> path -> M (list ValidatedResource.t))
  (configPath : option string) (dryRun : bool) (projectRoot : path)
  : M SyncResult.t :=
  fun w =>
    match fetchStageIn loadConfig configPath projectRoot w with
    | (w1, inl error) => syncFailed noResult error w1
    | (w1, inr fetchedResources) =>
        match placeAll fetchedResources projectRoot dryRun noResult w1 with
        | (w2, inl (error, acc)) => syncFailed acc error w2
        | (w2, inr result) =>
            tryCatch (printSummary result dryRun;; ret result)
                     (syncFailed result) w2
        end
    end.

Definition countsOnly (errors : list string) : SyncResult.t :=
  {| SyncResult.created := 0; SyncResult.updated := 0;
     SyncResult.skipped := 0; SyncResult.errors := errors |}.

(** The example resources: two that can be placed around one whose
    output lies below a regular file. *)
Definition localResource (source : path) (overwrite symlinked : bool)
  (outputs : list string) : FetchedResource.t :=
  {| FetchedResource.definition :=
       {| ValidatedResource.plugin := "local";
          ValidatedResource.pluginConfig := JUndefined;
          ValidatedResource.overwrite := overwrite;
          ValidatedResource.outputs := outputs |};
     FetchedResource.localPath := Some source;
     FetchedResource.isDirectory := false;
     FetchedResource.content := None;
     FetchedResource.pluginMetadata := Some [("symlink", JBool symlinked)] |}.

Definition textResource (content : string) (overwrite : bool)
  (outputs : list string) : FetchedResource.t :=
  {| FetchedResource.definition :=
       {| ValidatedResource.plugin := "http";
          ValidatedResource.pluginConfig := JUndefined;
          ValidatedResource.overwrite := overwrite;
          ValidatedResource.outputs := outputs |};
     FetchedResource.localPath := None;
     FetchedResource.isDirectory := false;
     FetchedResource.content := Some content;
     FetchedResource.pluginMetadata := None |}.

(** A resource that is placed by writeTextFile, copyFile or
    symlinkOrCopy, i.e. by anything but a recursive directory copy. *)
Definition placedAsOne (fr : FetchedResource.t) : Prop :=
  is_Some (FetchedResource.content fr) \/
  (is_Some (FetchedResource.localPath fr) /\
   (FetchedResource.isDirectory fr = false \/ wantsSymlink fr = true)).




Definition skippedIdentical (outputPath : string) : logLine :=
  (Skip, "- Skipped: " +:+ outputPath +:+ " (content identical)").



(** The FetchedResource fetchSingleResource builds from a plugin result. *)
Definition fetchedFrom (definition : ValidatedResource.t)
  (result : PluginResult.t) : FetchedResource.t :=
  {| FetchedResource.definition := definition;
     FetchedResource.localPath := PluginResult.localPath result;
     FetchedResource.isDirectory := default false (PluginResult.isDirectory result);
     FetchedResource.content := PluginResult.content result;
     FetchedResource.pluginMetadata := PluginResult.metadata result |}.

(** The world after [plugin.fetch] has run for [definition]. *)
Definition afterFetch (definition : ValidatedResource.t) (o : os)
  (lines : list logLine) (w : world) : world :=
  {| machine := o; output := output w ++ lines; registry := registry w;
     modules := modules w; fetches := fetches w ++ [definition] |}.

(** How fetchSingleResource rethrows what a plugin threw. *)
Definition pluginFailure (definition : ValidatedResource.t) (x : jsError)
  : jsError :=
  if isResourceError x then x
  else ResourceError
         ("Failed to fetch with plugin "
            +:+ quote (ValidatedResource.plugin definition)
            +:+ ": " +:+ formatError x)
         (Some (ValidatedResource.plugin definition)).

(** How fetchResources rethrows what fetchSingleResource threw. *)
Definition resourceFailure (x : jsError) : jsError :=
  if isResourceError x then x
  else ResourceError ("Failed to fetch resource: " +:+ formatError x) None.

(** The data-model invariant of a FetchedResource. *)
Definition resourceInvariant (fr : FetchedResource.t) : Prop :=
  (is_Some (FetchedResource.content fr)
   <-> ~ is_Some (FetchedResource.localPath fr)) /\
  (is_Some (FetchedResource.content fr) ->
   FetchedResource.isDirectory fr = false).

(** The same invariant on what a plugin returned. *)
Definition resultInvariant (r : PluginResult.t) : Prop :=
  (is_Some (PluginResult.content r) <-> ~ is_Some (PluginResult.localPath r)) /\
  (is_Some (PluginResult.content r) ->
   PluginResult.isDirectory r <> Some true).

(** A plugin that returns one fixed result and touches nothing. *)
Definition constantPlugin (name : string) (result : jsError + PluginResult.t)
  : Plugin.t :=
  {| Plugin.name := name; Plugin.version := "1.0.0";
     Plugin.description := "returns a fixed result";
     Plugin.fetch := fun _ _ o => (o, [], result) |}.

Definition resourceOf (plugin : string) (outputs : list string)
  : ValidatedResource.t :=
  {| ValidatedResource.plugin := plugin;
     ValidatedResource.pluginConfig := JObject [];
     ValidatedResource.overwrite := true;
     ValidatedResource.outputs := outputs |}.

Definition withPlugins (plugins : list Plugin.t) (w : world) : world :=
  setRegistry
    (fold_right (fun p r => <[Plugin.name p := p]> r) (registry w) plugins) w.

(** A plugin result that sets content, localPath and isDirectory at once. *)
Definition overfullResult : PluginResult.t :=
  {| PluginResult.content := Some "text";
     PluginResult.localPath := Some ["shared"];
     PluginResult.isDirectory := Some true;
     PluginResult.metadata := None |}.

Definition textResult (content : string) : PluginResult.t :=
  {| PluginResult.content := Some content;
     PluginResult.localPath := None;
     PluginResult.isDirectory := None;
     PluginResult.metadata := None |}.

Definition pluginWorld : world :=
  withPlugins
    [ constantPlugin "good" (inr (textResult "hello"));
      constantPlugin "failing" (inl (PluginError "boom" "failing"));
      constantPlugin "relay" (inl (ResourceError "HTTP 404 Not Found" (Some "url")));
      constantPlugin "overfull" (inr overfullResult) ]
    exampleWorld.

(** The two shape checks applied to one exported value. *)
Definition candidate (v : Exported.value) : option Plugin.t :=
  match v with
  | Exported.Function construct => tryConstruct construct
  | Exported.Object o => shapeCheck o
  | Exported.Primitive _ => None
  end.

Definition isDefault (kv : string * Exported.value) : bool :=
  String.eqb (fst kv) "default".

(** The search as the specification words it: first the default export
    as a class, then the default export as an object, then all other
    named exports in enumeration order under the same two checks; the
    first match wins. *)
Definition claimedSearch (pluginModule : moduleNamespace) : option Plugin.t :=
  let others :=
    searchExports (List.filter (fun kv => negb (isDefault kv)) pluginModule) in
  match getExport pluginModule "default" with
  | Some v =>
      match candidate v with
      | Some instance => Some instance
      | None => others
      end
  | None => others
  end.

Definition noPluginFound (pluginPath : string) : string :=
  "No valid plugin found in " +:+ pluginPath
    +:+ ". Plugin must export a class or instance implementing the Plugin interface.".

Definition loadFailure (pluginPath : string) (reason : string) : jsError :=
  Error ("Failed to load plugin from " +:+ pluginPath +:+ ": " +:+ reason).

(** Example modules.  [shadowedModule] default-exports a class whose
    instances have no fetch method, next to a named export that is a
    plugin; [namedModule] has the same named export and no default. *)
Definition helperObject : Exported.object :=
  {| Exported.name := Some "helper"; Exported.version := "0.1.0";
     Exported.description := "not a plugin"; Exported.fetch := None |}.

Definition namedObject : Exported.object :=
  {| Exported.name := Some "named"; Exported.version := "1.0.0";
     Exported.description := "a plugin";
     Exported.fetch := Some (fun _ _ o => (o, [], inr (textResult "hello"))) |}.

Definition shadowedModule : moduleNamespace :=
  [("default", Exported.Function (inr helperObject));
   ("plugin", Exported.Object namedObject)].

Definition namedModule : moduleNamespace :=
  [("version", Exported.Primitive true);
   ("plugin", Exported.Object namedObject)].

Definition moduleWorld : world :=
  {| machine := machine exampleWorld; output := []; registry := ∅;
     modules := <[ ["proj"; "shadowed.js"] := inr shadowedModule ]>
                (<[ ["proj"; "named.js"] := inr namedModule ]> ∅);
     fetches := [] |}.

(** A computation that only writes lines and returns. *)
Definition logsOnly {A} (c : M A) : Prop :=
  exists lines a, forall w, c w = (logged lines w, inr a).

(** One turn of the loop of fetchResources. *)
Definition fetchTurn (definition : ValidatedResource.t) (root : path)
  : M FetchedResource.t :=
  tryCatch (fetchSingleResource definition root)
           (fun error => throw (resourceFailure error)).

(** ** The rest of file.ts and of the registry *)

Definition isDirectory (p : path) : M bool :=
  tryCatch
    (let! stats := fsRead "stat" (showPath p) (fun m => stat m p) in
     ret (isDirectoryNode stats))
    (fun _ => ret false).

(** *** Strings as JavaScript orders them

    A string of the model is the UTF-8 form of a JavaScript string.
    [Array.prototype.sort] without a comparator orders strings by their
    UTF-16 code units: the bytes are decoded to code points, and a code
    point is written as one code unit, or as its two surrogates when it
    lies above U+FFFF.  Bytes that are no UTF-8 decode to U+FFFD, as a
    decoder does; a name of a plugin is well-formed. *)
Definition continuation (b : N) : bool := (128 <=? b)%N && (b <? 192)%N.

Fixpoint codePoints (bytes : list N) : list N :=
  match bytes with
  | [] => []
  | b0 :: rest =>
      if (b0 <? 128)%N then b0 :: codePoints rest
      else
        match rest with
        | b1 :: rest1 =>
            if (192 <=? b0)%N && (b0 <? 224)%N && continuation b1 then
              ((b0 - 192) * 64 + (b1 - 128))%N :: codePoints rest1
            else
              match rest1 with
              | b2 :: rest2 =>
                  if (224 <=? b0)%N && (b0 <? 240)%N
                     && continuation b1 && continuation b2 then
                    ((b0 - 224) * 4096 + (b1 - 128) * 64 + (b2 - 128))%N
                      :: codePoints rest2
                  else
                    match rest2 with
                    | b3 :: rest3 =>
                        if (240 <=? b0)%N && (b0 <? 248)%N && continuation b1
                           && continuation b2 && continuation b3 then
                          ((b0 - 240) * 262144 + (b1 - 128) * 4096
                           + (b2 - 128) * 64 + (b3 - 128))%N
                            :: codePoints rest3
                        else 65533%N :: codePoints rest
                    | [] => 65533%N :: codePoints rest
                    end
              | [] => 65533%N :: codePoints rest
              end
        | [] => [65533%N]
        end
  end.

Definition surrogates (codePoint : N) : list N :=
  if (codePoint <? 65536)%N then [codePoint]
  else [(55296 + (codePoint - 65536) / 1024)%N;
        (56320 + (codePoint - 65536) mod 1024)%N].

Definition codeUnits (s : string) : list N :=
  flat_map surrogates (codePoints (map N_of_ascii (list_ascii_of_string s))).

(** [a <= b] for two sequences of code units: the first unit that
    differs decides, and a prefix comes first. *)
Fixpoint unitsLe (a b : list N) : bool :=
  match a, b with
  | [], _ => true
  | _ :: _, [] => false
  | x :: a', y :: b' =>
      if (x <? y)%N then true
      else if (y <? x)%N then false
      else unitsLe a' b'
  end.

Definition codeUnitLe (a b : string) : Prop :=
  unitsLe (codeUnits a) (codeUnits b) = true.

#[global] Instance codeUnitLe_dec : RelDecision codeUnitLe :=
  fun a b => decide (unitsLe (codeUnits a) (codeUnits b) = true).

(** [Array.from(this.plugins.keys()).sort()]. *)
Definition listAvailable : M (list string) :=
  fun w =>
    (w, inr (merge_sort codeUnitLe (map fst (map_to_list (registry w))))).

(** Four plugins whose names are ordered differently as bytes and as
    code units: U+1F600 lies above U+FF5E, its surrogates below. *)
Definition unicodeWorld : world :=
  withPlugins
    [ constantPlugin "😀" (inr (textResult "d"));
      constantPlugin "～" (inr (textResult "c"));
      constantPlugin "é" (inr (textResult "b"));
      constantPlugin "z" (inr (textResult "a")) ]
    exampleWorld.

(** *** loadPlugin with import() left open

    [import(absolutePath)] evaluates the module: before its namespace
    is there, or its error is thrown, the code of the module may have
    done anything to the world.  [loadPluginBy import_] is loadPlugin
    with [import_] standing for that call, whatever it does; loadPlugin
    as modelled above is [loadPluginBy importModule]. *)
Section ImportCall.

Variable import_ : path -> M moduleNamespace.




End ImportCall.



(** ** handleNodeError (errors.ts) *)

(** The error handleNodeError throws for [error]. *)
Definition handledError (error : jsError) (path operation : string) : jsError :=
  match errorCode error with
  | Some ENOENT =>
      FileOperationError ("Path does not exist: " +:+ path) path operation
  | Some EACCES =>
      FileOperationError ("No permission to access path: " +:+ path)
                         path operation
  | Some EPERM =>
      FileOperationError ("Operation not permitted: " +:+ path) path operation
  | _ =>
      FileOperationError
        (operation +:+ " failed for " +:+ quote path +:+ ": "
           +:+ formatError error)
        path operation
  end.


(** ** Validators (validators.ts) *)

(** A value of type unknown as the validators inspect it, arrays
    included. *)
#[warnings="-register-all"]
Inductive unknown :=
| UUndefined
| UNull
| UBool (b : bool)
| UNumber (n : nat)
| UString (s : string)
| UArray (items : list unknown)
| UObject (fields : list (string * unknown)).

Definition truthy (v : unknown) : bool :=
  match v with
  | UUndefined | UNull => false
  | UBool b => b
  | UNumber n => negb (n =? 0)
  | UString s => negb (String.eqb s EmptyString)
  | UArray _ | UObject _ => true
  end.

Definition typeOf (v : unknown) : string :=
  match v with
  | UUndefined => "undefined"
  | UBool _ => "boolean"
  | UNumber _ => "number"
  | UString _ => "string"
  | UNull | UArray _ | UObject _ => "object"
  end.

Definition isArray (v : unknown) : bool :=
  match v with
  | UArray _ => true
  | _ => false
  end.

(** [v.k] for a value that is neither undefined nor null. *)
Definition property (v : unknown) (k : string) : unknown :=
  match v with
  | UObject fields =>
      match List.find (fun kv => String.eqb (fst kv) k) fields with
      | Some kv => snd kv
      | None => UUndefined
      end
  | _ => UUndefined
  end.

Definition validateOverwrite (overwrite : unknown) (resourcePath : string)
  : M bool :=
  match overwrite with
  | UUndefined => ret true
  | UBool b => ret b
  | _ =>
      throw (ValidationError "overwrite must be a boolean"
                             (Some (resourcePath +:+ ".overwrite")))
  end.

(** The loop of validateOutputs over the array; [i] is its index and
    [validatedOutputs] what has been pushed so far. *)
Fixpoint validateEachOutput (resourcePath : string) (outputs : list unknown)
  (i : nat) (validatedOutputs : list string) : M (list string) :=
  match outputs with
  | [] => ret validatedOutputs
  | output :: rest =>
      match output with
      | UString s =>
          if String.eqb s EmptyString then
            throw (ValidationError "Each output must be a non-empty string"
                     (Some (resourcePath +:+ ".outputs[" +:+ showNat i +:+ "]")))
          else validateEachOutput resourcePath rest (S i) (validatedOutputs ++ [s])
      | _ =>
          throw (ValidationError "Each output must be a non-empty string"
                   (Some (resourcePath +:+ ".outputs[" +:+ showNat i +:+ "]")))
      end
  end.

Definition validateOutputs (outputs : unknown) (resourcePath : string)
  : M (list string) :=
  if negb (truthy outputs) then
    throw (ValidationError ("Resource must have " +:+ quote "outputs")
                           (Some (resourcePath +:+ ".outputs")))
  else
    match outputs with
    | UString s =>
        if String.eqb s EmptyString then
          throw (ValidationError "Output path cannot be empty"
                                 (Some (resourcePath +:+ ".outputs")))
        else ret [s]
    | UArray items =>
        if isNil items then
          throw (ValidationError "outputs array cannot be empty"
                                 (Some (resourcePath +:+ ".outputs")))
        else validateEachOutput resourcePath items 0 []
    | _ =>
        throw (ValidationError "outputs must be a string or array of strings"
                               (Some (resourcePath +:+ ".outputs")))
    end.

Definition validateConfigStructure (config : unknown)
  (configPath : option string) : M unit :=
  if negb (truthy config) || negb (String.eqb (typeOf config) "object") then
    throw (ValidationError "Configuration must be an object" configPath)
  else
    match property config "resources" with
    | UArray resources =>
        if isNil resources then
          throw (ValidationError
                   "Configuration must have at least one resource" configPath)
        else ret tt
    | _ =>
        throw (ValidationError
                 ("Configuration must have a " +:+ quote "resources" +:+ " array")
                 configPath)
    end.

Definition validateResourceStructure (resource : unknown)
  (resourcePath : string) : M unit :=
  if negb (truthy resource) || negb (String.eqb (typeOf resource) "object")
     || isArray resource
  then throw (ValidationError "Resource must be an object" (Some resourcePath))
  else ret tt.

(** A resource of the configuration file (config.ts).  The file is not
    type checked, so every property the validators test holds any
    value; [pluginConfig] is handed to the plugin as it is. *)
Module Resource.
Record t := {
  plugin : unknown;
  pluginConfig : jsValue;
  overwrite : unknown;
  outputs : unknown;
}.
End Resource.

Fixpoint ofJs (v : jsValue) : unknown :=
  match v with
  | JUndefined => UUndefined
  | JNull => UNull
  | JBool b => UBool b
  | JNumber n => UNumber n
  | JString s => UString s
  | JObject fields =>
      UObject (map (fun kv => match kv with (k, x) => (k, ofJs x) end) fields)
  end.

(** The resource as the object it is. *)
Definition resourceValue (resource : Resource.t) : unknown :=
  UObject [("plugin", Resource.plugin resource);
           ("pluginConfig", ofJs (Resource.pluginConfig resource));
           ("overwrite", Resource.overwrite resource);
           ("outputs", Resource.outputs resource)].

(** [resource.plugin] once it is known to be a string. *)
Definition pluginOf (resource : Resource.t) : string :=
  match Resource.plugin resource with
  | UString s => s
  | _ => EmptyString
  end.

Definition validateResourceSource (resource : Resource.t)
  (resourcePath : string) : M unit :=
  if negb (String.eqb (typeOf (Resource.plugin resource)) "string")
     || String.eqb (pluginOf resource) EmptyString
  then
    throw (ValidationError
             ("Resource must have a " +:+ quote "plugin"
                +:+ " field with a non-empty string")
             (Some (resourcePath +:+ ".plugin")))
  else
    let! known := has (pluginOf resource) in
    if negb known then
      let! availablePlugins := listAvailable in
      throw (ValidationError
               ("Unknown plugin " +:+ quote (pluginOf resource)
                  +:+ ". Available plugins: "
                  +:+ String.concat ", " availablePlugins)
               (Some (resourcePath +:+ ".plugin")))
    else
      match Resource.pluginConfig resource with
      | JUndefined =>
          throw (ValidationError
                   ("Resource must have a " +:+ quote "pluginConfig" +:+ " field")
                   (Some (resourcePath +:+ ".pluginConfig")))
      | _ => ret tt
      end.

Section Validation.

(** The optional validate method of a plugin (plugins/types.ts). *)
Variable validateOf : Plugin.t -> option (jsValue -> M unit).

Definition validateResource (resource : Resource.t) (resourcePath : string)
  : M ValidatedResource.t :=
  validateResourceStructure (resourceValue resource) resourcePath;;
  validateResourceSource resource resourcePath;;
  let! overwrite := validateOverwrite (Resource.overwrite resource) resourcePath in
  let! outputs := validateOutputs (Resource.outputs resource) resourcePath in
  let! plugin := resolvePlugin (pluginOf resource) in
  match validateOf plugin with
  | Some validate =>
      tryCatch
        (validate (Resource.pluginConfig resource))
        (fun error =>
           throw (ValidationError
                    ("Plugin validation failed: " +:+ formatError error)
                    (Some (resourcePath +:+ ".pluginConfig"))))
  | None => ret tt
  end;;
  ret {| ValidatedResource.plugin := pluginOf resource;
         ValidatedResource.pluginConfig := Resource.pluginConfig resource;
         ValidatedResource.overwrite := overwrite;
         ValidatedResource.outputs := outputs |}.

End Validation.


(** isPluginResource of plugins/helpers.ts. *)
Definition isPluginResource (resource : unknown) : bool :=
  if negb (String.eqb (typeOf resource) "object") || negb (truthy resource)
  then false
  else
    match resource with
    | UObject fields =>
        bool_decide (is_Some (List.find (fun kv => String.eqb (fst kv) "plugin")
                                        fields))
        && String.eqb (typeOf (property resource "plugin")) "string"
        && match property resource "plugin" with
           | UString s => negb (String.eqb s EmptyString)
           | _ => false
           end
    | _ => false
    end.

(** ** The local plugin (plugins/builtin/local.ts) *)

Definition jsTruthy (v : jsValue) : bool :=
  match v with
  | JUndefined | JNull => false
  | JBool b => b
  | JNumber n => negb (n =? 0)
  | JString s => negb (String.eqb s EmptyString)
  | JObject _ => true
  end.

(** [v.k] for a value that is neither undefined nor null. *)
Definition jsProperty (v : jsValue) (k : string) : jsValue :=
  match v with
  | JObject fields => getField fields k
  | _ => JUndefined
  end.

(** PluginConfigurationError of plugins/errors.ts, a PluginError. *)
Definition PluginConfigurationError (pluginName field message : string)
  : jsError :=
  PluginError ("Invalid configuration for field " +:+ quote field +:+ ": "
                 +:+ message)
              pluginName.

Module LocalPlugin.

Definition name : string := "local".

Definition validate (config : jsValue) : jsError + unit :=
  match config with
  | JObject _ =>
      match jsProperty config "path" with
      | JString s =>
          if String.eqb s EmptyString then
            inl (PluginConfigurationError name "path" "must be a non-empty string")
          else inr tt
      | _ =>
          inl (PluginConfigurationError name "path" "must be a non-empty string")
      end
  | _ => inl (PluginConfigurationError name "config" "must be an object")
  end.

(** [localConfig.path] once validate has passed. *)
Definition pathOf (config : jsValue) : string :=
  match jsProperty config "path" with
  | JString s => s
  | _ => EmptyString
  end.

Section Fetch.

(** [stats.mtime.toISOString()] of what stat finds at a path; the
    file tree keeps no times. *)
Variable mtime : os -> path -> string.

Definition fetch : fetchFn :=
  fun config projectRoot o =>
    match validate config with
    | inl e => (o, [], inl e)
    | inr _ =>
        let absolutePath := resolve projectRoot (pathOf config) in
        match stat (files o) absolutePath with
        | inr stats =>
            (o, [],
             inr {| PluginResult.content := None;
                    PluginResult.localPath := Some absolutePath;
                    PluginResult.isDirectory := Some (isDirectoryNode stats);
                    PluginResult.metadata :=
                      Some [("lastModified", JString (mtime o absolutePath));
                            ("version", JString (mtime o absolutePath));
                            ("symlink",
                             if jsTruthy (jsProperty config "symlink")
                             then jsProperty config "symlink"
                             else JBool false)] |})
        | inl c =>
            let handledError :=
              handledError (ErrnoException c "stat" (showPath absolutePath))
                           (pathOf config) "access local path" in
            (o, [],
             inl (PluginError
                    ("Failed to access local path " +:+ quote (pathOf config)
                       +:+ ": " +:+ formatError handledError)
                    name))
        end
    end.

Definition plugin : Plugin.t :=
  {| Plugin.name := name; Plugin.version := "1.0.0";
     Plugin.description := "Fetch files and directories from local filesystem";
     Plugin.fetch := fetch |}.

End Fetch.

End LocalPlugin.

(** ** The init command (commands/init.ts) *)

Module InitCommand.

Definition CONFIG_FILES : list string :=
  [".knowhubrc.ts"; ".knowhubrc.js"; ".knowhubrc.json"; ".knowhubrc.yaml";
   ".knowhubrc.yml"; ".knowhubrc"].

Definition pathExists (p : path) : M bool :=
  tryCatch
    (fsRead "stat" (showPath p) (fun m => stat m p);; ret true)
    (fun _ => ret false).

(** How a run of the command ends: normally, with the lines it wrote
    to standard output, or by process.exit with the line it wrote to
    standard error. *)
Inductive outcome :=
| Completed (stdout : list string)
| Exited (code : nat) (stderr : string).

Section Init.

(** The directory of the module, [dirname(fileURLToPath(import.meta.url))],
    and JSON.parse. *)
Variable moduleDirectory : path.
Variable parseJson : string -> jsError + jsValue.

(** The loop over CONFIG_FILES; a relative path is relative to
    process.cwd(). *)
Fixpoint checkConfigFiles (directory : path) (configFiles : list string)
  : M unit :=
  match configFiles with
  | [] => ret tt
  | configFile :: rest =>
      let! exists_ := pathExists (resolve directory configFile) in
      if exists_ then
        throw (Error ("Configuration file already exists: " +:+ configFile))
      else checkConfigFiles directory rest
  end.

Definition checkPackageJson (directory : path) : M unit :=
  let! exists_ := pathExists (resolve directory "package.json") in
  if exists_ then
    tryCatch
      (let! packageContent :=
         fsRead "open" "package.json"
           (fun m => readFile m (resolve directory "package.json")) in
       let! packageJson := (fun w => (w, parseJson packageContent)) in
       let! knowhub :=
         match packageJson with
         | JUndefined | JNull =>
             throw (Error "Cannot read properties of null (reading 'knowhub')")
         | _ => ret (jsProperty packageJson "knowhub")
         end in
       if jsTruthy knowhub then
         throw (Error ("Configuration already exists in package.json under "
                         +:+ quote "knowhub" +:+ " field"))
       else ret tt)
      (fun error => ret tt)
  else ret tt.

(** The loop over possibleTemplatePaths. *)
Fixpoint findTemplate (possibleTemplatePaths : list path) : M (option path) :=
  match possibleTemplatePaths with
  | [] => ret None
  | p :: rest =>
      let! exists_ := pathExists p in
      if exists_ then ret (Some p) else findTemplate rest
  end.

(** The try block of init up to the two console.log calls. *)
Definition createTemplate : M unit :=
  let! directory := currentDirectory in
  checkConfigFiles directory CONFIG_FILES;;
  checkPackageJson directory;;
  let possibleTemplatePaths :=
    [resolve moduleDirectory "../../templates/.knowhubrc.template.ts";
     resolve moduleDirectory "../../../templates/.knowhubrc.template.ts"] in
  let! templatePath := findTemplate possibleTemplatePaths in
  match templatePath with
  | None => throw (Error "Could not find configuration template file")
  | Some templatePath =>
      let! template :=
        fsRead "open" (showPath templatePath)
          (fun m => readFile m templatePath) in
      fsWrite "open" ".knowhubrc.ts"
        (fun m => writeFile m (resolve directory ".knowhubrc.ts") template)
  end.

Definition init : world -> world * outcome :=
  fun w =>
    match createTemplate w with
    | (w', inr _) =>
        (w', Completed
               ["✓ Configuration template created successfully";
                "Edit your configuration file and run "
                  +:+ quote "npx knowhub" +:+ " to sync resources"])
    | (w', inl error) =>
        (w', Exited 1 ("Failed to create configuration template: "
                         +:+ formatError error))
    end.

End Init.

End InitCommand.

(** Every entry of [m] is still there in [m'] and of the same kind: a
    directory is that directory, a link is that link, a file is a file,
    whatever its bytes. *)
Definition keepsEntries (m m' : tree) : Prop :=
  forall q n,
    m !! q = Some n ->
    match n with
    | File _ => exists d, m' !! q = Some (File d)
    | _ => m' !! q = Some n
    end.


(** The outputs a result accounts for. *)
Definition accounted (r : SyncResult.t) : nat :=
  SyncResult.created r + SyncResult.updated r + SyncResult.skipped r
    + length (SyncResult.errors r).

Definition missingLocalPath : jsError :=
  Error "Local path is undefined for local resource".

Definition failureLine (outputPath : string) (error : jsError) : logLine :=
  (ErrorLog, "✗ " +:+ failureMessage outputPath error).

(** An element validateOutputs accepts: a non-empty string. *)
Definition goodOutput (v : unknown) : bool :=
  match v with
  | UString s => negb (String.eqb s EmptyString)
  | _ => false
  end.

Definition outputsError (message resourcePath : string) : jsError :=
  ValidationError message (Some (resourcePath +:+ ".outputs")).

Definition outputError (resourcePath : string) (i : nat) : jsError :=
  ValidationError "Each output must be a non-empty string"
    (Some (resourcePath +:+ ".outputs[" +:+ showNat i +:+ "]")).

(** The validate method of the plugins of a world in which only the
    local plugin has one. *)
Definition validateOfLocal (plugin : Plugin.t) : option (jsValue -> M unit) :=
  if String.eqb (Plugin.name plugin) LocalPlugin.name
  then Some (fun config w => (w, LocalPlugin.validate config))
  else None.

Definition exampleTime (o : os) (p : path) : string :=
  "2024-01-01T00:00:00.000Z".

(** The example world with the built-in plugin registered, as
    plugins/index.ts does on load. *)
Definition localWorld : world :=
  withPlugins [LocalPlugin.plugin exampleTime] exampleWorld.

Definition localConfig (p : string) (symlink : jsValue) : jsValue :=
  JObject [("path", JString p); ("symlink", symlink)].

Definition exampleResource (p : string) (outputs : unknown) : Resource.t :=
  {| Resource.plugin := UString "local";
     Resource.pluginConfig := localConfig p JUndefined;
     Resource.overwrite := UUndefined;
     Resource.outputs := outputs |}.

(** A descriptor of the local plugin. *)
Definition localDescriptor (config : jsValue) (outputs : list string)
  : ValidatedResource.t :=
  {| ValidatedResource.plugin := "local";
     ValidatedResource.pluginConfig := config;
     ValidatedResource.overwrite := true;
     ValidatedResource.outputs := outputs |}.

(** The message of the error the local plugin throws for a path that
    does not exist. *)
Definition missingPathMessage (p : string) : string :=
  "Failed to access local path " +:+ quote p +:+ ": Path does not exist: " +:+ p.

(** Whether a configuration file of that name exists in the working
    directory. *)
Definition configExists (w : world) (configFile : string) : bool :=
  succeeds (stat (tree_of w) (resolve (cwd (machine w)) configFile)).

Definition templatePaths (moduleDirectory : path) : list path :=
  [resolve moduleDirectory "../../templates/.knowhubrc.template.ts";
   resolve moduleDirectory "../../../templates/.knowhubrc.template.ts"].

Definition initFailed (reason : string) : InitCommand.outcome :=
  InitCommand.Exited 1 ("Failed to create configuration template: " +:+ reason).

Definition initCompleted : InitCommand.outcome :=
  InitCommand.Completed
    ["✓ Configuration template created successfully";
     "Edit your configuration file and run " +:+ quote "npx knowhub"
       +:+ " to sync resources"].

(** A project with a package.json that has a knowhub field, and the
    installed package with its template. *)
Definition packageTree : tree :=
  <[ ["pkg"; "templates"; ".knowhubrc.template.ts"] := File "export default {}" ]>
  (<[ ["pkg"; "templates"] := Dir ]>
  (<[ ["pkg"; "dist"; "commands"] := Dir ]>
  (<[ ["pkg"; "dist"] := Dir ]>
  (<[ ["pkg"] := Dir ]>
  (<[ ["proj"; "package.json"] := File "{ knowhub: {} }" ]>
  (<[ ["proj"] := Dir ]> ∅)))))).

Definition packageWorld : world :=
  {| machine := {| files := packageTree; cwd := ["proj"]; platform := Linux;
                   symlinkRefusal := None |};
     output := []; registry := ∅; modules := ∅; fetches := [] |}.

(** A JSON.parse that finds a knowhub field in every text. *)
Definition parseWithKnowhub (text : string) : jsError + jsValue :=
  inr (JObject [("knowhub", JObject [])]).

(** The same project with two configuration files. *)
Definition configuredWorld : world :=
  setTree (<[ ["proj"; ".knowhubrc"] := File "{}" ]>
           (<[ ["proj"; ".knowhubrc.yaml"] := File "resources: []" ]> packageTree))
          packageWorld.


Definition entriesOr (r : errno + list (string * node)) : list (string * node) :=
  match r with
  | inr entries => entries
  | inl _ => []
  end.

(** A name that is neither "." nor "..". *)
Definition dotless (c : string) : bool :=
  negb (String.eqb c ".") && negb (String.eqb c "..").

(** A path in the form path.resolve produces: no component is "." or
    "..". *)
Definition plainPath (p : path) : Prop := Forall (fun c => dotless c = true) p.

Definition entryOk (m : tree) (k : path) : bool :=
  forallb dotless k
  && match nodeAt m (removelast k) with
     | Some Dir => true
     | _ => false
     end.

(** A file tree as a file system keeps it: every entry has a proper
    name and lies in a directory. *)
Definition wellFormed (m : tree) : Prop :=
  map_Forall (fun k _ => entryOk m k = true) m.

(** Nothing lies below [l]. *)
Definition barren (m : tree) (l : path) : Prop :=
  forall k, k <> [] -> m !! (l ++ k) = None.

(** From a well-formed tree the run leads to a well-formed tree that
    holds every entry of the first, unchanged. *)
Definition addsOnly (w w' : world) : Prop :=
  wellFormed (tree_of w) ->
  wellFormed (tree_of w') /\ tree_of w ⊆ tree_of w'.

(** The locations on the way to a path: its prefixes, the root and the
    path itself included. *)
Fixpoint pathPrefixes (p : path) : list path :=
  match p with
  | [] => [[]]
  | c :: p' => [] :: map (cons c) (pathPrefixes p')
  end.

(** No directory on the way to [p], and not [p] itself, is a symbolic
    link. *)
Definition linkless (m : tree) (p : path) : bool :=
  forallb (fun pre => match nodeAt m pre with
                      | Some (Link _ _) => false
                      | _ => true
                      end) (pathPrefixes p).







(** * Properties of the file tree model *)

Lemma walk_nil follow m fuel cur : walk follow m fuel cur [] = inr cur.
Proof. destruct fuel; reflexivity. Qed.

Lemma walk_cons follow m fuel cur c rest :
  walk follow m fuel cur (c :: rest) =
  match nodeAt m cur with
  | Some Dir =>
      if String.eqb c "." then walk follow m fuel cur rest
      else if String.eqb c ".." then walk follow m fuel (removelast cur) rest
      else
        match m !! (cur ++ [c]) with
        | Some (Link a t) =>
            if negb follow && isNil rest then inr (cur ++ [c])
            else
              match fuel with
              | O => inl ELOOP
              | S f => walk follow m f (if a then [] else cur) (t ++ rest)
              end
        | _ => walk follow m fuel (cur ++ [c]) rest
        end
  | Some _ => inl ENOTDIR
  | None => inl ENOENT
  end.
Proof. destruct fuel; reflexivity. Qed.

Global Opaque walk SYMLOOP_MAX.

Lemma nodeAt_insert m l n p :
  nodeAt (<[l := n]> m) p =
  match p with
  | [] => Some Dir
  | _ => if decide (l = p) then Some n else nodeAt m p
  end.
Proof.
  destruct p as [|c p']; [reflexivity|].
  unfold nodeAt. rewrite lookup_insert. reflexivity.
Qed.

Lemma app_singleton_not_nil {A} (l : list A) (x : A) : l ++ [x] <> [].
Proof. destruct l; discriminate. Qed.

Lemma nodeAt_snoc m cur c : nodeAt m (cur ++ [c]) = m !! (cur ++ [c]).
Proof. destruct cur; reflexivity. Qed.

(** Writing a file or a directory where no directory and no link
    was keeps every successful resolution; so does creating a link
    where nothing was, for the resolutions that do not end there. *)
Lemma walk_update follow m l n :
  plainAt m l ->
  forall fuel cur rest q,
    walk follow m fuel cur rest = inr q ->
    isLinkNode n = false \/ q <> l ->
    walk follow (<[l := n]> m) fuel cur rest = inr q.
Proof.
  intros Hplain fuel.
  induction fuel as [fuel IHf] using lt_wf_ind.
  intros cur rest. revert cur.
  induction rest as [|c rest IHr]; intros cur q Hw Hq.
  - rewrite walk_nil in *. exact Hw.
  - rewrite walk_cons in *.
    destruct (nodeAt m cur) as [[d| |a t]|] eqn:Hcur; try discriminate.
    assert (Hcur' : nodeAt (<[l := n]> m) cur = Some Dir).
    { rewrite nodeAt_insert. destruct cur as [|c0 cur0]; [reflexivity|].
      destruct (decide (l = c0 :: cur0)) as [->|]; [|exact Hcur].
      unfold plainAt in Hplain. simpl in Hcur. rewrite Hcur in Hplain.
      contradiction. }
    rewrite Hcur'.
    destruct (String.eqb c "."); [eauto|].
    destruct (String.eqb c ".."); [eauto|].
    rewrite lookup_insert.
    destruct (decide (l = cur ++ [c])) as [->|Hne].
    + (* the step lands on the updated location *)
      unfold plainAt in Hplain.
      assert (Hgo : walk follow m fuel (cur ++ [c]) rest = inr q).
      { destruct (m !! (cur ++ [c])) as [[d| |a t]|]; try contradiction; exact Hw. }
      clear Hw.
      destruct n as [d| |a t]; try (apply IHr; assumption).
      destruct Hq as [Hq|Hq]; [discriminate|].
      destruct rest as [|c' rest'].
      * rewrite walk_nil in Hgo. congruence.
      * rewrite walk_cons, nodeAt_snoc in Hgo.
        destruct (m !! (cur ++ [c])) as [[d| |a' t']|]; try contradiction;
          discriminate.
    + destruct (m !! (cur ++ [c])) as [[d| |a t]|] eqn:Hp; try (apply IHr; assumption).
      destruct (negb follow && isNil rest); [exact Hw|].
      destruct fuel as [|f]; [discriminate|].
      apply IHf; [lia|exact Hw|exact Hq].
Qed.

(** What stat can resolve, lstat can resolve too, and something is
    there. *)
Lemma walk_follow_present m :
  forall fuel cur rest q,
    walk true m fuel cur rest = inr q ->
    is_Some (nodeAt m q) ->
    exists l, walk false m fuel cur rest = inr l /\ is_Some (nodeAt m l).
Proof.
  intros fuel.
  induction fuel as [fuel IHf] using lt_wf_ind.
  intros cur rest. revert cur.
  induction rest as [|c rest IHr]; intros cur q Hw Hq.
  - rewrite walk_nil in *. inversion Hw; subst. eauto.
  - rewrite walk_cons in *.
    destruct (nodeAt m cur) as [[d| |a t]|] eqn:Hcur; try discriminate.
    destruct (String.eqb c "."); [eauto|].
    destruct (String.eqb c ".."); [eauto|].
    destruct (m !! (cur ++ [c])) as [[d| |a t]|] eqn:Hp; eauto.
    simpl in *. destruct rest as [|c' rest']; simpl.
    + exists (cur ++ [c]). split; [reflexivity|].
      rewrite nodeAt_snoc, Hp. eauto.
    + destruct fuel as [|f]; [discriminate|].
      apply (IHf f) with (q := q); [lia|exact Hw|exact Hq].
Qed.

(** A resolution that does not stop at a link is also what stat
    resolves. *)
Lemma walk_nofollow_follow m :
  forall fuel cur rest l,
    walk false m fuel cur rest = inr l ->
    (forall a t, nodeAt m l <> Some (Link a t)) ->
    walk true m fuel cur rest = inr l.
Proof.
  intros fuel.
  induction fuel as [fuel IHf] using lt_wf_ind.
  intros cur rest. revert cur.
  induction rest as [|c rest IHr]; intros cur l Hw Hl.
  - rewrite walk_nil in *. exact Hw.
  - rewrite walk_cons in *.
    destruct (nodeAt m cur) as [[d| |a t]|] eqn:Hcur; try discriminate.
    destruct (String.eqb c "."); [eauto|].
    destruct (String.eqb c ".."); [eauto|].
    destruct (m !! (cur ++ [c])) as [[d| |a t]|] eqn:Hp; eauto.
    simpl in *. destruct rest as [|c' rest']; simpl in *.
    + inversion Hw; subst. exfalso. apply (Hl a t).
      rewrite nodeAt_snoc. exact Hp.
    + destruct fuel as [|f]; [discriminate|].
      apply (IHf f); [lia|exact Hw|exact Hl].
Qed.

(** Every proper prefix of a path stat resolves is resolved to a
    directory. *)
Lemma walk_prefix m :
  forall fuel cur pre suf q,
    walk true m fuel cur (pre ++ suf) = inr q ->
    suf <> [] ->
    exists qp, walk true m fuel cur pre = inr qp /\ nodeAt m qp = Some Dir.
Proof.
  intros fuel.
  induction fuel as [fuel IHf] using lt_wf_ind.
  intros cur pre. revert cur.
  induction pre as [|c pre IHr]; intros cur suf q Hw Hsuf.
  - simpl in Hw. rewrite walk_nil.
    destruct suf as [|c suf']; [contradiction|].
    rewrite walk_cons in Hw.
    destruct (nodeAt m cur) as [[d| |a t]|] eqn:Hcur; try discriminate.
    eauto.
  - simpl in Hw. rewrite walk_cons in *.
    destruct (nodeAt m cur) as [[d| |a t]|] eqn:Hcur; try discriminate.
    destruct (String.eqb c "."); [eauto|].
    destruct (String.eqb c ".."); [eauto|].
    destruct (m !! (cur ++ [c])) as [[d| |a t]|] eqn:Hp; eauto.
    simpl in *.
    destruct fuel as [|f]; [discriminate|].
    rewrite app_assoc in Hw.
    apply (IHf f) with (q := q) (suf := suf); [lia|exact Hw|exact Hsuf].
Qed.

Lemma stat_prefix m pre suf n :
  stat m (pre ++ suf) = inr n -> suf <> [] -> stat m pre = inr Dir.
Proof.
  unfold stat, realpath. intros Hs Hsuf.
  destruct (walk true m SYMLOOP_MAX [] (pre ++ suf)) as [e|q] eqn:Hw;
    [discriminate|].
  destruct (walk_prefix _ _ _ _ _ _ Hw Hsuf) as (qp & -> & ->).
  reflexivity.
Qed.

Lemma removelast_snoc {A} (l : list A) (x : A) : removelast (l ++ [x]) = l.
Proof. apply removelast_last. Qed.

Lemma mkdirFrom_noop m :
  forall todo done suf n,
    stat m (done ++ todo ++ suf) = inr n -> suf <> [] ->
    mkdirFrom m done todo = inr m.
Proof.
  induction todo as [|c todo IH]; intros done suf n Hs Hsuf; [reflexivity|].
  simpl. unfold mkdirStep.
  assert (Hc : stat m (done ++ [c]) = inr Dir).
  { apply stat_prefix with (suf := todo ++ suf) (n := n).
    - rewrite <- app_assoc. exact Hs.
    - destruct todo; [exact Hsuf|discriminate]. }
  rewrite Hc. apply IH with (suf := suf) (n := n); [|exact Hsuf].
  rewrite <- app_assoc. exact Hs.
Qed.

(** mkdir -p of the parent of something that exists changes nothing. *)
Lemma mkdir_parent_noop m dest n :
  stat m dest = inr n -> mkdir m (dirname dest) = inr m.
Proof.
  intros Hs. unfold mkdir, dirname.
  destruct dest as [|b d _] using rev_ind; [reflexivity|].
  rewrite removelast_snoc.
  apply mkdirFrom_noop with (suf := [b]) (n := n); [exact Hs|discriminate].
Qed.

(** Nothing can be linked where stat finds something. *)
Lemma symlink_exists m target dest n :
  stat m dest = inr n -> exists e, symlink m target dest = inl e.
Proof.
  unfold stat, symlink, realpath, linkpath. intros Hs.
  destruct (isNil target); [eauto|].
  destruct (walk true m SYMLOOP_MAX [] dest) as [e|q] eqn:Hw; [discriminate|].
  destruct (nodeAt m q) as [n'|] eqn:Hq; [|discriminate].
  destruct (walk_follow_present _ _ _ _ _ Hw) as (l & -> & [n'' ->]);
    [rewrite Hq; eauto|].
  eauto.
Qed.

Lemma readFile_stat m p d : readFile m p = inr d -> stat m p = inr (File d).
Proof.
  unfold readFile, stat. destruct (realpath m p) as [e|q]; [discriminate|].
  destruct (nodeAt m q) as [[d'| |a t]|]; try discriminate. congruence.
Qed.

Lemma realpath_update m l n p q :
  plainAt m l -> realpath m p = inr q -> isLinkNode n = false ->
  realpath (<[l := n]> m) p = inr q.
Proof.
  unfold realpath. intros Hp Hw Hn. apply walk_update; auto.
Qed.

Lemma nodeAt_not_root m q : nodeAt m q = None -> q <> [].
Proof. destruct q; [discriminate|discriminate]. Qed.

(** What writeFile writes can be read back through the same path, and
    every other file reads as before. *)
Lemma writeFile_spec m p data m' :
  writeFile m p data = inr m' ->
  exists q, realpath m p = inr q /\ q <> [] /\ plainAt m q /\
            m' = <[q := File data]> m.
Proof.
  unfold writeFile. destruct (realpath m p) as [e|q] eqn:Hw; [discriminate|].
  intros H. exists q. split; [reflexivity|].
  destruct q as [|c q']; [discriminate|].
  split; [discriminate|].
  unfold plainAt. change (nodeAt m (c :: q')) with (m !! (c :: q')) in H.
  destruct (m !! (c :: q')) as [[d| |a t]|] eqn:Hq; try discriminate.
  - split; [exact I|congruence].
  - split; [exact I|].
    destruct (nodeAt m (removelast (c :: q'))) as [[d| |a t]|]; try discriminate.
    congruence.
Qed.


Lemma writeFile_read m p data m' :
  writeFile m p data = inr m' -> readFile m' p = inr data.
Proof.
  intros H. destruct (writeFile_spec _ _ _ _ H) as (q & Hw & Hq & Hp & ->).
  unfold readFile. rewrite (realpath_update m q (File data) p q Hp Hw eq_refl).
  rewrite nodeAt_insert. destruct q; [contradiction|].
  rewrite decide_True; reflexivity.
Qed.

Lemma extends_refl m : extends m m.
Proof. split; auto. Qed.

Lemma extends_trans m1 m2 m3 : extends m1 m2 -> extends m2 m3 -> extends m1 m3.
Proof.
  intros [A1 B1] [A2 B2]. split.
  - intros p q H. apply A2, A1, H.
  - intros q n H. apply B2, B1, H.
Qed.

Lemma extends_stat m m' p n : extends m m' -> stat m p = inr n -> stat m' p = inr n.
Proof.
  intros [A B]. unfold stat.
  destruct (realpath m p) as [e|q] eqn:Hw; [discriminate|].
  rewrite (A _ _ Hw).
  destruct (nodeAt m q) as [n'|] eqn:Hq; [|discriminate].
  rewrite (B _ _ Hq). auto.
Qed.

Lemma extends_readFile m m' p d :
  extends m m' -> readFile m p = inr d -> readFile m' p = inr d.
Proof.
  intros [A B]. unfold readFile.
  destruct (realpath m p) as [e|q] eqn:Hw; [discriminate|].
  rewrite (A _ _ Hw).
  destruct (nodeAt m q) as [n'|] eqn:Hq; [|discriminate].
  rewrite (B _ _ Hq). auto.
Qed.

Lemma plainAt_free m l : nodeAt m l = None -> plainAt m l.
Proof.
  unfold plainAt. destruct l; [discriminate|]. simpl. intros ->. exact I.
Qed.

Lemma extends_insert_dir m l : nodeAt m l = None -> extends m (<[l := Dir]> m).
Proof.
  intros Hl. split.
  - intros p q Hw. apply realpath_update; auto using plainAt_free.
  - intros q n Hq. rewrite nodeAt_insert.
    destruct q as [|c q']; [exact Hq|].
    destruct (decide (l = c :: q')) as [->|]; [congruence|exact Hq].
Qed.

Lemma mkdirStep_spec final m p m' :
  mkdirStep final m p = inr m' -> extends m m' /\ stat m' p = inr Dir.
Proof.
  unfold mkdirStep.
  destruct (stat m p) as [e|[d| |a t]] eqn:Hs; try discriminate.
  - destruct (linkpath m p) as [e'|l] eqn:Hl; [discriminate|].
    destruct (nodeAt m l) as [n|] eqn:Hn; [discriminate|].
    intros H. inversion H; subst m'; clear H.
    split; [apply extends_insert_dir; exact Hn|].
    assert (Hl' : linkpath (<[l := Dir]> m) p = inr l).
    { unfold linkpath in *. apply walk_update; auto using plainAt_free. }
    assert (Hnode : nodeAt (<[l := Dir]> m) l = Some Dir).
    { rewrite nodeAt_insert. destruct l; [reflexivity|].
      rewrite decide_True; reflexivity. }
    unfold stat, realpath. unfold linkpath in Hl'.
    rewrite (walk_nofollow_follow _ _ _ _ _ Hl'); [rewrite Hnode; reflexivity|].
    intros a t. rewrite Hnode. discriminate.
  - intros H. inversion H; subst. split; [apply extends_refl|exact Hs].
Qed.

Lemma mkdirFrom_extends :
  forall todo done m m', mkdirFrom m done todo = inr m' -> extends m m'.
Proof.
  induction todo as [|c todo IH]; intros done m m' H; simpl in H.
  - inversion H. apply extends_refl.
  - destruct (mkdirStep (isNil todo) m (done ++ [c])) as [e|m1] eqn:Hstep;
      [discriminate|].
    apply mkdirStep_spec in Hstep as [He _].
    eapply extends_trans; [exact He|]. eapply IH; exact H.
Qed.

Lemma mkdirFrom_dir :
  forall todo done m m',
    todo <> [] -> mkdirFrom m done todo = inr m' ->
    stat m' (done ++ todo) = inr Dir.
Proof.
  induction todo as [|c todo IH]; intros done m m' Hne H; [contradiction|].
  simpl in H.
  destruct (mkdirStep (isNil todo) m (done ++ [c])) as [e|m1] eqn:Hstep;
    [discriminate|].
  apply mkdirStep_spec in Hstep as [_ Hdir].
  destruct todo as [|c' todo'].
  - simpl in H. inversion H; subst. exact Hdir.
  - replace (done ++ c :: c' :: todo') with ((done ++ [c]) ++ c' :: todo')
      by (rewrite <- app_assoc; reflexivity).
    eapply IH; [discriminate|exact H].
Qed.

Lemma stat_root m : stat m [] = inr Dir.
Proof. unfold stat, realpath. rewrite walk_nil. reflexivity. Qed.

(** mkdir -p: the directory exists afterwards, and nothing that was
    there is lost. *)
Lemma mkdir_spec m p m' :
  mkdir m p = inr m' -> extends m m' /\ stat m' p = inr Dir.
Proof.
  unfold mkdir. intros H. split; [eapply mkdirFrom_extends; exact H|].
  destruct p as [|c p'].
  - apply stat_root.
  - apply (mkdirFrom_dir (c :: p') [] m m'); [discriminate|exact H].
Qed.

(** Writing a file keeps the directories. *)
Lemma writeFile_stat_dir m p data m' d :
  writeFile m p data = inr m' -> stat m d = inr Dir -> stat m' d = inr Dir.
Proof.
  intros H Hd. destruct (writeFile_spec _ _ _ _ H) as (q & Hw & Hq & Hp & ->).
  unfold stat in *.
  destruct (realpath m d) as [e|qd] eqn:Hwd; [discriminate|].
  rewrite (realpath_update m q (File data) d qd Hp Hwd eq_refl).
  rewrite nodeAt_insert. destruct qd as [|c qd']; [reflexivity|].
  destruct (decide (q = c :: qd')) as [->|]; [|exact Hd].
  unfold plainAt in Hp. simpl in Hd.
  destruct (m !! (c :: qd')) as [[?| |? ?]|]; try contradiction; discriminate.
Qed.

(** * Properties of the filesystem primitives *)

Lemma tree_of_setTree m w : tree_of (setTree m w) = m.
Proof. reflexivity. Qed.

Lemma setTree_same w : setTree (tree_of w) w = w.
Proof. destruct w as [[? ? ? ?] ? ? ? ?]. reflexivity. Qed.

Lemma pathExists_run p w :
  pathExists p w = (w, inr (succeeds (stat (tree_of w) p))).
Proof.
  unfold pathExists, tryCatch, bind, fsRead, ret.
  destruct (stat (tree_of w) p); reflexivity.
Qed.

Lemma ensureDirectoryExists_run dirPath w :
  ensureDirectoryExists dirPath w =
  match mkdir (tree_of w) dirPath with
  | inr m => (setTree m w, inr tt)
  | inl EEXIST => (w, inr tt)
  | inl _ => (w, inl (directoryError dirPath))
  end.
Proof.
  unfold ensureDirectoryExists, tryCatch, fsWrite.
  destruct (mkdir (tree_of w) dirPath) as [[]|m]; reflexivity.
Qed.

Lemma ensureDirectoryExists_existing dest n w :
  stat (tree_of w) dest = inr n ->
  ensureDirectoryExists (dirname dest) w = (w, inr tt).
Proof.
  intros H. rewrite ensureDirectoryExists_run, (mkdir_parent_noop _ _ _ H).
  rewrite setTree_same. reflexivity.
Qed.

Lemma copyFile_skip_existing src dest w n :
  stat (tree_of w) dest = inr n ->
  copyFile src dest false w = (w, inr untouched).
Proof.
  intros H. unfold copyFile, bind. rewrite pathExists_run, H. reflexivity.
Qed.

Lemma copyFile_skip_identical src dest w a :
  readFile (tree_of w) src = inr a ->
  readFile (tree_of w) dest = inr a ->
  copyFile src dest true w = (w, inr untouched).
Proof.
  intros Hs Hd. unfold copyFile, bind.
  rewrite pathExists_run, (readFile_stat _ _ _ Hd). simpl.
  unfold fsRead. rewrite Hs, Hd, String.eqb_refl. reflexivity.
Qed.

Lemma copyFile_overwrite src dest w a b :
  readFile (tree_of w) src = inr a ->
  readFile (tree_of w) dest = inr b ->
  a <> b ->
  exists m', fsCopyFile (tree_of w) src dest = inr m' /\
             copyFile src dest true w = (setTree m' w, inr refreshed) /\
             readFile m' dest = inr a.
Proof.
  intros Hs Hd Hne.
  assert (Hst := readFile_stat _ _ _ Hd).
  assert (Hw : exists m', writeFile (tree_of w) dest a = inr m').
  { unfold writeFile. unfold readFile in Hd.
    destruct (realpath (tree_of w) dest) as [e|q]; [discriminate|].
    destruct (nodeAt (tree_of w) q) as [[d| |x t]|]; try discriminate. eauto. }
  destruct Hw as [m' Hw]. exists m'.
  assert (Hc : fsCopyFile (tree_of w) src dest = inr m').
  { unfold fsCopyFile. rewrite Hs. exact Hw. }
  split; [exact Hc|]. split; [|eapply writeFile_read; exact Hw].
  unfold copyFile, bind. rewrite pathExists_run, Hst. simpl.
  unfold fsRead. rewrite Hs, Hd.
  destruct (String.eqb_spec a b) as [|_]; [contradiction|].
  rewrite (ensureDirectoryExists_existing _ _ _ Hst).
  unfold fsWrite. rewrite Hc. reflexivity.
Qed.

Lemma copyFile_create src dest overwrite w e m1 m2 :
  stat (tree_of w) dest = inl e ->
  mkdir (tree_of w) (dirname dest) = inr m1 ->
  fsCopyFile m1 src dest = inr m2 ->
  copyFile src dest overwrite w = (setTree m2 w, inr copied) /\
  stat m2 (dirname dest) = inr Dir /\
  (forall a, readFile (tree_of w) src = inr a -> readFile m2 dest = inr a).
Proof.
  intros Hst Hmk Hcp.
  destruct (mkdir_spec _ _ _ Hmk) as [Hext Hdir].
  split; [|split].
  - unfold copyFile, bind. rewrite pathExists_run, Hst. simpl.
    rewrite ensureDirectoryExists_run, Hmk.
    unfold fsWrite. rewrite tree_of_setTree, Hcp. reflexivity.
  - unfold fsCopyFile in Hcp.
    destruct (readFile m1 src) as [?|d]; [discriminate|].
    eapply writeFile_stat_dir; eauto.
  - intros a Ha. unfold fsCopyFile in Hcp.
    rewrite (extends_readFile _ _ _ _ Hext Ha) in Hcp.
    eapply writeFile_read; exact Hcp.
Qed.

Lemma mkdirFrom_existing m :
  forall todo done,
    stat m (done ++ todo) = inr Dir -> mkdirFrom m done todo = inr m.
Proof.
  induction todo as [|c todo IH]; intros done Hs; [reflexivity|].
  simpl. unfold mkdirStep.
  assert (Hc : stat m (done ++ [c]) = inr Dir).
  { destruct todo as [|c' todo']; [exact Hs|].
    apply stat_prefix with (suf := c' :: todo') (n := Dir); [|discriminate].
    rewrite <- app_assoc. exact Hs. }
  rewrite Hc. apply IH. rewrite <- app_assoc. exact Hs.
Qed.

Lemma writeFile_fresh m dest l data :
  freeEntry m dest l ->
  writeFile m dest data = inr (<[l := File data]> m) /\
  stat m dest = inl ENOENT.
Proof.
  intros (Hl & Hfree & Hdir). unfold linkpath in Hl.
  assert (Hr : realpath m dest = inr l).
  { apply walk_nofollow_follow; [exact Hl|].
    intros a t. rewrite Hfree. discriminate. }
  unfold writeFile, stat. unfold dirname in Hdir.
  rewrite Hr, Hfree, Hdir. split; reflexivity.
Qed.

(** An absent destination in an existing directory: the copy cannot
    fail. *)
Lemma copyFile_create_fresh src dest overwrite w a l :
  readFile (tree_of w) src = inr a ->
  stat (tree_of w) (dirname dest) = inr Dir ->
  freeEntry (tree_of w) dest l ->
  copyFile src dest overwrite w
    = (setTree (<[l := File a]> (tree_of w)) w, inr copied).
Proof.
  intros Hs Hd Hfree.
  destruct (writeFile_fresh _ _ _ a Hfree) as [Hw Hst].
  apply (copyFile_create src dest overwrite w ENOENT (tree_of w)).
  - exact Hst.
  - unfold mkdir. apply (mkdirFrom_existing _ (dirname dest) []). exact Hd.
  - unfold fsCopyFile. rewrite Hs. exact Hw.
Qed.

(** C1: copyFile(src, dest, overwrite).  An existing destination with
    overwrite=false is left alone and both flags are false; an existing
    destination with overwrite=true and the same bytes as the source is
    left alone and both flags are false; with different bytes it is
    overwritten (it then reads as the source) and updated is true; an
    absent destination gets its parent directories made, the source
    copied, and created is true, which cannot fail when the destination
    is a free entry of an existing directory and the source is a file. *)
Theorem copyFile_contract (src dest : path) (overwrite : bool) (w : world) :
  (forall n,
      stat (tree_of w) dest = inr n -> overwrite = false ->
      copyFile src dest overwrite w = (w, inr untouched)) /\
  (forall a,
      overwrite = true ->
      readFile (tree_of w) src = inr a -> readFile (tree_of w) dest = inr a ->
      copyFile src dest overwrite w = (w, inr untouched)) /\
  (forall a b,
      overwrite = true ->
      readFile (tree_of w) src = inr a -> readFile (tree_of w) dest = inr b ->
      a <> b ->
      exists m', fsCopyFile (tree_of w) src dest = inr m' /\
                 copyFile src dest overwrite w = (setTree m' w, inr refreshed) /\
                 readFile m' dest = inr a) /\
  (forall e m1 m2,
      stat (tree_of w) dest = inl e ->
      mkdir (tree_of w) (dirname dest) = inr m1 ->
      fsCopyFile m1 src dest = inr m2 ->
      copyFile src dest overwrite w = (setTree m2 w, inr copied) /\
      stat m2 (dirname dest) = inr Dir /\
      (forall a, readFile (tree_of w) src = inr a -> readFile m2 dest = inr a)) /\
  (forall a l,
      readFile (tree_of w) src = inr a ->
      stat (tree_of w) (dirname dest) = inr Dir ->
      freeEntry (tree_of w) dest l ->
      copyFile src dest overwrite w
        = (setTree (<[l := File a]> (tree_of w)) w, inr copied)).
Proof.
  split; [|split; [|split; [|split]]].
  - intros n Hn ->. eapply copyFile_skip_existing; exact Hn.
  - intros a -> Hs Hd. eapply copyFile_skip_identical; eassumption.
  - intros a b -> Hs Hd Hne. eapply copyFile_overwrite; eassumption.
  - intros e m1 m2 Hst Hmk Hcp. eapply copyFile_create; eassumption.
  - intros a l Hs Hd Hfree. apply copyFile_create_fresh; assumption.
Qed.

Lemma succeeds_treeOr (r : errno + tree) :
  succeeds r = true -> r = inr (treeOr r).
Proof. destruct r; [discriminate|reflexivity]. Qed.

Lemma copyFile_contract_witness :
  copyFile ["shared"; "a.md"] ["proj"; "old.md"] false exampleWorld
    = (exampleWorld, inr untouched) /\
  copyFile ["shared"; "a.md"] ["proj"; "same.md"] true exampleWorld
    = (exampleWorld, inr untouched) /\
  (exists m', copyFile ["shared"; "a.md"] ["proj"; "old.md"] true exampleWorld
                = (setTree m' exampleWorld, inr refreshed) /\
              readFile m' ["proj"; "old.md"] = inr "X") /\
  (exists m', copyFile ["shared"; "a.md"] ["proj"; "n"; "out.md"] true exampleWorld
                = (setTree m' exampleWorld, inr copied) /\
              stat m' ["proj"; "n"] = inr Dir /\
              readFile m' ["proj"; "n"; "out.md"] = inr "X") /\
  copyFile ["shared"; "a.md"] ["proj"; "new.md"] false exampleWorld
    = (setTree (<[ ["proj"; "new.md"] := File "X" ]> exampleTree) exampleWorld,
       inr copied).
Proof.
  split; [|split; [|split; [|split]]].
  - apply (proj1 (copyFile_contract ["shared"; "a.md"] ["proj"; "old.md"] false
                    exampleWorld) (File "Y")); vm_compute; reflexivity.
  - apply (proj1 (proj2 (copyFile_contract ["shared"; "a.md"] ["proj"; "same.md"]
                           true exampleWorld)) "X"); vm_compute; reflexivity.
  - destruct (proj1 (proj2 (proj2 (copyFile_contract ["shared"; "a.md"]
                ["proj"; "old.md"] true exampleWorld))) "X" "Y")
      as (m' & _ & Hrun & Hread);
      [reflexivity | vm_compute; reflexivity | vm_compute; reflexivity
      | discriminate | ].
    exists m'. split; assumption.
  - destruct (proj1 (proj2 (proj2 (proj2 (copyFile_contract ["shared"; "a.md"]
                ["proj"; "n"; "out.md"] true exampleWorld)))) ENOENT
                (treeOr (mkdir exampleTree ["proj"; "n"]))
                (treeOr (fsCopyFile (treeOr (mkdir exampleTree ["proj"; "n"]))
                           ["shared"; "a.md"] ["proj"; "n"; "out.md"])))
      as (Hrun & Hdir & Hread);
      [vm_compute; reflexivity
      | apply succeeds_treeOr; vm_compute; reflexivity .. |].
    eexists. split; [exact Hrun|]. split; [exact Hdir|].
    apply Hread. vm_compute. reflexivity.
  - apply (proj2 (proj2 (proj2 (proj2 (copyFile_contract ["shared"; "a.md"]
                ["proj"; "new.md"] false exampleWorld)))) "X" ["proj"; "new.md"]).
    + vm_compute. reflexivity.
    + vm_compute. reflexivity.
    + repeat split; vm_compute; reflexivity.
Defined.

Lemma fsSymlink_run target dest ty w :
  fsSymlink target dest ty w =
  match linkAttempt (machine w) target dest with
  | inr m => (setTree m w, inr tt)
  | inl c => (w, inl (symlinkError c target dest))
  end.
Proof.
  unfold fsSymlink, linkAttempt, fsWrite, tree_of, symlinkError.
  destruct (symlinkRefusal (machine w)); [reflexivity|].
  destruct (symlink (files (machine w)) target dest); reflexivity.
Qed.

(** When the link cannot be made, symlinkOrCopy is its catch block. *)
Lemma symlinkOrCopy_fallback src dest overwrite isDir w w1 c :
  succeeds (stat (tree_of w) dest) && negb overwrite = false ->
  ensureDirectoryExists (dirname dest) w = (w1, inr tt) ->
  linkAttempt (machine w1) (relative (dirname dest) src) dest = inl c ->
  symlinkOrCopy src dest overwrite isDir w =
  copyFallback src dest overwrite isDir (succeeds (stat (tree_of w) dest))
    (symlinkError c (relative (dirname dest) src) dest) w1.
Proof.
  intros Hgo Hdir Hlink. unfold symlinkOrCopy.
  unfold bind at 1. rewrite pathExists_run, Hgo.
  unfold bind at 1. rewrite Hdir.
  unfold tryCatch at 1, bind at 1, currentPlatform.
  unfold bind at 1. rewrite fsSymlink_run, Hlink. reflexivity.
Qed.

Lemma copyFallback_run src dest overwrite isDir exists_ error w :
  copyFallback src dest overwrite isDir exists_ error w =
  let warned :=
    setOutput (output w ++
                 [(ConsoleWarn,
                   "Symlink failed (" +:+ codeText error
                     +:+ "), falling back to copy: " +:+ showPath dest)]) w in
  if isDir then
    match copyDirectory src dest overwrite warned with
    | (w2, inr result) =>
        (w2, inr {| LinkResult.created :=
                      (0 <? DirResult.created result) && negb exists_;
                    LinkResult.updated :=
                      (0 <? DirResult.created result) && exists_;
                    LinkResult.usedSymlink := false |})
    | (w2, inl _) => (w2, inl (bothFailed dest))
    end
  else
    match copyFile src dest overwrite warned with
    | (w2, inr result) =>
        (w2, inr {| LinkResult.created := CopyResult.created result;
                    LinkResult.updated := CopyResult.updated result;
                    LinkResult.usedSymlink := false |})
    | (w2, inl _) => (w2, inl (bothFailed dest))
    end.
Proof.
  unfold copyFallback, bind at 1, emit. cbv zeta.
  unfold tryCatch, bind, ret, throw, bothFailed.
  destruct isDir.
  - destruct (copyDirectory src dest overwrite _) as [w2 [e|r]]; reflexivity.
  - destruct (copyFile src dest overwrite _) as [w2 [e|r]]; reflexivity.
Qed.

Lemma run_unit (c : M unit) (w : world) :
  succeeds (c w).2 = true -> c w = ((c w).1, inr tt).
Proof. destruct (c w) as [w' [e|[]]]; [discriminate|reflexivity]. Qed.

(** ** Effects that compose *)

Section Keeps.

Variable R : world -> world -> Prop.
Hypothesis R_refl : forall w, R w w.
Hypothesis R_trans : forall w1 w2 w3, R w1 w2 -> R w2 w3 -> R w1 w3.

Lemma keeps_ret {A} (a : A) : keeps R (ret a).
Proof using R_refl. intros w w' r H. inversion H; subst. apply R_refl. Qed.

Lemma keeps_throw {A} (e : jsError) : keeps R (@throw A e).
Proof using R_refl. intros w w' r H. inversion H; subst. apply R_refl. Qed.

Lemma keeps_bind {A B} (c : M A) (k : A -> M B) :
  keeps R c -> (forall a, keeps R (k a)) -> keeps R (bind c k).
Proof using R_trans.
  intros Hc Hk w w' r H. unfold bind in H.
  destruct (c w) as [w1 [e|a]] eqn:Hcw.
  - inversion H; subst. eapply Hc; exact Hcw.
  - eapply R_trans; [eapply Hc; exact Hcw|eapply Hk; exact H].
Qed.

Lemma keeps_tryCatch {A} (c : M A) (h : jsError -> M A) :
  keeps R c -> (forall e, keeps R (h e)) -> keeps R (tryCatch c h).
Proof using R_trans.
  intros Hc Hh w w' r H. unfold tryCatch in H.
  destruct (c w) as [w1 [e|a]] eqn:Hcw.
  - eapply R_trans; [eapply Hc; exact Hcw|eapply Hh; exact H].
  - inversion H; subst. eapply Hc; exact Hcw.
Qed.

Lemma keeps_fsRead {A} (sc what : string) (f : tree -> errno + A) :
  keeps R (fsRead sc what f).
Proof using R_refl.
  intros w w' r H. unfold fsRead in H.
  destruct (f (tree_of w)); inversion H; subst; apply R_refl.
Qed.

Lemma keeps_if {A} (b : bool) (c1 c2 : M A) :
  keeps R c1 -> keeps R c2 -> keeps R (if b then c1 else c2).
Proof. destruct b; auto. Qed.

End Keeps.

Lemma noNewLinks_refl m : noNewLinks m m.
Proof. intros p a t H. exact H. Qed.

Lemma noNewLinks_trans m1 m2 m3 :
  noNewLinks m1 m2 -> noNewLinks m2 m3 -> noNewLinks m1 m3.
Proof. intros H1 H2 p a t H. apply H1, H2, H. Qed.

Lemma noNewLinks_insert m l n :
  isLinkNode n = false -> noNewLinks m (<[l := n]> m).
Proof.
  intros Hn p a t. rewrite lookup_insert.
  destruct (decide (l = p)); [|auto].
  intros H. inversion H; subst. discriminate.
Qed.

Lemma mkdirFrom_noNewLinks :
  forall todo done m m', mkdirFrom m done todo = inr m' -> noNewLinks m m'.
Proof.
  induction todo as [|c todo IH]; intros done m m' H; simpl in H.
  - inversion H. apply noNewLinks_refl.
  - destruct (mkdirStep (isNil todo) m (done ++ [c])) as [e|m1] eqn:Hstep;
      [discriminate|].
    eapply noNewLinks_trans; [|eapply IH; exact H].
    unfold mkdirStep in Hstep.
    destruct (stat m (done ++ [c])) as [e|[d| |a t]]; try discriminate.
    + destruct (linkpath m (done ++ [c])) as [e'|l]; [discriminate|].
      destruct (nodeAt m l); [discriminate|].
      inversion Hstep. apply noNewLinks_insert. reflexivity.
    + inversion Hstep. apply noNewLinks_refl.
Qed.

Lemma linkFree_refl w : linkFree w w.
Proof. apply noNewLinks_refl. Qed.

Lemma linkFree_trans w1 w2 w3 : linkFree w1 w2 -> linkFree w2 w3 -> linkFree w1 w3.
Proof. apply noNewLinks_trans. Qed.

Lemma linkFree_emit ch msg : keeps linkFree (emit ch msg).
Proof. intros w w' r H. inversion H; subst. apply noNewLinks_refl. Qed.

Lemma copyOnly_refl w : copyOnly w w.
Proof. split; [symmetry; apply setTree_same|apply noNewLinks_refl]. Qed.

Lemma copyOnly_trans w1 w2 w3 : copyOnly w1 w2 -> copyOnly w2 w3 -> copyOnly w1 w3.
Proof.
  intros [E1 L1] [E2 L2]. split; [|eapply noNewLinks_trans; eassumption].
  rewrite E2 at 1. rewrite E1. reflexivity.
Qed.

Lemma copyOnly_setTree m w :
  noNewLinks (tree_of w) m -> copyOnly w (setTree m w).
Proof. intros H. split; [reflexivity|exact H]. Qed.

Lemma copyOnly_linkFree w w' : copyOnly w w' -> linkFree w w'.
Proof. intros [_ H]. exact H. Qed.

Lemma copyOnly_output w w' : copyOnly w w' -> output w' = output w.
Proof. intros [-> _]. reflexivity. Qed.

Lemma keeps_weaken {A} (R R' : world -> world -> Prop) (c : M A) :
  (forall w w', R w w' -> R' w w') -> keeps R c -> keeps R' c.
Proof. intros HR Hc w w' r H. eapply HR, Hc, H. Qed.

Lemma copyOnly_pathExists p : keeps copyOnly (pathExists p).
Proof.
  intros w w' r H. rewrite pathExists_run in H. inversion H; subst.
  apply copyOnly_refl.
Qed.

Lemma copyOnly_ensureDirectoryExists d : keeps copyOnly (ensureDirectoryExists d).
Proof.
  intros w w' r H. rewrite ensureDirectoryExists_run in H.
  destruct (mkdir (tree_of w) d) as [c|m] eqn:Hm.
  - destruct c; inversion H; subst; apply copyOnly_refl.
  - inversion H; subst. apply copyOnly_setTree.
    eapply mkdirFrom_noNewLinks; exact Hm.
Qed.

Lemma copyOnly_copyWrite src dest :
  keeps copyOnly
    (fsWrite "copyfile" (twoPaths (showPath src) (showPath dest))
       (fun m => fsCopyFile m src dest)).
Proof.
  intros w w' r H. unfold fsWrite in H.
  destruct (fsCopyFile (tree_of w) src dest) as [c|m] eqn:Hc.
  - inversion H; subst. apply copyOnly_refl.
  - inversion H; subst. apply copyOnly_setTree.
    unfold fsCopyFile in Hc. destruct (readFile (tree_of w) src); [discriminate|].
    destruct (writeFile_spec _ _ _ _ Hc) as (q & _ & _ & _ & ->).
    apply noNewLinks_insert. reflexivity.
Qed.

(** copyFile and copyDirectory change nothing but the tree, and add no
    link to it. *)
Lemma copyOnly_copyFile src dest overwrite : keeps copyOnly (copyFile src dest overwrite).
Proof.
  unfold copyFile.
  apply keeps_bind; [apply copyOnly_trans|apply copyOnly_pathExists|].
  intros exists_.
  assert (Hcopy : keeps copyOnly
            (ensureDirectoryExists (dirname dest);;
             fsWrite "copyfile" (twoPaths (showPath src) (showPath dest))
               (fun m => fsCopyFile m src dest);;
             if exists_ && overwrite then
               ret {| CopyResult.created := false; CopyResult.updated := true |}
             else
               ret {| CopyResult.created := true; CopyResult.updated := false |})).
  { apply keeps_bind; [apply copyOnly_trans|apply copyOnly_ensureDirectoryExists|].
    intros _. apply keeps_bind; [apply copyOnly_trans|apply copyOnly_copyWrite|].
    intros _. apply keeps_if; apply keeps_ret, copyOnly_refl. }
  apply keeps_if; [apply keeps_ret, copyOnly_refl|].
  apply keeps_if; [|exact Hcopy].
  apply keeps_bind; [apply copyOnly_trans|apply keeps_fsRead, copyOnly_refl|].
  intros a. apply keeps_bind; [apply copyOnly_trans|apply keeps_fsRead, copyOnly_refl|].
  intros b. apply keeps_if; [apply keeps_ret, copyOnly_refl|exact Hcopy].
Qed.

Lemma copyOnly_copyEntries recurse srcDir destDir overwrite :
  (forall s d, keeps copyOnly (recurse s d)) ->
  forall entries created skipped,
    keeps copyOnly
      (copyEntries recurse srcDir destDir overwrite entries created skipped).
Proof.
  intros Hrec. induction entries as [|[name entry] entries IH];
    intros created skipped; simpl.
  - apply keeps_ret, copyOnly_refl.
  - apply keeps_if; [|apply keeps_if].
    + apply keeps_bind; [apply copyOnly_trans|apply Hrec|]. intros r. apply IH.
    + apply keeps_bind; [apply copyOnly_trans|apply copyOnly_copyFile|].
      intros r. apply keeps_if; apply IH.
    + apply IH.
Qed.

Lemma copyOnly_copyDirectoryAt overwrite :
  forall depth srcDir destDir,
    keeps copyOnly (copyDirectoryAt depth srcDir destDir overwrite).
Proof.
  induction depth as [|depth IH]; intros srcDir destDir; simpl.
  - apply keeps_throw, copyOnly_refl.
  - apply keeps_bind; [apply copyOnly_trans|apply copyOnly_ensureDirectoryExists|].
    intros _. apply keeps_bind; [apply copyOnly_trans|apply keeps_fsRead, copyOnly_refl|].
    intros entries. apply copyOnly_copyEntries. intros s d. apply IH.
Qed.

Lemma linkFree_copyFallback src dest overwrite isDir exists_ error :
  keeps linkFree (copyFallback src dest overwrite isDir exists_ error).
Proof.
  unfold copyFallback.
  apply keeps_bind; [apply linkFree_trans|apply linkFree_emit|]. intros _.
  apply keeps_tryCatch;
    [apply linkFree_trans| |intros e; apply keeps_throw, linkFree_refl].
  apply keeps_if.
  - apply keeps_bind; [apply linkFree_trans| |intros r; apply keeps_ret, linkFree_refl].
    apply (keeps_weaken copyOnly); [apply copyOnly_linkFree|].
    apply copyOnly_copyDirectoryAt.
  - apply keeps_bind; [apply linkFree_trans| |intros r; apply keeps_ret, linkFree_refl].
    apply (keeps_weaken copyOnly); [apply copyOnly_linkFree|].
    apply copyOnly_copyFile.
Qed.

(** The warning is the one line the catch block writes. *)
Lemma copyFallback_output src dest overwrite isDir exists_ c target w w' r :
  copyFallback src dest overwrite isDir exists_ (symlinkError c target dest) w
    = (w', r) ->
  output w' = output w ++ [symlinkWarning c dest].
Proof.
  rewrite copyFallback_run. cbv zeta. destruct isDir.
  - destruct (copyDirectory src dest overwrite _) as [w2 res] eqn:Hc.
    apply copyOnly_copyDirectoryAt, copyOnly_output in Hc.
    destruct res; intros H; inversion H; subst; exact Hc.
  - destruct (copyFile src dest overwrite _) as [w2 res] eqn:Hc.
    apply copyOnly_copyFile, copyOnly_output in Hc.
    destruct res; intros H; inversion H; subst; exact Hc.
Qed.

Lemma linkAttempt_exists o target dest n :
  stat (files o) dest = inr n -> exists c, linkAttempt o target dest = inl c.
Proof.
  intros H. unfold linkAttempt. destruct (symlinkRefusal o); [eauto|].
  eapply symlink_exists; exact H.
Qed.

Lemma copyFallback_not_symlink src dest overwrite isDir exists_ error w w' r :
  copyFallback src dest overwrite isDir exists_ error w = (w', inr r) ->
  LinkResult.usedSymlink r = false.
Proof.
  rewrite copyFallback_run. cbv zeta. destruct isDir.
  - destruct (copyDirectory _ _ _ _) as [w2 [e|res]]; intros H; inversion H.
    reflexivity.
  - destruct (copyFile _ _ _ _) as [w2 [e|res]]; intros H; inversion H.
    reflexivity.
Qed.

(** C2: whenever the symbolic link cannot be created, for whatever
    code, symlinkOrCopy logs a warning naming the code and the
    destination (the one line it writes), runs copyFile (files) or
    copyDirectory (directories) with the same overwrite flag, and
    returns usedSymlink=false with the created/updated outcome of that
    copy; if the copy throws too, it throws a FileOperationError whose
    message names the destination. *)
Theorem symlinkOrCopy_falls_back (src dest : path) (overwrite isDir : bool)
  (w w1 : world) (c : errno) :
  succeeds (stat (tree_of w) dest) && negb overwrite = false ->
  ensureDirectoryExists (dirname dest) w = (w1, inr tt) ->
  linkAttempt (machine w1) (relative (dirname dest) src) dest = inl c ->
  let exists_ := succeeds (stat (tree_of w) dest) in
  let warned := setOutput (output w1 ++ [symlinkWarning c dest]) w1 in
  output (symlinkOrCopy src dest overwrite isDir w).1
    = output w1 ++ [symlinkWarning c dest] /\
  symlinkOrCopy src dest overwrite isDir w =
  if isDir then
    match copyDirectory src dest overwrite warned with
    | (w2, inr result) =>
        (w2, inr (fallenBack ((0 <? DirResult.created result) && negb exists_)
                             ((0 <? DirResult.created result) && exists_)))
    | (w2, inl _) =>
        (w2, inl (FileOperationError
                    ("Both symlink and copy operations failed for: "
                       +:+ showPath dest)
                    (showPath dest) "symlink or copy"))
    end
  else
    match copyFile src dest overwrite warned with
    | (w2, inr result) =>
        (w2, inr (fallenBack (CopyResult.created result)
                             (CopyResult.updated result)))
    | (w2, inl _) =>
        (w2, inl (FileOperationError
                    ("Both symlink and copy operations failed for: "
                       +:+ showPath dest)
                    (showPath dest) "symlink or copy"))
    end.
Proof.
  intros Hgo Hdir Hlink exists_ warned.
  rewrite (symlinkOrCopy_fallback _ _ _ _ _ _ _ Hgo Hdir Hlink).
  split.
  - destruct (copyFallback src dest overwrite isDir
                (succeeds (stat (tree_of w) dest))
                (symlinkError c (relative (dirname dest) src) dest) w1)
      as [w2 r] eqn:Hf.
    eapply copyFallback_output; exact Hf.
  - rewrite copyFallback_run. reflexivity.
Qed.

Lemma symlinkOrCopy_falls_back_witness :
  let run :=
    symlinkOrCopy ["shared"; "a.md"] ["proj"; "n"; "new.md"] true false
      refusingWorld in
  run.2 = inr (fallenBack true false) /\
  readFile (tree_of run.1) ["proj"; "n"; "new.md"] = inr "X" /\
  output run.1 = [symlinkWarning EPERM ["proj"; "n"; "new.md"]].
Proof.
  cbv zeta.
  destruct (symlinkOrCopy_falls_back ["shared"; "a.md"] ["proj"; "n"; "new.md"]
              true false refusingWorld
              (ensureDirectoryExists ["proj"; "n"] refusingWorld).1 EPERM)
    as [Hout Hrun];
    [ vm_compute; reflexivity
    | apply run_unit; vm_compute; reflexivity
    | vm_compute; reflexivity | ].
  split; [rewrite Hrun; vm_compute; reflexivity|].
  split; [rewrite Hrun; vm_compute; reflexivity|].
  rewrite Hout. vm_compute. reflexivity.
Defined.

(** C10: when the destination exists and overwrite=true, the symlink
    call of symlinkOrCopy fails on the existing path, so the function is
    its copy fallback: no result has usedSymlink=true, and no link
    appears anywhere in the tree (an existing destination is refreshed by
    copy, never turned into a symbolic link). *)
Theorem symlinkOrCopy_existing_never_links (src dest : path) (isDir : bool)
  (w : world) (n : node) :
  stat (tree_of w) dest = inr n ->
  (exists c,
      linkAttempt (machine w) (relative (dirname dest) src) dest = inl c /\
      symlinkOrCopy src dest true isDir w =
      copyFallback src dest true isDir true
        (symlinkError c (relative (dirname dest) src) dest) w) /\
  (forall w' r,
      symlinkOrCopy src dest true isDir w = (w', inr r) ->
      LinkResult.usedSymlink r = false) /\
  noNewLinks (tree_of w) (tree_of (symlinkOrCopy src dest true isDir w).1).
Proof.
  intros Hst.
  destruct (linkAttempt_exists (machine w) (relative (dirname dest) src) dest n Hst)
    as [c Hc].
  assert (Hrun : symlinkOrCopy src dest true isDir w =
                 copyFallback src dest true isDir true
                   (symlinkError c (relative (dirname dest) src) dest) w).
  { rewrite (symlinkOrCopy_fallback src dest true isDir w w c).
    - unfold tree_of in Hst |- *. rewrite Hst. reflexivity.
    - unfold tree_of in Hst |- *. rewrite Hst. reflexivity.
    - eapply ensureDirectoryExists_existing; exact Hst.
    - exact Hc. }
  split; [exists c; split; assumption|]. split.
  - intros w' r H. rewrite Hrun in H.
    eapply copyFallback_not_symlink; exact H.
  - rewrite Hrun.
    destruct (copyFallback src dest true isDir true
                (symlinkError c (relative (dirname dest) src) dest) w)
      as [w' r] eqn:Hf.
    eapply linkFree_copyFallback; exact Hf.
Qed.

Lemma symlinkOrCopy_existing_never_links_witness :
  let run :=
    symlinkOrCopy ["shared"; "a.md"] ["proj"; "old.md"] true false exampleWorld in
  run.2 = inr (fallenBack false true) /\
  stat (tree_of run.1) ["proj"; "old.md"] = inr (File "X") /\
  noNewLinks exampleTree (tree_of run.1).
Proof.
  cbv zeta.
  destruct (symlinkOrCopy_existing_never_links ["shared"; "a.md"]
              ["proj"; "old.md"] false exampleWorld (File "Y"))
    as (_ & _ & Hlinks); [vm_compute; reflexivity|].
  split; [vm_compute; reflexivity|].
  split; [vm_compute; reflexivity|exact Hlinks].
Defined.

(** * Properties of the placement engine *)

Lemma processOutput_dryRun fr root o acc w :
  processOutput fr root true o acc w = (emitted (dryRunLine o) w, inr acc).
Proof. reflexivity. Qed.

Lemma processOutput_run fr root o acc w :
  processOutput fr root false o acc w =
  match placeResourceAtOutput fr (resolve root o) w with
  | (w1, inr result) =>
      (emitted (placedLine (ValidatedResource.overwrite
                              (FetchedResource.definition fr)) o result) w1,
       inr (counted acc result))
  | (w1, inl error) =>
      (emitted (ErrorLog, "✗ " +:+ failureMessage o error) w1,
       inr (withError acc (failureMessage o error)))
  end.
Proof.
  unfold processOutput, tryCatch, bind at 1.
  destruct (placeResourceAtOutput fr (resolve root o) w) as [w1 [e|result]];
    [reflexivity|].
  unfold placedLine, counted.
  destruct (0 <? PlaceResult.created result); [reflexivity|].
  destruct (0 <? PlaceResult.updated result); [reflexivity|].
  destruct (ValidatedResource.overwrite (FetchedResource.definition fr));
    reflexivity.
Qed.

Lemma logged_emitted lines line w :
  logged lines (emitted line w) = logged (line :: lines) w.
Proof.
  unfold logged, emitted, setOutput. simpl. rewrite <- app_assoc. reflexivity.
Qed.

Lemma logged_logged l1 l2 w : logged l2 (logged l1 w) = logged (l1 ++ l2) w.
Proof.
  unfold logged, setOutput. simpl. rewrite <- app_assoc. reflexivity.
Qed.

Lemma logged_nil w : logged [] w = w.
Proof.
  unfold logged, setOutput. rewrite app_nil_r. destruct w; reflexivity.
Qed.

Lemma tree_of_logged lines w : tree_of (logged lines w) = tree_of w.
Proof. reflexivity. Qed.

Lemma processOutputs_dryRun fr root :
  forall outputs acc w,
    processOutputs fr root true outputs acc w =
    (logged (map dryRunLine outputs) w, inr acc).
Proof.
  induction outputs as [|o outputs IH]; intros acc w; simpl.
  - rewrite logged_nil. reflexivity.
  - unfold bind. rewrite processOutput_dryRun, IH, logged_emitted. reflexivity.
Qed.

Lemma placeAll_dryRun root :
  forall frs w,
    placeAll frs root true noResult w =
    (logged (concat (map (fun fr => map dryRunLine
                            (ValidatedResource.outputs
                               (FetchedResource.definition fr))) frs)) w,
     inr noResult).
Proof.
  induction frs as [|fr frs IH]; intros w; simpl.
  - rewrite logged_nil. reflexivity.
  - unfold processFetchedResource. rewrite processOutputs_dryRun.
    change (addResult noResult noResult) with noResult.
    rewrite IH, logged_logged. reflexivity.
Qed.

Lemma logsOnly_emit ch msg : logsOnly (emit ch msg).
Proof. exists [(ch, msg)], tt. reflexivity. Qed.

Lemma logsOnly_ret {A} (a : A) : logsOnly (ret a).
Proof. exists [], a. intros w. rewrite logged_nil. reflexivity. Qed.

Lemma logsOnly_bind {A B} (c : M A) (k : A -> M B) :
  logsOnly c -> (forall a, logsOnly (k a)) -> logsOnly (bind c k).
Proof.
  intros (l1 & a & Hc) Hk. destruct (Hk a) as (l2 & b & Hkb).
  exists (l1 ++ l2), b. intros w. unfold bind.
  rewrite Hc, Hkb, logged_logged. reflexivity.
Qed.

Lemma logsOnly_if {A} (b : bool) (c1 c2 : M A) :
  logsOnly c1 -> logsOnly c2 -> logsOnly (if b then c1 else c2).
Proof. destruct b; auto. Qed.

Lemma printSummary_logsOnly result dryRun : logsOnly (printSummary result dryRun).
Proof.
  unfold printSummary. cbv zeta.
  repeat first
    [ apply logsOnly_emit
    | apply logsOnly_ret
    | apply logsOnly_if
    | apply logsOnly_bind; [|intros _] ].
  induction (SyncResult.errors result) as [|e es IH].
  - apply logsOnly_ret.
  - apply logsOnly_bind; [apply logsOnly_emit|intros _; exact IH].
Qed.

(** C9: with the dry-run flag set, every output of a resource is
    logged as "[DRY RUN] Would process: <path>", nothing else happens to
    the world, and no output is counted; the counts a dry run of runSync
    returns are therefore all zero (only its error list can be non-empty)
    and the file tree is the one the fetch stage left. *)
Theorem dryRun_places_nothing :
  (forall fr root w,
      processFetchedResource fr root true w =
      (logged (map dryRunLine
                 (ValidatedResource.outputs (FetchedResource.definition fr))) w,
       inr noResult)) /\
  (forall loadConfig configPath w,
      exists w' errors,
        runSync loadConfig configPath true w = (w', inr (countsOnly errors)) /\
        tree_of w' = tree_of (fetchStage loadConfig configPath w).1).
Proof.
  split.
  - intros fr root w. unfold processFetchedResource.
    apply processOutputs_dryRun.
  - intros loadConfig configPath w.
    unfold runSync, fetchStage, bind at 1, currentDirectory.
    destruct ((let! resources := loadConfig configPath (cwd (machine w)) in
               fetchResources resources (cwd (machine w))) w)
      as [w1 [e|frs]] eqn:Hstage; cbn [fst].
    + eexists _, _. split; reflexivity.
    + rewrite placeAll_dryRun.
      destruct (printSummary_logsOnly noResult true) as (lines & [] & Hp).
      unfold tryCatch, bind, ret. rewrite Hp.
      eexists _, _. split; reflexivity.
Qed.

Lemma run_pair {A} (c : M A) (w : world) (r : jsError + A) :
  (c w).2 = r -> c w = ((c w).1, r).
Proof. destruct (c w) as [w' r']. simpl. intros ->. reflexivity. Qed.

Lemma processOutput_returns fr root dryRun o acc w :
  exists w' acc', processOutput fr root dryRun o acc w = (w', inr acc').
Proof.
  destruct dryRun.
  - rewrite processOutput_dryRun. eauto.
  - rewrite processOutput_run.
    destruct (placeResourceAtOutput fr (resolve root o) w) as [w1 [e|r]]; eauto.
Qed.

Lemma processOutputs_returns fr root dryRun :
  forall outputs acc w,
    exists w' acc', processOutputs fr root dryRun outputs acc w = (w', inr acc').
Proof.
  induction outputs as [|o outputs IH]; intros acc w; simpl.
  - unfold ret. eauto.
  - unfold bind.
    destruct (processOutput_returns fr root dryRun o acc w) as (w1 & acc1 & ->).
    apply IH.
Qed.

Lemma placeAll_returns root dryRun :
  forall frs acc w,
    exists w' r, placeAll frs root dryRun acc w = (w', inr r).
Proof.
  induction frs as [|fr frs IH]; intros acc w; simpl.
  - eauto.
  - unfold processFetchedResource.
    destruct (processOutputs_returns fr root dryRun
                (ValidatedResource.outputs (FetchedResource.definition fr))
                noResult w) as (w1 & r1 & ->).
    apply IH.
Qed.

Lemma processOutputs_failure fr root o rest acc w w1 e :
  placeResourceAtOutput fr (resolve root o) w = (w1, inl e) ->
  processOutputs fr root false (o :: rest) acc w =
  processOutputs fr root false rest
    (withError acc (failureMessage o e))
    (emitted (ErrorLog, "✗ " +:+ failureMessage o e) w1).
Proof.
  intros H. simpl. unfold bind. rewrite processOutput_run, H. reflexivity.
Qed.

(** C3: an exception raised while one output is placed is caught,
    formatted, appended to the error list and logged, and the loop goes
    on with the next output; the loop over the resources never aborts;
    and when of three resources only the (single) output of the second
    fails, the counts of the first and the third are all there and the
    error list has exactly one entry, which names the failing output. *)
Theorem placement_errors_are_isolated :
  (forall fr root o rest acc w w1 e,
      placeResourceAtOutput fr (resolve root o) w = (w1, inl e) ->
      processOutputs fr root false (o :: rest) acc w =
      processOutputs fr root false rest
        (withError acc (failureMessage o e))
        (emitted (ErrorLog, "✗ " +:+ failureMessage o e) w1)) /\
  (forall frs root dryRun acc w,
      exists w' r, placeAll frs root dryRun acc w = (w', inr r)) /\
  (forall f1 f2 f3 root o2 e w w1 w2 w3 r1 r3,
      processFetchedResource f1 root false w = (w1, inr r1) ->
      SyncResult.errors r1 = [] ->
      ValidatedResource.outputs (FetchedResource.definition f2) = [o2] ->
      placeResourceAtOutput f2 (resolve root o2) w1 = (w2, inl e) ->
      processFetchedResource f3 root false
        (emitted (ErrorLog, "✗ " +:+ failureMessage o2 e) w2) = (w3, inr r3) ->
      SyncResult.errors r3 = [] ->
      placeAll [f1; f2; f3] root false noResult w =
      (w3, inr {| SyncResult.created :=
                    SyncResult.created r1 + SyncResult.created r3;
                  SyncResult.updated :=
                    SyncResult.updated r1 + SyncResult.updated r3;
                  SyncResult.skipped :=
                    SyncResult.skipped r1 + SyncResult.skipped r3;
                  SyncResult.errors := [failureMessage o2 e] |})).
Proof.
  split; [|split].
  - intros. apply processOutputs_failure. assumption.
  - intros. apply placeAll_returns.
  - intros f1 f2 f3 root o2 e w w1 w2 w3 r1 r3 H1 E1 Ho H2 H3 E3.
    simpl. rewrite H1.
    unfold processFetchedResource at 1. rewrite Ho.
    rewrite (processOutputs_failure _ _ _ _ _ _ _ _ H2). simpl. unfold ret.
    rewrite H3. unfold addResult, withError, noResult. simpl.
    rewrite E1, E3. simpl.
    repeat f_equal; lia.
Qed.

Lemma placement_errors_are_isolated_witness :
  let f1 := localResource ["shared"; "a.md"] true false ["out1.md"] in
  let f2 := localResource ["shared"; "a.md"] true false ["old.md/x.md"] in
  let f3 := textResource "Z" true ["docs/out3.md"] in
  let run := placeAll [f1; f2; f3] ["proj"] false noResult exampleWorld in
  run.2 = inr {| SyncResult.created := 2; SyncResult.updated := 0;
                 SyncResult.skipped := 0;
                 SyncResult.errors :=
                   [failureMessage "old.md/x.md"
                      (ErrnoException ENOTDIR "copyfile"
                         "/shared/a.md' -> '/proj/old.md/x.md")] |} /\
  readFile (tree_of run.1) ["proj"; "out1.md"] = inr "X" /\
  readFile (tree_of run.1) ["proj"; "docs"; "out3.md"] = inr "Z" /\
  readFile (tree_of run.1) ["proj"; "old.md"] = inr "Y".
Proof.
  intros f1 f2 f3 run. subst run.
  pose (w1 := (processFetchedResource f1 ["proj"] false exampleWorld).1).
  pose (w2 := (placeResourceAtOutput f2 (resolve ["proj"] "old.md/x.md") w1).1).
  pose (e := ErrnoException ENOTDIR "copyfile"
               "/shared/a.md' -> '/proj/old.md/x.md").
  pose (w2' := emitted (ErrorLog, "✗ " +:+ failureMessage "old.md/x.md" e) w2).
  rewrite (proj2 (proj2 placement_errors_are_isolated) f1 f2 f3 ["proj"]
             "old.md/x.md" e exampleWorld w1 w2
             (processFetchedResource f3 ["proj"] false w2').1
             {| SyncResult.created := 1; SyncResult.updated := 0;
                SyncResult.skipped := 0; SyncResult.errors := [] |}
             {| SyncResult.created := 1; SyncResult.updated := 0;
                SyncResult.skipped := 0; SyncResult.errors := [] |}).
  - cbn [fst snd]. split; [reflexivity|]. vm_compute. repeat split.
  - apply run_pair. vm_compute. reflexivity.
  - reflexivity.
  - reflexivity.
  - apply run_pair. vm_compute. reflexivity.
  - apply run_pair. vm_compute. reflexivity.
  - reflexivity.
Defined.






Lemma copyFile_inv src dest overwrite w w' r :
  copyFile src dest overwrite w = (w', inr r) ->
  (r = untouched /\ w' = w) \/
  (exists m1 m2,
      extends (tree_of w) m1 /\ fsCopyFile m1 src dest = inr m2 /\
      w' = setTree m2 w /\ (r = copied \/ r = refreshed)).
Proof.
  unfold copyFile, bind at 1. rewrite pathExists_run.
  set (exists_ := succeeds (stat (tree_of w) dest)).
  assert (Hcopy : forall w' r,
            (ensureDirectoryExists (dirname dest);;
             fsWrite "copyfile" (twoPaths (showPath src) (showPath dest))
               (fun m => fsCopyFile m src dest);;
             if exists_ && overwrite then
               ret {| CopyResult.created := false; CopyResult.updated := true |}
             else
               ret {| CopyResult.created := true; CopyResult.updated := false |})
              w = (w', inr r) ->
            exists m1 m2,
              extends (tree_of w) m1 /\ fsCopyFile m1 src dest = inr m2 /\
              w' = setTree m2 w /\ (r = copied \/ r = refreshed)).
  { clear w' r. intros w' r. unfold bind at 1.
    rewrite ensureDirectoryExists_run.
    destruct (mkdir (tree_of w) (dirname dest)) as [c|m1] eqn:Hmk.
    - destruct c; try discriminate.
      unfold bind, fsWrite.
      destruct (fsCopyFile (tree_of w) src dest) as [c|m2] eqn:Hcp;
        [discriminate|].
      intros H. exists (tree_of w), m2.
      split; [apply extends_refl|]. split; [exact Hcp|].
      destruct (exists_ && overwrite); inversion H; subst; auto.
    - unfold bind, fsWrite. rewrite tree_of_setTree.
      destruct (fsCopyFile m1 src dest) as [c|m2] eqn:Hcp; [discriminate|].
      intros H. exists m1, m2.
      split; [apply (mkdir_spec _ _ _ Hmk)|]. split; [exact Hcp|].
      destruct (exists_ && overwrite); inversion H; subst; auto. }
  destruct (exists_ && negb overwrite).
  - intros H. inversion H; subst. left. auto.
  - destruct (exists_ && overwrite); [|intros H; right; apply Hcopy; exact H].
    unfold bind at 1, fsRead at 1.
    destruct (readFile (tree_of w) src) as [c|a]; [discriminate|].
    unfold bind at 1, fsRead at 1.
    destruct (readFile (tree_of w) dest) as [c|b]; [discriminate|].
    destruct (String.eqb a b).
    + intros H. inversion H; subst. left. auto.
    + intros H. right. apply Hcopy. exact H.
Qed.


Lemma writeTextFile_inv dest content overwrite w w' r :
  writeTextFile dest content overwrite w = (w', inr r) ->
  (r = untouched /\ w' = w) \/
  (exists m1 m2,
      writeFile m1 dest content = inr m2 /\ w' = setTree m2 w /\
      (r = copied \/ r = refreshed)).
Proof.
  unfold writeTextFile, bind at 1. rewrite pathExists_run.
  set (exists_ := succeeds (stat (tree_of w) dest)).
  assert (Hwrite : forall w' r,
            (ensureDirectoryExists (dirname dest);;
             fsWrite "open" (showPath dest) (fun m => writeFile m dest content);;
             if exists_ && overwrite then
               ret {| CopyResult.created := false; CopyResult.updated := true |}
             else
               ret {| CopyResult.created := true; CopyResult.updated := false |})
              w = (w', inr r) ->
            exists m1 m2,
              writeFile m1 dest content = inr m2 /\ w' = setTree m2 w /\
              (r = copied \/ r = refreshed)).
  { clear w' r. intros w' r. unfold bind at 1.
    rewrite ensureDirectoryExists_run.
    destruct (mkdir (tree_of w) (dirname dest)) as [c|m1] eqn:Hmk.
    - destruct c; try discriminate.
      unfold bind, fsWrite.
      destruct (writeFile (tree_of w) dest content) as [c|m2] eqn:Hcp;
        [discriminate|].
      intros H. exists (tree_of w), m2. split; [exact Hcp|].
      destruct (exists_ && overwrite); inversion H; subst; auto.
    - unfold bind, fsWrite. rewrite tree_of_setTree.
      destruct (writeFile m1 dest content) as [c|m2] eqn:Hcp; [discriminate|].
      intros H. exists m1, m2. split; [exact Hcp|].
      destruct (exists_ && overwrite); inversion H; subst; auto. }
  destruct (exists_ && negb overwrite).
  - intros H. inversion H; subst. left. auto.
  - destruct (exists_ && overwrite); [|intros H; right; apply Hwrite; exact H].
    unfold bind at 1, tryCatch at 1, bind at 1, fsRead at 1.
    destruct (readFile (tree_of w) dest) as [c|b].
    + unfold ret at 1. intros H. right. apply Hwrite. exact H.
    + unfold ret at 1. destruct (String.eqb b content).
      * intros H. inversion H; subst. left. auto.
      * intros H. right. apply Hwrite. exact H.
Qed.



Lemma countOf_pos (b : bool) : 0 < countOf b -> b = true.
Proof. destruct b; [reflexivity|simpl; lia]. Qed.



(** * Properties of the fetch orchestrator *)

Lemma fetchSingleResource_run definition root w :
  fetchSingleResource definition root w =
  match registry w !! ValidatedResource.plugin definition with
  | None => (w, inl (PluginNotFoundError (ValidatedResource.plugin definition)))
  | Some plugin =>
      let '(o, lines, r) :=
        Plugin.fetch plugin (ValidatedResource.pluginConfig definition) root
          (machine w) in
      match r with
      | inr result => (afterFetch definition o lines w,
                       inr (fetchedFrom definition result))
      | inl x => (afterFetch definition o lines w,
                  inl (pluginFailure definition x))
      end
  end.
Proof.
  unfold fetchSingleResource, bind at 1, resolvePlugin.
  destruct (registry w !! ValidatedResource.plugin definition) as [plugin|];
    [|reflexivity].
  unfold tryCatch, bind, callFetch, pluginFailure, throw, ret.
  destruct (Plugin.fetch plugin _ root (machine w)) as [[o lines] [x|result]];
    [|reflexivity].
  destruct (isResourceError x); reflexivity.
Qed.

Lemma fetchResourcesFrom_acc root :
  forall rs acc w,
    fetchResourcesFrom rs root acc w =
    match fetchResourcesFrom rs root [] w with
    | (w', inr frs) => (w', inr (acc ++ frs))
    | (w', inl e) => (w', inl e)
    end.
Proof.
  induction rs as [|d rs IH]; intros acc w; simpl.
  - unfold ret. rewrite app_nil_r. reflexivity.
  - unfold bind.
    destruct (tryCatch (fetchSingleResource d root) _ w) as [w1 [e|f]];
      [reflexivity|].
    rewrite (IH (acc ++ [f])), (IH ([] ++ [f])).
    destruct (fetchResourcesFrom rs root [] w1) as [w' [e|frs]]; [reflexivity|].
    rewrite <- app_assoc. reflexivity.
Qed.

Lemma fetchResources_cons d rs root w :
  fetchResources (d :: rs) root w =
  match fetchTurn d root w with
  | (w1, inr f) =>
      match fetchResources rs root w1 with
      | (w', inr frs) => (w', inr (f :: frs))
      | (w', inl e) => (w', inl e)
      end
  | (w1, inl e) => (w1, inl e)
  end.
Proof.
  unfold fetchResources. simpl. unfold bind, fetchTurn, resourceFailure.
  destruct (tryCatch (fetchSingleResource d root) _ w) as [w1 [e|f]] eqn:H1.
  - unfold tryCatch in *. destruct (fetchSingleResource d root w) as [w2 [x|f]].
    + unfold throw in *. destruct (isResourceError x); inversion H1; reflexivity.
    + discriminate.
  - unfold tryCatch in *. destruct (fetchSingleResource d root w) as [w2 [x|f']].
    + unfold throw in H1. destruct (isResourceError x); discriminate.
    + inversion H1; subst. rewrite fetchResourcesFrom_acc. reflexivity.
Qed.

Lemma pluginFailure_isResourceError d x : isResourceError (pluginFailure d x) = true.
Proof.
  unfold pluginFailure. destruct (isResourceError x) eqn:Hx; [exact Hx|reflexivity].
Qed.

Lemma fetchTurn_run d root w :
  fetchTurn d root w =
  match registry w !! ValidatedResource.plugin d with
  | None =>
      (w, inl (ResourceError
                 ("Failed to fetch resource: Plugin not found: "
                    +:+ ValidatedResource.plugin d) None))
  | Some plugin =>
      let '(o, lines, r) :=
        Plugin.fetch plugin (ValidatedResource.pluginConfig d) root (machine w) in
      match r with
      | inr result => (afterFetch d o lines w, inr (fetchedFrom d result))
      | inl x => (afterFetch d o lines w, inl (pluginFailure d x))
      end
  end.
Proof.
  unfold fetchTurn, tryCatch. rewrite fetchSingleResource_run.
  destruct (registry w !! ValidatedResource.plugin d) as [plugin|]; [|reflexivity].
  destruct (Plugin.fetch plugin _ root (machine w)) as [[o lines] [x|result]];
    [|reflexivity].
  unfold throw, resourceFailure. rewrite pluginFailure_isResourceError.
  reflexivity.
Qed.

(** C4: fetchResources goes through the descriptors in input order;
    the first failure ends it (the resources after the failing one are
    never fetched); what it throws is always a ResourceError: the
    ResourceError a plugin threw, unchanged, or one whose message keeps
    the plugin name and the message of what was thrown. *)
Theorem fetchResources_aborts_uniformly
  (rs : list ValidatedResource.t) (root : path) (w w' : world) :
  (forall frs,
      fetchResources rs root w = (w', inr frs) ->
      map FetchedResource.definition frs = rs /\
      fetches w' = fetches w ++ rs) /\
  (forall e,
      fetchResources rs root w = (w', inl e) ->
      isResourceError e = true /\
      exists pre d post w0 fpre,
        rs = pre ++ d :: post /\
        fetchResources pre root w = (w0, inr fpre) /\
        ((registry w0 !! ValidatedResource.plugin d = None /\
          fetches w' = fetches w ++ pre /\
          e = ResourceError
                ("Failed to fetch resource: Plugin not found: "
                   +:+ ValidatedResource.plugin d) None)
         \/
         (exists plugin o lines x,
             registry w0 !! ValidatedResource.plugin d = Some plugin /\
             Plugin.fetch plugin (ValidatedResource.pluginConfig d) root
               (machine w0) = (o, lines, inl x) /\
             fetches w' = fetches w ++ pre ++ [d] /\
             e = if isResourceError x then x
                 else ResourceError
                        ("Failed to fetch with plugin "
                           +:+ quote (ValidatedResource.plugin d)
                           +:+ ": " +:+ formatError x)
                        (Some (ValidatedResource.plugin d))))).
Proof.
  revert w w'. induction rs as [|d rs IH]; intros w w'.
  - split.
    + intros frs H. inversion H; subst. rewrite app_nil_r. auto.
    + intros e H. discriminate.
  - rewrite fetchResources_cons, fetchTurn_run.
    destruct (registry w !! ValidatedResource.plugin d) as [plugin|] eqn:Hreg.
    + destruct (Plugin.fetch plugin (ValidatedResource.pluginConfig d) root
                  (machine w)) as [[o lines] [x|result]] eqn:Hfetch.
      * split; [intros frs H; discriminate|].
        intros e H. inversion H; subst; clear H.
        split; [apply pluginFailure_isResourceError|].
        exists [], d, rs, w, []. split; [reflexivity|]. split; [reflexivity|].
        right. exists plugin, o, lines, x. repeat split; assumption.
      * destruct (IH (afterFetch d o lines w) w') as [IH1 IH2].
        destruct (fetchResources rs root (afterFetch d o lines w))
          as [w2 [e2|frs2]] eqn:Hrest.
        -- split; [intros frs H; discriminate|].
           intros e H. inversion H; subst; clear H.
           destruct (IH2 e eq_refl)
             as (Hre & pre & d' & post & w0 & fpre & -> & Hpre & Hcase).
           split; [exact Hre|].
           exists (d :: pre), d', post, w0, (fetchedFrom d result :: fpre).
           split; [reflexivity|]. split.
           { rewrite fetchResources_cons, fetchTurn_run, Hreg, Hfetch, Hpre.
             reflexivity. }
           destruct Hcase as [(Hn & Hf & He)|(p & o' & l' & x & Hp & Hx & Hf & He)].
           ++ left. repeat split; [exact Hn| |exact He].
              rewrite Hf. simpl. rewrite <- app_assoc. reflexivity.
           ++ right. exists p, o', l', x. repeat split; try assumption.
              rewrite Hf. simpl. rewrite <- app_assoc. reflexivity.
        -- split; [|intros e H; discriminate].
           intros frs H. inversion H; subst; clear H.
           destruct (IH1 frs2 eq_refl) as [Hmap Hf].
           split; [simpl; rewrite Hmap; reflexivity|].
           rewrite Hf. simpl. rewrite <- app_assoc. reflexivity.
    + split; [intros frs H; discriminate|].
      intros e H. inversion H; subst; clear H.
      split; [reflexivity|].
      exists [], d, rs, w', []. split; [reflexivity|]. split; [reflexivity|].
      left. repeat split; [exact Hreg|rewrite app_nil_r; reflexivity].
Qed.

Lemma fetchResources_aborts_uniformly_witness :
  let rs := [resourceOf "good" ["a.md"]; resourceOf "failing" ["b.md"];
             resourceOf "good" ["c.md"]] in
  let run := fetchResources rs ["proj"] pluginWorld in
  let e := ResourceError
             ("Failed to fetch with plugin " +:+ quote "failing" +:+ ": "
                +:+ "Plugin " +:+ quote "failing" +:+ ": boom")
             (Some "failing") in
  run.2 = inl e /\
  isResourceError e = true /\
  fetches run.1 = [resourceOf "good" ["a.md"]; resourceOf "failing" ["b.md"]] /\
  (fetchResources [resourceOf "relay" ["r.md"]] ["proj"] pluginWorld).2
    = inl (ResourceError "HTTP 404 Not Found" (Some "url")).
Proof.
  intros rs run e.
  assert (Hrun : fetchResources rs ["proj"] pluginWorld = (run.1, inl e)).
  { apply run_pair. vm_compute. reflexivity. }
  destruct (proj2 (fetchResources_aborts_uniformly rs ["proj"] pluginWorld run.1)
              e Hrun) as [Hkind _].
  split; [vm_compute; reflexivity|]. split; [exact Hkind|].
  split; vm_compute; reflexivity.
Defined.

(** * The invariant of fetched resources *)

Lemma resourceInvariant_fetchedFrom d result :
  resourceInvariant (fetchedFrom d result) <-> resultInvariant result.
Proof.
  unfold resourceInvariant, resultInvariant, fetchedFrom. simpl.
  destruct (PluginResult.isDirectory result) as [[|]|]; simpl;
    split; intros [H1 H2]; split; auto; intros H; try discriminate;
    try (specialize (H2 H); congruence).
Qed.

(** C8 as stated fails: a plugin result that sets content, localPath
    and isDirectory=true goes through fetchResources unchanged. *)
Lemma fetched_invariant_counterexample :
  exists fr,
    (fetchResources [resourceOf "overfull" ["out.md"]] ["proj"] pluginWorld).2
      = inr [fr] /\
    ~ resourceInvariant fr.
Proof.
  exists (fetchedFrom (resourceOf "overfull" ["out.md"]) overfullResult).
  split; [vm_compute; reflexivity|].
  intros [H _]. simpl in H. apply (proj1 H); eexists; reflexivity.
Qed.

(** C8, amended: a FetchedResource produced by the orchestrator is the
    plugin result with isDirectory defaulted to false and nothing else
    changed, so it satisfies the data-model invariant exactly when the
    plugin result does. *)
Theorem fetched_invariant_follows_plugin
  (definition : ValidatedResource.t) (root : path) (w w' : world)
  (fr : FetchedResource.t) :
  fetchSingleResource definition root w = (w', inr fr) ->
  exists plugin o lines result,
    registry w !! ValidatedResource.plugin definition = Some plugin /\
    Plugin.fetch plugin (ValidatedResource.pluginConfig definition) root
      (machine w) = (o, lines, inr result) /\
    FetchedResource.definition fr = definition /\
    FetchedResource.content fr = PluginResult.content result /\
    FetchedResource.localPath fr = PluginResult.localPath result /\
    FetchedResource.isDirectory fr
      = default false (PluginResult.isDirectory result) /\
    FetchedResource.pluginMetadata fr = PluginResult.metadata result /\
    (resourceInvariant fr <-> resultInvariant result).
Proof.
  rewrite fetchSingleResource_run.
  destruct (registry w !! ValidatedResource.plugin definition) as [plugin|];
    [|discriminate].
  destruct (Plugin.fetch plugin (ValidatedResource.pluginConfig definition)
              root (machine w)) as [[o lines] [x|result]] eqn:Hf; [discriminate|].
  intros H. inversion H; subst; clear H.
  exists plugin, o, lines, result.
  split; [reflexivity|]. split; [exact Hf|].
  do 5 (split; [reflexivity|]).
  apply resourceInvariant_fetchedFrom.
Qed.

Lemma fetched_invariant_follows_plugin_witness :
  let d := resourceOf "good" ["a.md"] in
  let run := fetchSingleResource d ["proj"] pluginWorld in
  run.2 = inr (fetchedFrom d (textResult "hello")) /\
  resultInvariant (textResult "hello") /\
  resourceInvariant (fetchedFrom d (textResult "hello")).
Proof.
  intros d run.
  assert (Hrun : fetchSingleResource d ["proj"] pluginWorld
                 = (run.1, inr (fetchedFrom d (textResult "hello")))).
  { apply run_pair. vm_compute. reflexivity. }
  destruct (fetched_invariant_follows_plugin d ["proj"] pluginWorld run.1 _ Hrun)
    as (plugin & o & lines & result & _ & _ & _ & Hc & Hl & Hd & _ & Hinv).
  assert (Hres : resultInvariant (textResult "hello")).
  { split; simpl.
    - split; [intros _ [x Hx]; discriminate|intros _; eexists; reflexivity].
    - intros _. discriminate. }
  split; [vm_compute; reflexivity|]. split; [exact Hres|].
  apply resourceInvariant_fetchedFrom. exact Hres.
Defined.

(** * Properties of the plugin registry *)

Lemma searchExports_candidate kv rest :
  searchExports (kv :: rest) =
  match candidate (snd kv) with
  | Some instance => Some instance
  | None => searchExports rest
  end.
Proof. destruct kv as [k [c|o|t]]; reflexivity. Qed.

Lemma searchExports_no_default pluginModule :
  getExport pluginModule "default" = None ->
  List.filter (fun kv => negb (isDefault kv)) pluginModule = pluginModule.
Proof.
  unfold getExport, isDefault.
  induction pluginModule as [|[k' v'] rest IH]; [reflexivity|].
  cbn [List.find List.filter fst snd].
  destruct (String.eqb k' "default") eqn:Hk; [discriminate|].
  intros H. cbn [negb]. rewrite IH; [reflexivity|exact H].
Qed.

Lemma filter_absent_key (k : string) (pluginModule : moduleNamespace) :
  ~ In k (map fst pluginModule) ->
  List.filter (fun kv => negb (String.eqb (fst kv) k)) pluginModule
  = pluginModule.
Proof.
  induction pluginModule as [|[k' v] rest IH]; [reflexivity|].
  cbn [map fst List.filter In]. intros Hn.
  destruct (String.eqb_spec k' k) as [->|_]; [tauto|].
  cbn [negb]. rewrite IH; [reflexivity|tauto].
Qed.

(** With unique export names, the loop over all exports finds what the
    loop over the exports other than default finds, as soon as the
    default export fails the checks. *)
Lemma searchExports_skips_default pluginModule v :
  List.NoDup (map fst pluginModule) ->
  getExport pluginModule "default" = Some v ->
  candidate v = None ->
  searchExports pluginModule
  = searchExports (List.filter (fun kv => negb (isDefault kv)) pluginModule).
Proof.
  unfold getExport, isDefault.
  induction pluginModule as [|[k' v'] rest IH]; [reflexivity|].
  intros Hnd Hget Hc. cbn [List.find fst snd map] in *.
  inversion Hnd as [|? ? Hnotin Hnd']; subst.
  rewrite searchExports_candidate. cbn [List.filter fst snd].
  destruct (String.eqb_spec k' "default") as [Hk|Hk].
  - inversion Hget; subst. rewrite Hc. cbn [negb].
    rewrite (filter_absent_key "default" rest); [reflexivity|exact Hnotin].
  - cbn [negb]. rewrite searchExports_candidate. cbn [snd].
    destruct (candidate v'); [reflexivity|].
    apply IH; assumption.
Qed.

Lemma loadPlugin_run pluginPath root w pluginModule :
  modules w !! resolve root pluginPath = Some (inr pluginModule) ->
  loadPlugin pluginPath root w =
  match findPlugin pluginModule with
  | Some plugin =>
      (setRegistry (<[Plugin.name plugin := plugin]> (registry w)) w, inr tt)
  | None => (w, inl (loadFailure pluginPath (noPluginFound pluginPath)))
  end.
Proof.
  intros Hm. unfold loadPlugin, tryCatch, bind, importModule. rewrite Hm.
  destruct (findPlugin pluginModule); reflexivity.
Qed.

(** C7 as stated fails: with a default export that is a class but not
    a plugin, the named exports are not searched, although one of them
    is a plugin; loadPlugin fails and registers nothing. *)
Lemma loadPlugin_search_counterexample :
  (exists plugin,
      claimedSearch shadowedModule = Some plugin /\
      Plugin.name plugin = "named") /\
  loadPlugin "shadowed.js" ["proj"] moduleWorld =
    (moduleWorld,
     inl (loadFailure "shadowed.js" (noPluginFound "shadowed.js"))).
Proof.
  split.
  - eexists. split; reflexivity.
  - rewrite (loadPlugin_run "shadowed.js" ["proj"] moduleWorld shadowedModule);
      [reflexivity|vm_compute; reflexivity].
Qed.

(** C7, amended: a default export that is a function is instantiated
    and decides alone (its instance is registered if it has a non-empty
    name and a callable fetch, otherwise loading fails and the other
    exports are not looked at); in every other case the search is the
    stated one: the default export as an object, then the other named
    exports in enumeration order under the two checks, first match wins.
    The match is registered under its name; without a match loadPlugin
    throws an Error whose message names the path and the world is
    unchanged, and loadConfig reports it as a ConfigurationError. *)
Theorem loadPlugin_searches_in_order
  (pluginPath : string) (root : path) (filepath : string) (w : world)
  (pluginModule : moduleNamespace) :
  modules w !! resolve root pluginPath = Some (inr pluginModule) ->
  List.NoDup (map fst pluginModule) ->
  findPlugin pluginModule =
    match getExport pluginModule "default" with
    | Some (Exported.Function construct) => tryConstruct construct
    | _ => claimedSearch pluginModule
    end /\
  loadPlugin pluginPath root w =
    match findPlugin pluginModule with
    | Some plugin =>
        (setRegistry (<[Plugin.name plugin := plugin]> (registry w)) w, inr tt)
    | None =>
        (w, inl (Error ("Failed to load plugin from " +:+ pluginPath +:+ ": "
                          +:+ noPluginFound pluginPath)))
    end /\
  (findPlugin pluginModule = None ->
   loadConfiguredPlugins [pluginPath] root filepath w =
     (w, inl (ConfigurationError
                ("Failed to load plugins: Failed to load plugin from "
                   +:+ pluginPath +:+ ": " +:+ noPluginFound pluginPath)
                (Some filepath)))).
Proof.
  intros Hm Hnd. split; [|split].
  - unfold findPlugin, claimedSearch.
    destruct (getExport pluginModule "default") as [[c|o|t]|] eqn:Hd.
    + reflexivity.
    + simpl. destruct (shapeCheck o) eqn:Hs; [reflexivity|].
      apply (searchExports_skips_default _ _ Hnd Hd). exact Hs.
    + simpl. apply (searchExports_skips_default _ _ Hnd Hd). reflexivity.
    + rewrite (searchExports_no_default _ Hd). reflexivity.
  - apply loadPlugin_run. exact Hm.
  - intros Hnone. unfold loadConfiguredPlugins, tryCatch. simpl. unfold bind.
    rewrite (loadPlugin_run _ _ _ _ Hm), Hnone. reflexivity.
Qed.

Lemma loadPlugin_searches_in_order_witness :
  exists plugin,
    findPlugin namedModule = Some plugin /\
    claimedSearch namedModule = Some plugin /\
    Plugin.name plugin = "named" /\
    loadPlugin "named.js" ["proj"] moduleWorld =
      (setRegistry (<[ "named" := plugin ]> ∅) moduleWorld, inr tt).
Proof.
  destruct (loadPlugin_searches_in_order "named.js" ["proj"] ".knowhubrc.json"
              moduleWorld namedModule) as (Hfind & Hload & _).
  - vm_compute. reflexivity.
  - repeat constructor; simpl; intuition discriminate.
  - eexists. split; [reflexivity|]. split; [reflexivity|]. split; [reflexivity|].
    rewrite Hload. reflexivity.
Defined.

(** * Worked runs *)

(** A resource placed as a symbolic link: the first run links the
    output to the source, the second run finds it, falls back to the
    comparison of copyFile and skips it as identical. *)
Example symlinked_resource_twice :
  let fr := localResource ["shared"; "a.md"] true true ["docs/link.md"] in
  let first := processFetchedResource fr ["proj"] false exampleWorld in
  let second := processFetchedResource fr ["proj"] false first.1 in
  first.2 = inr {| SyncResult.created := 1; SyncResult.updated := 0;
                   SyncResult.skipped := 0; SyncResult.errors := [] |} /\
  tree_of first.1 !! ["proj"; "docs"; "link.md"]
    = Some (Link false [".."; ".."; "shared"; "a.md"]) /\
  readFile (tree_of first.1) ["proj"; "docs"; "link.md"] = inr "X" /\
  second.2 = inr {| SyncResult.created := 0; SyncResult.updated := 0;
                    SyncResult.skipped := 1; SyncResult.errors := [] |} /\
  output second.1 =
    [(Success, "✓ Created: docs/link.md");
     symlinkWarning EEXIST ["proj"; "docs"; "link.md"];
     skippedIdentical "docs/link.md"].
Proof. vm_compute. repeat split. Qed.

(** The three scenarios of one local file placed at two outputs. *)
Example two_outputs_scenarios :
  let fr := localResource ["shared"; "a.md"] true false ["out1.md"; "out2.md"] in
  let fresh := exampleWorld in
  let identical := setTree (<[ ["proj"; "out1.md"] := File "X" ]> exampleTree)
                     exampleWorld in
  let different := setTree (<[ ["proj"; "out1.md"] := File "Y" ]> exampleTree)
                     exampleWorld in
  (processFetchedResource fr ["proj"] false fresh).2
    = inr {| SyncResult.created := 2; SyncResult.updated := 0;
             SyncResult.skipped := 0; SyncResult.errors := [] |} /\
  (processFetchedResource fr ["proj"] false identical).2
    = inr {| SyncResult.created := 1; SyncResult.updated := 0;
             SyncResult.skipped := 1; SyncResult.errors := [] |} /\
  (processFetchedResource fr ["proj"] false different).2
    = inr {| SyncResult.created := 1; SyncResult.updated := 1;
             SyncResult.skipped := 0; SyncResult.errors := [] |} /\
  readFile (tree_of (processFetchedResource fr ["proj"] false different).1)
    ["proj"; "out1.md"] = inr "X".
Proof. vm_compute. repeat split. Qed.

(** * Further properties of the filesystem primitives *)











(** ** What the engine does to the world

    Whatever relation between worlds is kept by mkdir, writeFile,
    symlink and by writing a line is kept by the whole placement
    engine, which acts on the world through nothing else. *)

Section Effects.

Variable R : world -> world -> Prop.
Hypothesis R_refl : forall w, R w w.
Hypothesis R_trans : forall w1 w2 w3, R w1 w2 -> R w2 w3 -> R w1 w3.
Hypothesis R_mkdir :
  forall w d m, mkdir (tree_of w) d = inr m -> R w (setTree m w).
Hypothesis R_writeFile :
  forall w p data m, writeFile (tree_of w) p data = inr m -> R w (setTree m w).
Hypothesis R_symlink :
  forall w target p m,
    symlink (tree_of w) target p = inr m -> R w (setTree m w).
Hypothesis R_emit :
  forall w line, R w (setOutput (output w ++ [line]) w).

Lemma effects_pathExists p : keeps R (pathExists p).
Proof using R_refl.
  intros w w' r H. rewrite pathExists_run in H. inversion H; subst.
  apply R_refl.
Qed.

Lemma effects_ensureDirectoryExists d : keeps R (ensureDirectoryExists d).
Proof using R_refl R_mkdir.
  intros w w' r H. rewrite ensureDirectoryExists_run in H.
  destruct (mkdir (tree_of w) d) as [c|m] eqn:Hm.
  - destruct c; inversion H; subst; apply R_refl.
  - inversion H; subst. eapply R_mkdir; exact Hm.
Qed.


Lemma effects_copyWrite src dest :
  keeps R
    (fsWrite "copyfile" (twoPaths (showPath src) (showPath dest))
       (fun m => fsCopyFile m src dest)).
Proof using R_refl R_writeFile.
  intros w w' r H. unfold fsWrite in H.
  destruct (fsCopyFile (tree_of w) src dest) as [c|m] eqn:Hc.
  - inversion H; subst. apply R_refl.
  - inversion H; subst. unfold fsCopyFile in Hc.
    destruct (readFile (tree_of w) src); [discriminate|].
    eapply R_writeFile; exact Hc.
Qed.


Lemma effects_copyFile src dest overwrite : keeps R (copyFile src dest overwrite).
Proof using R_refl R_trans R_mkdir R_writeFile.
  unfold copyFile.
  apply keeps_bind; [exact R_trans|apply effects_pathExists|].
  intros exists_.
  assert (Hcopy : keeps R
            (ensureDirectoryExists (dirname dest);;
             fsWrite "copyfile" (twoPaths (showPath src) (showPath dest))
               (fun m => fsCopyFile m src dest);;
             if exists_ && overwrite then
               ret {| CopyResult.created := false; CopyResult.updated := true |}
             else
               ret {| CopyResult.created := true; CopyResult.updated := false |})).
  { apply keeps_bind; [exact R_trans|apply effects_ensureDirectoryExists|].
    intros _. apply keeps_bind; [exact R_trans|apply effects_copyWrite|].
    intros _. apply keeps_if; apply keeps_ret, R_refl. }
  apply keeps_if; [apply keeps_ret, R_refl|].
  apply keeps_if; [|exact Hcopy].
  apply keeps_bind; [exact R_trans|apply keeps_fsRead, R_refl|].
  intros a. apply keeps_bind; [exact R_trans|apply keeps_fsRead, R_refl|].
  intros b. apply keeps_if; [apply keeps_ret, R_refl|exact Hcopy].
Qed.


Lemma effects_copyEntries recurse srcDir destDir overwrite :
  (forall s d, keeps R (recurse s d)) ->
  forall entries created skipped,
    keeps R (copyEntries recurse srcDir destDir overwrite entries created skipped).
Proof using R_refl R_trans R_mkdir R_writeFile.
  intros Hrec. induction entries as [|[name entry] entries IH];
    intros created skipped; simpl.
  - apply keeps_ret, R_refl.
  - apply keeps_if; [|apply keeps_if].
    + apply keeps_bind; [exact R_trans|apply Hrec|]. intros r. apply IH.
    + apply keeps_bind; [exact R_trans|apply effects_copyFile|].
      intros r. apply keeps_if; apply IH.
    + apply IH.
Qed.

Lemma effects_copyDirectoryAt overwrite :
  forall depth srcDir destDir,
    keeps R (copyDirectoryAt depth srcDir destDir overwrite).
Proof using R_refl R_trans R_mkdir R_writeFile.
  induction depth as [|depth IH]; intros srcDir destDir; simpl.
  - apply keeps_throw, R_refl.
  - apply keeps_bind; [exact R_trans|apply effects_ensureDirectoryExists|].
    intros _. apply keeps_bind; [exact R_trans|apply keeps_fsRead, R_refl|].
    intros entries. apply effects_copyEntries. intros s d. apply IH.
Qed.








End Effects.

Lemma keepsEntries_refl m : keepsEntries m m.
Proof. intros q [d| |a t] H; eauto. Qed.

Lemma keepsEntries_trans m1 m2 m3 :
  keepsEntries m1 m2 -> keepsEntries m2 m3 -> keepsEntries m1 m3.
Proof.
  intros H1 H2 q n Hq. specialize (H1 q n Hq).
  destruct n as [d| |a t].
  - destruct H1 as [d' H1]. apply (H2 q (File d') H1).
  - apply (H2 q Dir H1).
  - apply (H2 q (Link a t) H1).
Qed.

Lemma keepsEntries_insert_free m l n :
  nodeAt m l = None -> keepsEntries m (<[l := n]> m).
Proof.
  intros Hl q n' Hq.
  assert (Hne : l <> q).
  { intros ->. destruct q; [discriminate|]. simpl in Hl. congruence. }
  rewrite lookup_insert_ne by exact Hne.
  destruct n'; eauto.
Qed.

Lemma keepsEntries_insert_file m l data :
  plainAt m l -> keepsEntries m (<[l := File data]> m).
Proof.
  intros Hl q n' Hq. rewrite lookup_insert.
  destruct (decide (l = q)) as [->|Hne].
  - unfold plainAt in Hl. rewrite Hq in Hl.
    destruct n'; [eauto|contradiction|contradiction].
  - destruct n'; eauto.
Qed.

Lemma mkdirFrom_keepsEntries :
  forall todo done m m', mkdirFrom m done todo = inr m' -> keepsEntries m m'.
Proof.
  induction todo as [|c todo IH]; intros done m m' H; simpl in H.
  - inversion H. apply keepsEntries_refl.
  - destruct (mkdirStep (isNil todo) m (done ++ [c])) as [e|m1] eqn:Hstep;
      [discriminate|].
    eapply keepsEntries_trans; [|eapply IH; exact H].
    unfold mkdirStep in Hstep.
    destruct (stat m (done ++ [c])) as [e|[d| |a t]]; try discriminate.
    + destruct (linkpath m (done ++ [c])) as [e'|l]; [discriminate|].
      destruct (nodeAt m l) eqn:Hl; [discriminate|].
      inversion Hstep. apply keepsEntries_insert_free. exact Hl.
    + inversion Hstep. apply keepsEntries_refl.
Qed.

Lemma writeFile_keepsEntries m p data m' :
  writeFile m p data = inr m' -> keepsEntries m m'.
Proof.
  intros H. destruct (writeFile_spec _ _ _ _ H) as (q & _ & _ & Hp & ->).
  apply keepsEntries_insert_file. exact Hp.
Qed.






(** X3: copyDirectory changes nothing but the file tree.  It adds no
    symbolic link (the links of the source are skipped), removes no
    entry, and every entry keeps its kind: only the bytes of regular
    files change and new directories and files appear.  This holds
    whether it returns or throws. *)
Theorem copyDirectory_only_adds_and_rewrites
  (srcDir destDir : path) (overwrite : bool) (w w' : world)
  (r : jsError + DirResult.t) :
  copyDirectory srcDir destDir overwrite w = (w', r) ->
  w' = setTree (tree_of w') w /\
  noNewLinks (tree_of w) (tree_of w') /\
  keepsEntries (tree_of w) (tree_of w').
Proof.
  intros H.
  destruct (copyOnly_copyDirectoryAt overwrite DEPTH_MAX srcDir destDir w w' r H)
    as [Hw Hl].
  split; [exact Hw|]. split; [exact Hl|].
  revert H. unfold copyDirectory.
  apply (effects_copyDirectoryAt
           (fun w w' => keepsEntries (tree_of w) (tree_of w'))).
  - intros w0. apply keepsEntries_refl.
  - intros w1 w2 w3. apply keepsEntries_trans.
  - intros w0 d m Hm. rewrite tree_of_setTree.
    eapply mkdirFrom_keepsEntries; exact Hm.
  - intros w0 p data m Hm. rewrite tree_of_setTree.
    eapply writeFile_keepsEntries; exact Hm.
Qed.

Lemma copyDirectory_only_adds_and_rewrites_witness :
  let run := copyDirectory ["shared"] ["proj"; "copy"] true exampleWorld in
  run.2 = inr {| DirResult.created := 1; DirResult.skipped := 0 |} /\
  run.1 = setTree (tree_of run.1) exampleWorld /\
  noNewLinks exampleTree (tree_of run.1) /\
  keepsEntries exampleTree (tree_of run.1).
Proof.
  intros run. split; [vm_compute; reflexivity|].
  apply (copyDirectory_only_adds_and_rewrites ["shared"] ["proj"; "copy"] true
           exampleWorld run.1 run.2).
  apply surjective_pairing.
Defined.



(** lstat finds a link that was created where it found nothing. *)
Lemma walk_nofollow_new_link m l a t :
  nodeAt m l = None ->
  forall fuel cur rest,
    walk false m fuel cur rest = inr l ->
    walk false (<[l := Link a t]> m) fuel cur rest = inr l.
Proof.
  intros Hfree fuel.
  induction fuel as [fuel IHf] using lt_wf_ind.
  intros cur rest. revert cur.
  induction rest as [|c rest IHr]; intros cur Hw.
  - rewrite walk_nil in *. exact Hw.
  - rewrite walk_cons in *.
    destruct (nodeAt m cur) as [[d| |a' t']|] eqn:Hcur; try discriminate.
    assert (Hcur' : nodeAt (<[l := Link a t]> m) cur = Some Dir).
    { rewrite nodeAt_insert. destruct cur as [|c0 cur0]; [reflexivity|].
      destruct (decide (l = c0 :: cur0)) as [->|]; [congruence|exact Hcur]. }
    rewrite Hcur'.
    destruct (String.eqb c "."); [eauto|].
    destruct (String.eqb c ".."); [eauto|].
    rewrite lookup_insert.
    destruct (decide (l = cur ++ [c])) as [->|Hne].
    + rewrite nodeAt_snoc in Hfree. rewrite Hfree in Hw.
      destruct rest as [|c' rest']; [reflexivity|].
      rewrite walk_cons, nodeAt_snoc, Hfree in Hw. discriminate.
    + destruct (m !! (cur ++ [c])) as [[d| |a' t']|] eqn:Hp;
        try (apply IHr; assumption).
      destruct (negb false && isNil rest); [exact Hw|].
      destruct fuel as [|f]; [discriminate|].
      apply IHf; [lia|exact Hw].
Qed.

Lemma symlink_spec m target p m' :
  symlink m target p = inr m' ->
  exists l, linkpath m p = inr l /\ nodeAt m l = None /\
            m' = <[l := Link false target]> m /\
            linkpath m' p = inr l /\ m' !! l = Some (Link false target).
Proof.
  unfold symlink. destruct (isNil target); [discriminate|].
  destruct (linkpath m p) as [e|l] eqn:Hl; [discriminate|].
  destruct (nodeAt m l) eqn:Hn; [discriminate|].
  intros H. inversion H; subst m'; clear H. exists l.
  split; [reflexivity|]. split; [exact Hn|]. split; [reflexivity|].
  split; [|apply lookup_insert_eq].
  unfold linkpath in *. apply walk_nofollow_new_link; assumption.
Qed.

(** X5: when symlinkOrCopy reports usedSymlink = true, the destination
    did not exist before the call, the result is created = true and
    updated = false (the result updated = true with usedSymlink = true
    is never returned), no line was written, and the destination is now
    a symbolic link whose target is the source relative to the
    directory of the destination. *)
Theorem symlinkOrCopy_link_created
  (src dest : path) (overwrite isDir : bool) (w w' : world) (r : LinkResult.t) :
  symlinkOrCopy src dest overwrite isDir w = (w', inr r) ->
  LinkResult.usedSymlink r = true ->
  r = {| LinkResult.created := true; LinkResult.updated := false;
         LinkResult.usedSymlink := true |} /\
  succeeds (stat (tree_of w) dest) = false /\
  w' = setTree (tree_of w') w /\
  exists l,
    linkpath (tree_of w') dest = inr l /\
    tree_of w' !! l = Some (Link false (relative (dirname dest) src)).
Proof.
  unfold symlinkOrCopy, bind at 1. rewrite pathExists_run.
  destruct (succeeds (stat (tree_of w) dest)) eqn:Hex.
  - (* the destination exists: no link can be made *)
    destruct (stat (tree_of w) dest) as [e|n] eqn:Hst; [discriminate|].
    destruct overwrite; simpl.
    + unfold bind at 1. rewrite (ensureDirectoryExists_existing _ _ _ Hst).
      unfold tryCatch, bind at 1, currentPlatform. unfold bind at 1.
      rewrite fsSymlink_run.
      destruct (linkAttempt_exists (machine w) (relative (dirname dest) src)
                  dest n Hst) as [c ->].
      intros H Hused. apply copyFallback_not_symlink in H. congruence.
    + intros H Hused. inversion H; subst. discriminate.
  - simpl. unfold bind at 1.
    destruct (ensureDirectoryExists (dirname dest) w) as [w1 [e|[]]] eqn:Hdir;
      [discriminate|].
    unfold tryCatch, bind at 1, currentPlatform. unfold bind at 1.
    rewrite fsSymlink_run.
    destruct (linkAttempt (machine w1) (relative (dirname dest) src) dest)
      as [c|m] eqn:Hlink.
    + intros H Hused. apply copyFallback_not_symlink in H. congruence.
    + intros H _. inversion H; subst; clear H.
      split; [reflexivity|]. split; [reflexivity|].
      rewrite tree_of_setTree.
      split.
      * destruct (copyOnly_ensureDirectoryExists _ _ _ _ Hdir) as [-> _].
        reflexivity.
      * unfold linkAttempt in Hlink.
        destruct (symlinkRefusal (machine w1)); [discriminate|].
        destruct (symlink_spec _ _ _ _ Hlink) as (l & _ & _ & _ & Hl & Hn).
        exists l. split; assumption.
Qed.

Lemma symlinkOrCopy_link_created_witness :
  let run := symlinkOrCopy ["shared"; "a.md"] ["proj"; "link.md"] true false
               exampleWorld in
  run.2 = inr {| LinkResult.created := true; LinkResult.updated := false;
                 LinkResult.usedSymlink := true |} /\
  succeeds (stat exampleTree ["proj"; "link.md"]) = false /\
  run.1 = setTree (tree_of run.1) exampleWorld /\
  exists l,
    linkpath (tree_of run.1) ["proj"; "link.md"] = inr l /\
    tree_of run.1 !! l = Some (Link false [".."; "shared"; "a.md"]).
Proof.
  intros run.
  destruct (symlinkOrCopy_link_created ["shared"; "a.md"] ["proj"; "link.md"]
              true false exampleWorld run.1
              {| LinkResult.created := true; LinkResult.updated := false;
                 LinkResult.usedSymlink := true |})
    as (_ & Hst & Hw & Hl).
  - apply run_pair. vm_compute. reflexivity.
  - reflexivity.
  - split; [vm_compute; reflexivity|]. split; [exact Hst|].
    split; [exact Hw|exact Hl].
Defined.

(** * Further properties of the plugin registry *)

(** X6: register(plugin) stores the plugin under its name: resolve of
    that name then returns it and has is true, every other name
    resolves as before, and the size grows by one exactly when the name
    was not registered; registering under a name that is taken replaces
    the plugin and keeps the size. *)
Theorem register_overwrites_by_name (plugin : Plugin.t) (w : world) :
  let w1 := (register plugin w).1 in
  (register plugin w).2 = inr tt /\
  resolvePlugin (Plugin.name plugin) w1 = (w1, inr plugin) /\
  has (Plugin.name plugin) w1 = (w1, inr true) /\
  (forall n,
      n <> Plugin.name plugin ->
      (resolvePlugin n w1).2 = (resolvePlugin n w).2 /\
      (has n w1).2 = (has n w).2) /\
  size w1 =
    (w1, inr (if bool_decide (is_Some (registry w !! Plugin.name plugin))
              then base.size (registry w)
              else S (base.size (registry w)))).
Proof.
  simpl. split; [reflexivity|].
  unfold resolvePlugin, has, size. simpl.
  rewrite lookup_insert_eq.
  split; [reflexivity|].
  split; [rewrite bool_decide_eq_true_2 by eauto; reflexivity|].
  split.
  - intros n Hn. rewrite lookup_insert_ne by congruence.
    split; [|reflexivity].
    destruct (registry w !! n); reflexivity.
  - f_equal. f_equal. rewrite map_size_insert.
    destruct (registry w !! Plugin.name plugin) eqn:Hl.
    + rewrite bool_decide_eq_true_2 by eauto. reflexivity.
    + rewrite bool_decide_eq_false_2; [reflexivity|].
      intros [x Hx]. discriminate.
Qed.

Lemma register_overwrites_by_name_witness :
  let first := constantPlugin "good" (inr (textResult "one")) in
  let second := constantPlugin "good" (inr (textResult "two")) in
  let w1 := (register first exampleWorld).1 in
  let w2 := (register second w1).1 in
  resolvePlugin "good" w2 = (w2, inr second) /\
  (resolvePlugin "other" w2).2 = inl (PluginNotFoundError "other") /\
  (size w1).2 = inr 1 /\ (size w2).2 = inr 1.
Proof.
  intros first second w1 w2.
  destruct (register_overwrites_by_name second w1)
    as (_ & Hres & _ & Hother & Hsize).
  split; [exact Hres|].
  split.
  { transitivity ((resolvePlugin "other" w1).2);
      [exact (proj1 (Hother "other" ltac:(discriminate)))|reflexivity]. }
  split; [vm_compute; reflexivity|].
  transitivity (size (register second w1).1).2; [reflexivity|].
  rewrite Hsize. vm_compute. reflexivity.
Defined.

(** X7: unregister(name) returns whether the name was registered;
    afterwards has is false, resolve throws PluginNotFoundError for that
    name, every other name resolves as before, and a second unregister
    returns false.  After clear the registry has size 0 and no name
    resolves. *)
Theorem unregister_and_clear (name : string) (w : world) :
  let w1 := (unregister name w).1 in
  (unregister name w).2 = (has name w).2 /\
  has name w1 = (w1, inr false) /\
  resolvePlugin name w1 = (w1, inl (PluginNotFoundError name)) /\
  (forall n, n <> name -> (resolvePlugin n w1).2 = (resolvePlugin n w).2) /\
  unregister name w1 = (w1, inr false) /\
  size w1 =
    (w1, inr (if bool_decide (is_Some (registry w !! name))
              then pred (base.size (registry w))
              else base.size (registry w))) /\
  (let w0 := (clear w).1 in
   size w0 = (w0, inr 0) /\
   forall n, resolvePlugin n w0 = (w0, inl (PluginNotFoundError n))).
Proof.
  simpl. split; [reflexivity|].
  unfold resolvePlugin, has, size, unregister. simpl.
  rewrite lookup_delete_eq.
  assert (Hno : bool_decide (is_Some (@None Plugin.t)) = false).
  { apply bool_decide_eq_false_2. intros [x Hx]. discriminate. }
  split; [rewrite Hno; reflexivity|].
  split; [reflexivity|].
  split.
  { intros n Hn. rewrite lookup_delete_ne by congruence.
    destruct (registry w !! n); reflexivity. }
  split.
  { rewrite Hno. unfold setRegistry. simpl. rewrite delete_delete_eq. reflexivity. }
  split.
  { f_equal. f_equal. rewrite map_size_delete.
    destruct (registry w !! name) eqn:Hl.
    - rewrite bool_decide_eq_true_2 by eauto. reflexivity.
    - rewrite bool_decide_eq_false_2; [reflexivity|].
      intros [x Hx]. discriminate. }
  split.
  - rewrite map_size_empty. reflexivity.
  - intros n. rewrite lookup_empty. reflexivity.
Qed.

Lemma unregister_and_clear_witness :
  (unregister "good" pluginWorld).2 = inr true /\
  (unregister "absent" pluginWorld).2 = inr false /\
  (let w1 := (unregister "good" pluginWorld).1 in
   (resolvePlugin "good" w1).2 = inl (PluginNotFoundError "good") /\
   (has "relay" w1).2 = inr true /\ (size w1).2 = inr 3).
Proof.
  destruct (unregister_and_clear "good" pluginWorld)
    as (Hret & _ & Hres & _ & _ & Hsize & _).
  split; [rewrite Hret; vm_compute; reflexivity|].
  split; [vm_compute; reflexivity|].
  intros w1.
  split; [exact (f_equal snd Hres)|].
  split; [vm_compute; reflexivity|].
  transitivity (size (unregister "good" pluginWorld).1).2; [reflexivity|].
  rewrite Hsize. vm_compute. reflexivity.
Defined.

Lemma unitsLe_total : forall a b, unitsLe a b = true \/ unitsLe b a = true.
Proof.
  induction a as [|x a IH]; intros [|y b]; simpl; auto.
  destruct (N.ltb_spec x y), (N.ltb_spec y x); auto; lia.
Qed.

Lemma unitsLe_trans :
  forall a b c, unitsLe a b = true -> unitsLe b c = true -> unitsLe a c = true.
Proof.
  induction a as [|x a IH]; intros [|y b] [|z c]; simpl; try congruence.
  destruct (N.ltb_spec x y), (N.ltb_spec y x), (N.ltb_spec y z),
    (N.ltb_spec z y), (N.ltb_spec x z), (N.ltb_spec z x);
    try congruence; try lia.
  apply IH.
Qed.

Lemma codeUnitLe_total : Total codeUnitLe.
Proof. intros a b. apply unitsLe_total. Qed.

Lemma codeUnitLe_trans : Transitive codeUnitLe.
Proof. intros a b c. apply unitsLe_trans. Qed.

Lemma listAvailable_run w :
  exists names,
    listAvailable w = (w, inr names) /\
    StronglySorted codeUnitLe names /\
    NoDup names /\
    forall n, n ∈ names <-> is_Some (registry w !! n).
Proof.
  exists (merge_sort codeUnitLe (map fst (map_to_list (registry w)))).
  split; [reflexivity|].
  split;
    [apply (@StronglySorted_merge_sort _ codeUnitLe _ codeUnitLe_trans
              codeUnitLe_total)|].
  split.
  - rewrite merge_sort_Permutation. apply NoDup_fst_map_to_list.
  - intros n. rewrite merge_sort_Permutation.
    rewrite list_elem_of_fmap. split.
    + intros ([k p] & -> & Hin). apply elem_of_map_to_list in Hin. eauto.
    + intros [p Hp]. exists (n, p). split; [reflexivity|].
      apply elem_of_map_to_list. exact Hp.
Qed.

(** X8: listAvailable returns the registered names, each once, in the
    order sort() gives them: ascending by UTF-16 code units, every name
    before all the names that follow it; and it leaves the registry as
    it is. *)
Theorem listAvailable_sorted_names (w : world) :
  exists names,
    listAvailable w = (w, inr names) /\
    StronglySorted codeUnitLe names /\
    NoDup names /\
    forall n, n ∈ names <-> has n w = (w, inr true).
Proof.
  destruct (listAvailable_run w) as (names & Hrun & Hsorted & Hnodup & Hin).
  exists names. split; [exact Hrun|]. split; [exact Hsorted|].
  split; [exact Hnodup|].
  intros n. rewrite Hin. unfold has. split.
  - intros Hn. rewrite bool_decide_eq_true_2 by exact Hn. reflexivity.
  - intros H. inversion H as [Hb]. apply bool_decide_eq_true_1 in Hb. exact Hb.
Qed.

Lemma listAvailable_sorted_names_witness :
  (listAvailable unicodeWorld).2 = inr ["z"; "é"; "😀"; "～"] /\
  merge_sort String.le ["z"; "é"; "😀"; "～"] = ["z"; "é"; "～"; "😀"] /\
  codeUnits "😀" = [55357%N; 56832%N] /\ codeUnits "～" = [65374%N].
Proof.
  destruct (listAvailable_sorted_names unicodeWorld)
    as (names & Hrun & _ & _ & _).
  split; [|vm_compute; repeat split].
  rewrite Hrun. simpl. apply (f_equal snd) in Hrun. vm_compute in Hrun.
  injection Hrun as <-. reflexivity.
Defined.













(** * Further properties of the placement engine *)

Lemma symlinkOrCopy_flags src dest overwrite isDir w w' r :
  symlinkOrCopy src dest overwrite isDir w = (w', inr r) ->
  LinkResult.created r && LinkResult.updated r = false.
Proof.
  unfold symlinkOrCopy, bind at 1. rewrite pathExists_run.
  set (exists_ := succeeds (stat (tree_of w) dest)).
  destruct (exists_ && negb overwrite).
  - intros H. inversion H. reflexivity.
  - unfold bind at 1.
    destruct (ensureDirectoryExists (dirname dest) w) as [w1 [e|[]]];
      [discriminate|].
    unfold tryCatch, bind at 1, currentPlatform. unfold bind at 1.
    rewrite fsSymlink_run.
    destruct (linkAttempt (machine w1) (relative (dirname dest) src) dest)
      as [c|m].
    + rewrite copyFallback_run. cbv zeta. destruct isDir.
      * destruct (copyDirectory src dest overwrite _) as [w2 [e|res]];
          [discriminate|].
        intros H. inversion H. simpl.
        destruct (0 <? DirResult.created res), exists_; reflexivity.
      * destruct (copyFile src dest overwrite _) as [w2 [e|res]] eqn:Hc;
          [discriminate|].
        intros H. inversion H. simpl.
        destruct (copyFile_inv _ _ _ _ _ _ Hc)
          as [[-> _]|(m1 & m2 & _ & _ & _ & [->| ->])]; reflexivity.
    + destruct (exists_ && overwrite); intros H; inversion H; reflexivity.
Qed.

Lemma countOf_flags (a b : bool) :
  a && b = false -> countOf a + countOf b <= 1.
Proof. destruct a, b; simpl; intros; try discriminate; lia. Qed.

(** Whatever is placed as one entry counts as at most one output. *)
Lemma placeResourceAtOutput_one fr dest w w' result :
  placedAsOne fr ->
  placeResourceAtOutput fr dest w = (w', inr result) ->
  PlaceResult.created result + PlaceResult.updated result <= 1.
Proof.
  intros Hone. unfold placeResourceAtOutput.
  destruct (FetchedResource.content fr) as [content|] eqn:Hc.
  - unfold bind.
    destruct (writeTextFile dest content _ w) as [w1 [e|r]] eqn:Hw;
      [discriminate|].
    intros H. inversion H; subst; clear H. simpl.
    destruct (writeTextFile_inv _ _ _ _ _ _ Hw)
      as [[-> _]|(m1 & m2 & _ & _ & [->| ->])]; simpl; lia.
  - destruct Hone as [[c Hsome]|[[lp Hlp] Hkind]]; [congruence|].
    rewrite Hlp.
    assert (Hlink : forall isDir w1 r,
               symlinkOrCopy lp dest
                 (ValidatedResource.overwrite (FetchedResource.definition fr))
                 isDir w = (w1, inr r) ->
               countOf (LinkResult.created r) + countOf (LinkResult.updated r)
                 <= 1).
    { intros isDir w1 r Hr. apply countOf_flags.
      eapply symlinkOrCopy_flags; exact Hr. }
    assert (Hfile : forall w1 r,
               copyFile lp dest
                 (ValidatedResource.overwrite (FetchedResource.definition fr))
                 w = (w1, inr r) ->
               countOf (CopyResult.created r) + countOf (CopyResult.updated r)
                 <= 1).
    { intros w1 r Hr.
      destruct (copyFile_inv _ _ _ _ _ _ Hr)
        as [[-> _]|(m1 & m2 & _ & _ & _ & [->| ->])]; simpl; lia. }
    destruct (FetchedResource.isDirectory fr) eqn:Hdir.
    + destruct Hkind as [Hkind|Hkind]; [discriminate|]. rewrite Hkind.
      unfold bind.
      destruct (symlinkOrCopy lp dest _ true w) as [w1 [e|r]] eqn:Hr;
        [discriminate|].
      intros H. inversion H; subst; clear H. simpl. eapply Hlink; exact Hr.
    + destruct (wantsSymlink fr); unfold bind.
      * destruct (symlinkOrCopy lp dest _ false w) as [w1 [e|r]] eqn:Hr;
          [discriminate|].
        intros H. inversion H; subst; clear H. simpl. eapply Hlink; exact Hr.
      * destruct (copyFile lp dest _ w) as [w1 [e|r]] eqn:Hr; [discriminate|].
        intros H. inversion H; subst; clear H. simpl.
        apply (Hfile w' r eq_refl).
Qed.

Lemma accounted_counted acc result :
  PlaceResult.created result + PlaceResult.updated result <= 1 ->
  accounted (counted acc result) = S (accounted acc).
Proof.
  unfold accounted, counted. simpl. intros H.
  destruct (PlaceResult.created result) as [|[|c]],
           (PlaceResult.updated result) as [|[|u]]; simpl in *; lia.
Qed.

Lemma accounted_withError acc msg :
  accounted (withError acc msg) = S (accounted acc).
Proof.
  unfold accounted, withError. simpl. rewrite length_app. simpl. lia.
Qed.

Lemma processOutputs_accounted fr root :
  placedAsOne fr ->
  forall outputs acc w w' r,
    processOutputs fr root false outputs acc w = (w', inr r) ->
    accounted r = accounted acc + length outputs.
Proof.
  intros Hone. induction outputs as [|o outputs IH]; intros acc w w' r H.
  - inversion H; subst. simpl. lia.
  - simpl in H. unfold bind in H. rewrite processOutput_run in H.
    destruct (placeResourceAtOutput fr (resolve root o) w)
      as [w1 [e|result]] eqn:Hp.
    + apply IH in H. rewrite H, accounted_withError. simpl. lia.
    + apply IH in H. rewrite H, accounted_counted; [simpl; lia|].
      eapply placeResourceAtOutput_one; eassumption.
Qed.

(** X11: every output of a resource that is placed as one entry (a
    text, a file, or a symbolic link with its copy fallback) is
    accounted for exactly once: after processFetchedResource the sum of
    created, updated, skipped and the number of errors is the number of
    outputs of the resource. *)
Theorem every_output_is_accounted_once
  (fr : FetchedResource.t) (root : path) (w w' : world) (r : SyncResult.t) :
  placedAsOne fr ->
  processFetchedResource fr root false w = (w', inr r) ->
  accounted r
    = length (ValidatedResource.outputs (FetchedResource.definition fr)).
Proof.
  intros Hone H. unfold processFetchedResource in H.
  apply (processOutputs_accounted fr root Hone) in H. exact H.
Qed.

Lemma every_output_is_accounted_once_witness :
  let fr := localResource ["shared"; "a.md"] true true
              ["link.md"; "old.md"; "same.md"; "old.md/below"] in
  let run := processFetchedResource fr ["proj"] false exampleWorld in
  run.2 = inr {| SyncResult.created := 1; SyncResult.updated := 1;
                 SyncResult.skipped := 1;
                 SyncResult.errors :=
                   [failureMessage "old.md/below"
                      (bothFailed ["proj"; "old.md"; "below"])] |} /\
  accounted (match run.2 with inr r => r | inl _ => noResult end) = 4.
Proof.
  intros fr run.
  assert (Hrun : run.2 =
            inr {| SyncResult.created := 1; SyncResult.updated := 1;
                   SyncResult.skipped := 1;
                   SyncResult.errors :=
                     [failureMessage "old.md/below"
                        (bothFailed ["proj"; "old.md"; "below"])] |}).
  { vm_compute. reflexivity. }
  split; [exact Hrun|]. rewrite Hrun.
  apply (every_output_is_accounted_once fr ["proj"] exampleWorld run.1).
  - right. split; [eexists; reflexivity|left; reflexivity].
  - apply run_pair. exact Hrun.
Defined.

Lemma processOutputs_missingLocalPath fr root :
  FetchedResource.content fr = None ->
  FetchedResource.localPath fr = None ->
  forall outputs acc w,
    processOutputs fr root false outputs acc w =
    (logged (map (fun o => failureLine o missingLocalPath) outputs) w,
     inr {| SyncResult.created := SyncResult.created acc;
            SyncResult.updated := SyncResult.updated acc;
            SyncResult.skipped := SyncResult.skipped acc;
            SyncResult.errors :=
              SyncResult.errors acc
                ++ map (fun o => failureMessage o missingLocalPath) outputs |}).
Proof.
  intros Hc Hl. induction outputs as [|o outputs IH]; intros acc w.
  - simpl. rewrite logged_nil, app_nil_r. destruct acc. reflexivity.
  - simpl. unfold bind. rewrite processOutput_run.
    unfold placeResourceAtOutput. rewrite Hc, Hl. unfold throw.
    rewrite IH. unfold withError, failureLine. simpl.
    rewrite <- app_assoc. simpl.
    rewrite logged_emitted. reflexivity.
Qed.

(** X12: a fetched resource with neither content nor localPath places
    nothing: every output fails with "Local path is undefined for local
    resource", the failure is logged and listed once per output, in
    order, nothing is counted, and the world is otherwise untouched. *)
Theorem missing_localPath_fails_every_output
  (fr : FetchedResource.t) (root : path) (w : world) :
  FetchedResource.content fr = None ->
  FetchedResource.localPath fr = None ->
  let outputs := ValidatedResource.outputs (FetchedResource.definition fr) in
  processFetchedResource fr root false w =
  (logged (map (fun o => failureLine o missingLocalPath) outputs) w,
   inr (countsOnly (map (fun o => failureMessage o missingLocalPath) outputs))).
Proof.
  intros Hc Hl outputs. unfold processFetchedResource.
  rewrite (processOutputs_missingLocalPath fr root Hc Hl). reflexivity.
Qed.

Lemma missing_localPath_fails_every_output_witness :
  let fr := fetchedFrom (resourceOf "empty" ["a.md"; "b.md"])
              {| PluginResult.content := None; PluginResult.localPath := None;
                 PluginResult.isDirectory := None;
                 PluginResult.metadata := None |} in
  processFetchedResource fr ["proj"] false exampleWorld =
  (logged [failureLine "a.md" missingLocalPath;
           failureLine "b.md" missingLocalPath] exampleWorld,
   inr (countsOnly [failureMessage "a.md" missingLocalPath;
                    failureMessage "b.md" missingLocalPath])).
Proof.
  intros fr.
  apply (missing_localPath_fails_every_output fr ["proj"] exampleWorld);
    reflexivity.
Defined.

(** X13: everything runSync does after reading process.cwd() lies in
    one try statement whose catch block returns, so once process.cwd()
    has given the project root, runSync does not throw: it returns a
    result for every project root and every world.  When loading the
    configuration or fetching any resource fails, it logs "Error:
    <message>" and returns zero counts with that message as the only
    error, and no output is placed: the world is the one the failed stage
    left plus that line.  Otherwise its result is the one of the
    placement loop, and the summary it prints afterwards only appends
    lines. *)
Theorem runSync_returns_after_cwd
  (loadConfig : option string -> path -> M (list ValidatedResource.t))
  (configPath : option string) (dryRun : bool) :
  runSync loadConfig configPath dryRun =
    (let! projectRoot := currentDirectory in
     runSyncIn loadConfig configPath dryRun projectRoot) /\
  forall (projectRoot : path) (w : world),
    (exists w' result,
        runSyncIn loadConfig configPath dryRun projectRoot w
          = (w', inr result)) /\
    (forall w1 e,
        fetchStageIn loadConfig configPath projectRoot w = (w1, inl e) ->
        runSyncIn loadConfig configPath dryRun projectRoot w =
        (emitted (ErrorLog, "Error: " +:+ formatError e) w1,
         inr (countsOnly [formatError e]))) /\
    (forall w1 fetchedResources,
        fetchStageIn loadConfig configPath projectRoot w
          = (w1, inr fetchedResources) ->
        exists w2 result lines,
          placeAll fetchedResources projectRoot dryRun noResult w1
            = (w2, inr result) /\
          runSyncIn loadConfig configPath dryRun projectRoot w
            = (logged lines w2, inr result)).
Proof.
  split; [reflexivity|]. intros projectRoot w.
  assert (Hok : forall w1 fetchedResources,
             fetchStageIn loadConfig configPath projectRoot w
               = (w1, inr fetchedResources) ->
             exists w2 result lines,
               placeAll fetchedResources projectRoot dryRun noResult w1
                 = (w2, inr result) /\
               runSyncIn loadConfig configPath dryRun projectRoot w
                 = (logged lines w2, inr result)).
  { intros w1 frs Hstage.
    destruct (placeAll_returns projectRoot dryRun frs noResult w1)
      as (w2 & result & Hplace).
    destruct (printSummary_logsOnly result dryRun) as (lines & [] & Hp).
    exists w2, result, lines. split; [exact Hplace|].
    unfold runSyncIn. rewrite Hstage, Hplace.
    unfold tryCatch, bind, ret. rewrite Hp. reflexivity. }
  assert (Hfail : forall w1 e,
             fetchStageIn loadConfig configPath projectRoot w = (w1, inl e) ->
             runSyncIn loadConfig configPath dryRun projectRoot w =
             (emitted (ErrorLog, "Error: " +:+ formatError e) w1,
              inr (countsOnly [formatError e]))).
  { intros w1 e Hstage. unfold runSyncIn. rewrite Hstage. reflexivity. }
  split; [|split; [exact Hfail|exact Hok]].
  destruct (fetchStageIn loadConfig configPath projectRoot w)
    as [w1 [e|frs]] eqn:Hstage.
  - rewrite (Hfail _ _ eq_refl). eauto.
  - destruct (Hok _ _ eq_refl) as (w2 & result & lines & _ & ->). eauto.
Qed.

Lemma runSync_returns_after_cwd_witness :
  let failing := fun (_ : option string) (_ : path) =>
                   ret [resourceOf "good" ["a.md"];
                        resourceOf "failing" ["b.md"]] in
  let good := fun (_ : option string) (_ : path) =>
                ret [resourceOf "good" ["a.md"]] in
  (runSyncIn failing None false ["proj"] pluginWorld).2
    = inr (countsOnly ["Failed to fetch with plugin " +:+ quote "failing"
                         +:+ ": Plugin " +:+ quote "failing" +:+ ": boom"]) /\
  stat (tree_of (runSyncIn failing None false ["proj"] pluginWorld).1)
    ["proj"; "a.md"] = inl ENOENT /\
  (runSyncIn good None false ["proj"] pluginWorld).2
    = inr {| SyncResult.created := 1; SyncResult.updated := 0;
             SyncResult.skipped := 0; SyncResult.errors := [] |} /\
  (runSync good None false pluginWorld).2
    = (runSyncIn good None false ["proj"] pluginWorld).2.
Proof.
  intros failing good.
  destruct (proj2 (runSync_returns_after_cwd failing None false) ["proj"]
              pluginWorld) as (_ & Hfail & _).
  destruct (proj2 (runSync_returns_after_cwd good None false) ["proj"]
              pluginWorld) as (_ & _ & Hok).
  split; [|split; [|split]].
  - rewrite (Hfail (fetchStageIn failing None ["proj"] pluginWorld).1
               (ResourceError
                  ("Failed to fetch with plugin " +:+ quote "failing"
                     +:+ ": Plugin " +:+ quote "failing" +:+ ": boom")
                  (Some "failing"))).
    + reflexivity.
    + apply run_pair. vm_compute. reflexivity.
  - rewrite (Hfail (fetchStageIn failing None ["proj"] pluginWorld).1
               (ResourceError
                  ("Failed to fetch with plugin " +:+ quote "failing"
                     +:+ ": Plugin " +:+ quote "failing" +:+ ": boom")
                  (Some "failing"))).
    + vm_compute. reflexivity.
    + apply run_pair. vm_compute. reflexivity.
  - destruct (Hok (fetchStageIn good None ["proj"] pluginWorld).1
                [fetchedFrom (resourceOf "good" ["a.md"]) (textResult "hello")])
      as (w2 & result & lines & Hplace & ->).
    + apply run_pair. vm_compute. reflexivity.
    + assert (Hr := f_equal (fun x : world * (jsError * SyncResult.t + SyncResult.t) =>
                               match x.2 with
                               | inr r => r
                               | inl (_, r) => r
                               end) Hplace).
      simpl in Hr. simpl. rewrite <- Hr. vm_compute. reflexivity.
  - rewrite (proj1 (runSync_returns_after_cwd good None false)). reflexivity.
Defined.

(** * Properties of the validators *)

Lemma validateEachOutput_good resourcePath :
  forall outs i acc w,
    Forall (fun s => s <> EmptyString) outs ->
    validateEachOutput resourcePath (map UString outs) i acc w
      = (w, inr (acc ++ outs)).
Proof.
  induction outs as [|s outs IH]; intros i acc w Hall; simpl.
  - rewrite app_nil_r. reflexivity.
  - inversion Hall as [|? ? Hs Hrest]; subst.
    destruct (String.eqb_spec s EmptyString) as [|_]; [contradiction|].
    rewrite IH by exact Hrest. rewrite <- app_assoc. reflexivity.
Qed.

Lemma validateEachOutput_bad resourcePath bad rest :
  goodOutput bad = false ->
  forall good i acc w,
    Forall (fun s => s <> EmptyString) good ->
    validateEachOutput resourcePath (map UString good ++ bad :: rest) i acc w
      = (w, inl (outputError resourcePath (i + length good))).
Proof.
  intros Hbad. induction good as [|s good IH]; intros i acc w Hall; simpl.
  - rewrite Nat.add_0_r. unfold outputError.
    destruct bad as [| | | |s| |]; try reflexivity.
    simpl in Hbad. destruct (String.eqb s EmptyString); [reflexivity|discriminate].
  - inversion Hall as [|? ? Hs Hrest]; subst.
    destruct (String.eqb_spec s EmptyString) as [|_]; [contradiction|].
    rewrite IH by exact Hrest. rewrite Nat.add_succ_r. reflexivity.
Qed.

(** Every list of values is a run of good elements, followed by
    nothing or by a first bad one. *)
Lemma outputs_split (items : list unknown) :
  (exists outs,
      items = map UString outs /\ Forall (fun s => s <> EmptyString) outs) \/
  (exists good bad rest,
      items = map UString good ++ bad :: rest /\
      Forall (fun s => s <> EmptyString) good /\ goodOutput bad = false).
Proof.
  induction items as [|v items IH].
  - left. exists []. split; [reflexivity|constructor].
  - destruct (goodOutput v) eqn:Hv.
    + destruct v as [| | | |s| |]; try discriminate. simpl in Hv.
      assert (Hs : s <> EmptyString).
      { intros ->. discriminate. }
      destruct IH as [(outs & -> & Hall)|(good & bad & rest & -> & Hall & Hbad)].
      * left. exists (s :: outs). split; [reflexivity|constructor; assumption].
      * right. exists (s :: good), bad, rest.
        split; [reflexivity|]. split; [constructor; assumption|exact Hbad].
    + right. exists [], v, items. split; [reflexivity|]. split; [constructor|exact Hv].
Qed.

Lemma validateOutputs_array items resourcePath w :
  items <> [] ->
  validateOutputs (UArray items) resourcePath w
    = validateEachOutput resourcePath items 0 [] w.
Proof. destruct items; [contradiction|reflexivity]. Qed.

(** X14: validateOutputs returns exactly for a non-empty string, which
    it wraps in a one-element list, and for a non-empty array of
    non-empty strings, which it returns element by element in order;
    what it returns is therefore never empty and holds no empty string.
    It never changes the world. *)
Theorem validateOutputs_accepts
  (outputs : unknown) (resourcePath : string) (w w' : world)
  (outs : list string) :
  validateOutputs outputs resourcePath w = (w', inr outs) <->
  w' = w /\ outs <> [] /\ Forall (fun s => s <> EmptyString) outs /\
  ((exists s, outputs = UString s /\ outs = [s]) \/
   outputs = UArray (map UString outs)).
Proof.
  split.
  - destruct outputs as [| |b|n|s|items|fields]; try discriminate.
    + destruct b; discriminate.
    + unfold validateOutputs. simpl. destruct (n =? 0); discriminate.
    + unfold validateOutputs. simpl.
      destruct (String.eqb_spec s EmptyString) as [->|Hs]; simpl; [discriminate|].
      intros H. inversion H; subst.
      split; [reflexivity|]. split; [discriminate|].
      split; [constructor; [exact Hs|constructor]|]. left. eauto.
    + destruct items as [|v items]; [discriminate|].
      rewrite validateOutputs_array by discriminate.
      destruct (outputs_split (v :: items))
        as [(good & Heq & Hall)|(good & bad & rest & Heq & Hall & Hbad)];
        rewrite Heq.
      * rewrite (validateEachOutput_good resourcePath good 0 [] w Hall).
        intros H. inversion H; subst. simpl.
        split; [reflexivity|].
        split; [destruct outs; [discriminate|discriminate]|].
        split; [exact Hall|]. right. reflexivity.
      * rewrite (validateEachOutput_bad resourcePath bad rest Hbad good 0 [] w Hall).
        discriminate.
  - intros (-> & Hne & Hall & [(s & -> & ->)| ->]).
    + inversion Hall as [|? ? Hs _]; subst.
      unfold validateOutputs. simpl.
      destruct (String.eqb_spec s EmptyString) as [|_]; [contradiction|].
      reflexivity.
    + rewrite validateOutputs_array by (destruct outs; [contradiction|discriminate]).
      apply (validateEachOutput_good resourcePath outs 0 [] w Hall).
Qed.

Lemma validateOutputs_accepts_witness :
  validateOutputs (UString "AGENTS.md") "resources[0]" exampleWorld
    = (exampleWorld, inr ["AGENTS.md"]) /\
  validateOutputs (UArray [UString "a.md"; UString "docs/b.md"]) "resources[0]"
    exampleWorld = (exampleWorld, inr ["a.md"; "docs/b.md"]).
Proof.
  split.
  - apply (proj2 (validateOutputs_accepts (UString "AGENTS.md") "resources[0]"
                    exampleWorld exampleWorld ["AGENTS.md"])).
    split; [reflexivity|]. split; [discriminate|].
    split; [repeat constructor; discriminate|]. left. eauto.
  - apply (proj2 (validateOutputs_accepts
                    (UArray [UString "a.md"; UString "docs/b.md"]) "resources[0]"
                    exampleWorld exampleWorld ["a.md"; "docs/b.md"])).
    split; [reflexivity|]. split; [discriminate|].
    split; [repeat constructor; discriminate|]. right. reflexivity.
Defined.

(** X15: how validateOutputs rejects.  A falsy value (undefined, null,
    false, 0, and also the empty string) is reported as 'Resource must
    have "outputs"'; an empty array and a value that is neither a string
    nor an array have their own messages; in an array the first element
    that is not a non-empty string is reported, with its index in the
    field.  In every case the error is a ValidationError whose field is
    below <resourcePath>.outputs, and the message "Output path cannot be
    empty" is never produced. *)
Theorem validateOutputs_rejects
  (resourcePath : string) (w : world) :
  (forall outputs,
      truthy outputs = false ->
      validateOutputs outputs resourcePath w =
      (w, inl (outputsError ("Resource must have " +:+ quote "outputs")
                            resourcePath))) /\
  validateOutputs (UArray []) resourcePath w =
    (w, inl (outputsError "outputs array cannot be empty" resourcePath)) /\
  (forall outputs,
      truthy outputs = true -> typeOf outputs <> "string" ->
      isArray outputs = false ->
      validateOutputs outputs resourcePath w =
      (w, inl (outputsError "outputs must be a string or array of strings"
                            resourcePath))) /\
  (forall good bad rest,
      Forall (fun s => s <> EmptyString) good -> goodOutput bad = false ->
      validateOutputs (UArray (map UString good ++ bad :: rest)) resourcePath w
        = (w, inl (outputError resourcePath (length good)))) /\
  (forall outputs w' e,
      validateOutputs outputs resourcePath w = (w', inl e) ->
      errorMessage e <> "Output path cannot be empty").
Proof.
  assert (H1 : forall outputs,
             truthy outputs = false ->
             validateOutputs outputs resourcePath w =
             (w, inl (outputsError ("Resource must have " +:+ quote "outputs")
                                   resourcePath))).
  { intros outputs Hf. unfold validateOutputs. rewrite Hf. reflexivity. }
  assert (H4 : forall good bad rest,
             Forall (fun s => s <> EmptyString) good -> goodOutput bad = false ->
             validateOutputs (UArray (map UString good ++ bad :: rest))
               resourcePath w
             = (w, inl (outputError resourcePath (length good)))).
  { intros good bad rest Hall Hbad. unfold validateOutputs. simpl.
    destruct (map UString good ++ bad :: rest) eqn:Heq.
    - destruct good; discriminate.
    - rewrite <- Heq. cbn [isNil].
      destruct (map UString good ++ bad :: rest) eqn:Heq'; [discriminate|].
      cbn [isNil]. rewrite <- Heq'.
      apply (validateEachOutput_bad resourcePath bad rest Hbad good 0 [] w Hall). }
  split; [exact H1|]. split; [reflexivity|]. split; [|split; [exact H4|]].
  - intros outputs Ht Hs Ha. unfold validateOutputs. rewrite Ht. simpl.
    destruct outputs; try reflexivity; try discriminate.
    simpl in Hs. contradiction.
  - intros outputs w' e.
    destruct (truthy outputs) eqn:Ht;
      [|rewrite (H1 _ Ht); intros H; inversion H; subst; simpl;
        vm_compute; discriminate].
    destruct outputs as [| |b|n|s|items|fields]; try discriminate.
    + unfold validateOutputs. rewrite Ht. simpl.
      intros H. inversion H. discriminate.
    + unfold validateOutputs. rewrite Ht. simpl.
      intros H. inversion H. discriminate.
    + unfold validateOutputs. rewrite Ht. simpl. simpl in Ht.
      destruct (String.eqb s EmptyString); [discriminate|].
      intros H. inversion H.
    + destruct items as [|v items].
      * intros H. inversion H. discriminate.
      * destruct (outputs_split (v :: items))
          as [(good & Heq & Hall)|(good & bad & rest & Heq & Hall & Hbad)];
          rewrite Heq.
        -- rewrite validateOutputs_array by (rewrite <- Heq; discriminate).
           rewrite (validateEachOutput_good resourcePath good 0 [] w Hall).
           discriminate.
        -- rewrite (H4 _ _ _ Hall Hbad). intros H. inversion H. discriminate.
    + unfold validateOutputs. simpl. intros H. inversion H. discriminate.
Qed.

Lemma validateOutputs_rejects_witness :
  validateOutputs (UString EmptyString) "resources[0]" exampleWorld =
    (exampleWorld,
     inl (outputsError ("Resource must have " +:+ quote "outputs")
                       "resources[0]")) /\
  validateOutputs (UArray [UString "a.md"; UNumber 5; UString EmptyString])
    "resources[0]" exampleWorld =
    (exampleWorld, inl (outputError "resources[0]" 1)).
Proof.
  split.
  - apply (proj1 (validateOutputs_rejects "resources[0]" exampleWorld)).
    reflexivity.
  - apply (proj1 (proj2 (proj2 (proj2 (validateOutputs_rejects "resources[0]"
                                          exampleWorld))))
             ["a.md"] (UNumber 5) [UString EmptyString]).
    + repeat constructor. discriminate.
    + reflexivity.
Defined.

Lemma validateOutputs_cases outputs resourcePath w w' r :
  validateOutputs outputs resourcePath w = (w', r) ->
  w' = w /\
  match r with
  | inr outs => outs <> [] /\ Forall (fun s => s <> EmptyString) outs
  | inl e => exists msg field, e = ValidationError msg (Some field)
  end.
Proof.
  destruct outputs as [| |b|n|s|items|fields];
    try (intros H; inversion H; subst; split; [reflexivity|eauto]).
  - unfold validateOutputs. simpl. destruct b; simpl;
      intros H; inversion H; subst; split; try reflexivity; eauto.
  - unfold validateOutputs. simpl. destruct (n =? 0); simpl;
      intros H; inversion H; subst; split; try reflexivity; eauto.
  - unfold validateOutputs. simpl.
    destruct (String.eqb_spec s EmptyString) as [->|Hs]; simpl;
      intros H; inversion H; subst; (split; [reflexivity|]); eauto.
  - destruct items as [|v items].
    + intros H; inversion H; subst; split; [reflexivity|eauto].
    + rewrite validateOutputs_array by discriminate.
      destruct (outputs_split (v :: items))
        as [(good & Heq & Hall)|(good & bad & rest & Heq & Hall & Hbad)];
        rewrite Heq.
      * rewrite (validateEachOutput_good resourcePath good 0 [] w Hall).
        intros H. inversion H; subst. simpl.
        split; [reflexivity|].
        split; [destruct good; [discriminate|discriminate]|exact Hall].
      * rewrite (validateEachOutput_bad resourcePath bad rest Hbad good 0 [] w Hall).
        intros H. inversion H; subst. split; [reflexivity|].
        unfold outputError. eauto.
Qed.

Lemma validateOverwrite_cases overwrite resourcePath w w' r :
  validateOverwrite overwrite resourcePath w = (w', r) ->
  w' = w /\
  match r with
  | inr b => (overwrite = UUndefined /\ b = true) \/ overwrite = UBool b
  | inl e => exists msg field, e = ValidationError msg (Some field)
  end.
Proof.
  destruct overwrite; intros H; inversion H; subst; split;
    try reflexivity; eauto.
Qed.

Lemma validateResourceSource_cases resource resourcePath w w' r :
  validateResourceSource resource resourcePath w = (w', r) ->
  w' = w /\
  match r with
  | inr _ =>
      exists name plugin,
        Resource.plugin resource = UString name /\ name <> EmptyString /\
        registry w !! name = Some plugin /\
        Resource.pluginConfig resource <> JUndefined
  | inl e => exists msg field, e = ValidationError msg (Some field)
  end.
Proof.
  unfold validateResourceSource, pluginOf.
  destruct (Resource.plugin resource) as [| |b|n|name|items|fields];
    try (simpl; intros H; inversion H; subst; split; [reflexivity|eauto]).
  simpl.
  destruct (String.eqb_spec name EmptyString) as [|Hname];
    [intros H; inversion H; subst; split; [reflexivity|eauto]|].
  unfold bind at 1, has.
  destruct (registry w !! name) as [plugin|] eqn:Hreg.
  - rewrite bool_decide_eq_true_2 by eauto. simpl.
    destruct (Resource.pluginConfig resource) eqn:Hcfg;
      intros H; inversion H; subst; (split; [reflexivity|]); eauto;
      exists name, plugin; repeat split; auto; discriminate.
  - rewrite bool_decide_eq_false_2 by (intros [x Hx]; discriminate). simpl.
    unfold bind, listAvailable, throw.
    intros H; inversion H; subst; split; [reflexivity|eauto].
Qed.

Lemma validateResourceStructure_object resource resourcePath w :
  validateResourceStructure (resourceValue resource) resourcePath w = (w, inr tt).
Proof. reflexivity. Qed.

(** What validateResource does, stage by stage. *)
Lemma validateResource_cases validateOf resource resourcePath w w' r :
  validateResource validateOf resource resourcePath w = (w', r) ->
  match r with
  | inr vr =>
      exists plugin,
        registry w !! ValidatedResource.plugin vr = Some plugin /\
        Resource.plugin resource = UString (ValidatedResource.plugin vr) /\
        ValidatedResource.plugin vr <> EmptyString /\
        Resource.pluginConfig resource <> JUndefined /\
        ValidatedResource.pluginConfig vr = Resource.pluginConfig resource /\
        ((Resource.overwrite resource = UUndefined /\
          ValidatedResource.overwrite vr = true) \/
         Resource.overwrite resource = UBool (ValidatedResource.overwrite vr)) /\
        validateOutputs (Resource.outputs resource) resourcePath w
          = (w, inr (ValidatedResource.outputs vr)) /\
        ValidatedResource.outputs vr <> [] /\
        Forall (fun s => s <> EmptyString) (ValidatedResource.outputs vr) /\
        match validateOf plugin with
        | Some validate =>
            validate (Resource.pluginConfig resource) w = (w', inr tt)
        | None => w' = w
        end
  | inl e => exists msg field, e = ValidationError msg (Some field)
  end.
Proof.
  unfold validateResource, bind at 1.
  rewrite validateResourceStructure_object.
  unfold bind at 1.
  destruct (validateResourceSource resource resourcePath w) as [w1 [e|[]]] eqn:Hsrc.
  { apply validateResourceSource_cases in Hsrc as [-> Hsrc].
    intros H. inversion H; subst. exact Hsrc. }
  apply validateResourceSource_cases in Hsrc
    as [-> (name & plugin & Hplugin & Hname & Hreg & Hcfg)].
  unfold bind at 1.
  destruct (validateOverwrite (Resource.overwrite resource) resourcePath w)
    as [w1 [e|overwrite]] eqn:Hov.
  { apply validateOverwrite_cases in Hov as [-> Hov].
    intros H. inversion H; subst. exact Hov. }
  apply validateOverwrite_cases in Hov as [-> Hov].
  unfold bind at 1.
  destruct (validateOutputs (Resource.outputs resource) resourcePath w)
    as [w1 [e|outs]] eqn:Hout.
  { apply validateOutputs_cases in Hout as [-> Hout].
    intros H. inversion H; subst. exact Hout. }
  destruct (validateOutputs_cases _ _ _ _ _ Hout) as [-> [Hne Hall]].
  unfold bind at 1, resolvePlugin, pluginOf. rewrite Hplugin, Hreg.
  unfold bind at 1.
  assert (Hdone : forall w2,
             ret {| ValidatedResource.plugin := name;
                    ValidatedResource.pluginConfig := Resource.pluginConfig resource;
                    ValidatedResource.overwrite := overwrite;
                    ValidatedResource.outputs := outs |} w2 = (w', r) ->
             (match validateOf plugin with
              | Some validate =>
                  validate (Resource.pluginConfig resource) w = (w2, inr tt)
              | None => w2 = w
              end) ->
             match r with
             | inr vr =>
                 exists plugin,
                   registry w !! ValidatedResource.plugin vr = Some plugin /\
                   UString name = UString (ValidatedResource.plugin vr) /\
                   ValidatedResource.plugin vr <> EmptyString /\
                   Resource.pluginConfig resource <> JUndefined /\
                   ValidatedResource.pluginConfig vr = Resource.pluginConfig resource /\
                   ((Resource.overwrite resource = UUndefined /\
                     ValidatedResource.overwrite vr = true) \/
                    Resource.overwrite resource
                      = UBool (ValidatedResource.overwrite vr)) /\
                   (w, @inr jsError _ outs) = (w, inr (ValidatedResource.outputs vr)) /\
                   ValidatedResource.outputs vr <> [] /\
                   Forall (fun s => s <> EmptyString) (ValidatedResource.outputs vr) /\
                   match validateOf plugin with
                   | Some validate =>
                       validate (Resource.pluginConfig resource) w = (w', inr tt)
                   | None => w' = w
                   end
             | inl e => exists msg field, e = ValidationError msg (Some field)
             end).
  { intros w2 H Hval. inversion H; subst. simpl. exists plugin.
    repeat (split; [first [assumption|reflexivity]|]). exact Hval. }
  destruct (validateOf plugin) as [validate|] eqn:Hv.
  - unfold tryCatch.
    destruct (validate (Resource.pluginConfig resource) w) as [w2 [e|[]]] eqn:Hrun.
    + intros H. inversion H; subst. eauto.
    + intros H. apply (Hdone w2 H). reflexivity.
  - intros H. apply (Hdone w H). reflexivity.
Qed.

(** X16: what validateResource accepts.  The resource names a
    registered plugin by a non-empty string (so isPluginResource holds
    of it) and has a pluginConfig; the validated resource carries that
    name and that configuration unchanged, overwrite is the boolean
    given or true when none is given, and outputs is what validateOutputs
    returns: a non-empty list of non-empty strings.  The world changes
    only by what the plugin's own validate method does. *)
Theorem validateResource_accepts
  (validateOf : Plugin.t -> option (jsValue -> M unit))
  (resource : Resource.t) (resourcePath : string) (w w' : world)
  (vr : ValidatedResource.t) :
  validateResource validateOf resource resourcePath w = (w', inr vr) ->
  exists plugin,
    registry w !! ValidatedResource.plugin vr = Some plugin /\
    Resource.plugin resource = UString (ValidatedResource.plugin vr) /\
    ValidatedResource.plugin vr <> EmptyString /\
    isPluginResource (resourceValue resource) = true /\
    Resource.pluginConfig resource <> JUndefined /\
    ValidatedResource.pluginConfig vr = Resource.pluginConfig resource /\
    ((Resource.overwrite resource = UUndefined /\
      ValidatedResource.overwrite vr = true) \/
     Resource.overwrite resource = UBool (ValidatedResource.overwrite vr)) /\
    validateOutputs (Resource.outputs resource) resourcePath w
      = (w, inr (ValidatedResource.outputs vr)) /\
    ValidatedResource.outputs vr <> [] /\
    Forall (fun s => s <> EmptyString) (ValidatedResource.outputs vr) /\
    match validateOf plugin with
    | Some validate => validate (Resource.pluginConfig resource) w = (w', inr tt)
    | None => w' = w
    end.
Proof.
  intros H. apply validateResource_cases in H.
  destruct H as (plugin & Hreg & Hplugin & Hname & Hrest).
  exists plugin. split; [exact Hreg|]. split; [exact Hplugin|].
  split; [exact Hname|]. split; [|exact Hrest].
  unfold isPluginResource, resourceValue. simpl. rewrite Hplugin. simpl.
  destruct (String.eqb_spec (ValidatedResource.plugin vr) EmptyString);
    [contradiction|reflexivity].
Qed.

Lemma validateResource_accepts_witness :
  let resource := exampleResource "../shared/a.md"
                    (UArray [UString "a.md"; UString "docs/a.md"]) in
  (validateResource validateOfLocal resource "resources[0]" localWorld).2 =
  inr {| ValidatedResource.plugin := "local";
         ValidatedResource.pluginConfig := localConfig "../shared/a.md" JUndefined;
         ValidatedResource.overwrite := true;
         ValidatedResource.outputs := ["a.md"; "docs/a.md"] |} /\
  isPluginResource (resourceValue resource) = true.
Proof.
  intros resource.
  assert (Hrun : (validateResource validateOfLocal resource "resources[0]"
                    localWorld).2 =
                 inr {| ValidatedResource.plugin := "local";
                        ValidatedResource.pluginConfig :=
                          localConfig "../shared/a.md" JUndefined;
                        ValidatedResource.overwrite := true;
                        ValidatedResource.outputs := ["a.md"; "docs/a.md"] |}).
  { vm_compute. reflexivity. }
  split; [exact Hrun|].
  apply run_pair in Hrun.
  destruct (validateResource_accepts _ _ _ _ _ _ Hrun)
    as (plugin & _ & _ & _ & Hres & _).
  exact Hres.
Defined.

(** X17: whatever validateResource throws is a ValidationError that
    carries a field: the errors of a plugin's own validate method are
    wrapped too.  A resource whose plugin is not registered is rejected
    before its overwrite and outputs are looked at, with a message that
    lists the registered plugin names as listAvailable gives them, in
    ascending order of their UTF-16 code units, and the world is
    unchanged. *)
Theorem validateResource_rejects
  (validateOf : Plugin.t -> option (jsValue -> M unit))
  (resource : Resource.t) (resourcePath : string) (w : world) :
  (forall w' e,
      validateResource validateOf resource resourcePath w = (w', inl e) ->
      exists msg field, e = ValidationError msg (Some field)) /\
  (forall name,
      Resource.plugin resource = UString name -> name <> EmptyString ->
      registry w !! name = None ->
      exists names,
        listAvailable w = (w, inr names) /\
        StronglySorted codeUnitLe names /\
        (forall n, n ∈ names <-> is_Some (registry w !! n)) /\
        validateResource validateOf resource resourcePath w =
        (w, inl (ValidationError
                   ("Unknown plugin " +:+ quote name +:+ ". Available plugins: "
                      +:+ String.concat ", " names)
                   (Some (resourcePath +:+ ".plugin"))))).
Proof.
  split.
  - intros w' e H. apply validateResource_cases in H. exact H.
  - intros name Hplugin Hname Hreg.
    destruct (listAvailable_run w) as (names & Hrun & Hsorted & _ & Hin).
    exists names. split; [exact Hrun|]. split; [exact Hsorted|].
    split; [exact Hin|].
    unfold validateResource, bind at 1.
    rewrite validateResourceStructure_object.
    unfold bind at 1, validateResourceSource, pluginOf. rewrite Hplugin. simpl.
    destruct (String.eqb_spec name EmptyString) as [|_]; [contradiction|].
    unfold bind at 1, has. rewrite Hreg.
    rewrite bool_decide_eq_false_2 by (intros [x Hx]; discriminate).
    apply (f_equal (fun x => (x.2 : jsError + list string))) in Hrun.
    simpl in Hrun. injection Hrun as <-. reflexivity.
Qed.

Lemma validateResource_rejects_witness :
  validateResource validateOfLocal
    {| Resource.plugin := UString "nope"; Resource.pluginConfig := JNull;
       Resource.overwrite := UString "yes"; Resource.outputs := UArray [] |}
    "resources[2]" unicodeWorld =
  (unicodeWorld,
   inl (ValidationError
          ("Unknown plugin " +:+ quote "nope"
             +:+ ". Available plugins: z, é, 😀, ～")
          (Some "resources[2].plugin"))) /\
  (validateResource validateOfLocal
     (exampleResource EmptyString (UString "a.md")) "resources[0]" localWorld).2
  = inl (ValidationError
           ("Plugin validation failed: Plugin " +:+ quote "local"
              +:+ ": Invalid configuration for field " +:+ quote "path"
              +:+ ": must be a non-empty string")
           (Some "resources[0].pluginConfig")).
Proof.
  split.
  - destruct (proj2 (validateResource_rejects validateOfLocal
                {| Resource.plugin := UString "nope"; Resource.pluginConfig := JNull;
                   Resource.overwrite := UString "yes";
                   Resource.outputs := UArray [] |}
                "resources[2]" unicodeWorld) "nope")
      as (names & Hnames & _ & _ & Hrun);
      [reflexivity|discriminate|vm_compute; reflexivity|].
    rewrite Hrun. apply (f_equal snd) in Hnames. vm_compute in Hnames.
    injection Hnames as <-. reflexivity.
  - destruct (validateResource validateOfLocal _ "resources[0]" localWorld)
      as [w' [e|vr]] eqn:Hrun.
    + destruct (proj1 (validateResource_rejects validateOfLocal _ _ _) _ _ Hrun)
        as (msg & field & ->).
      apply (f_equal snd) in Hrun. vm_compute in Hrun. simpl. exact (eq_sym Hrun).
    + apply (f_equal snd) in Hrun. vm_compute in Hrun. discriminate.
Defined.

(** X18: a plugin that validateResource found registered is still
    found by fetchSingleResource as long as the registry is the same:
    the fetch of a validated resource never fails with "Plugin not
    found"; it returns exactly when the plugin's fetch returns, and
    otherwise throws what the plugin threw, as a ResourceError. *)
Theorem validated_resource_resolves
  (validateOf : Plugin.t -> option (jsValue -> M unit))
  (resource : Resource.t) (resourcePath : string) (w w1 : world)
  (vr : ValidatedResource.t) (projectRoot : path) :
  validateResource validateOf resource resourcePath w = (w1, inr vr) ->
  registry w1 = registry w ->
  exists plugin,
    resolvePlugin (ValidatedResource.plugin vr) w1 = (w1, inr plugin) /\
    fetchSingleResource vr projectRoot w1 =
    let '(o, lines, r) :=
      Plugin.fetch plugin (ValidatedResource.pluginConfig vr) projectRoot
        (machine w1) in
    match r with
    | inr result => (afterFetch vr o lines w1, inr (fetchedFrom vr result))
    | inl x => (afterFetch vr o lines w1, inl (pluginFailure vr x))
    end.
Proof.
  intros H Hsame. apply validateResource_cases in H.
  destruct H as (plugin & Hreg & _). exists plugin.
  rewrite <- Hsame in Hreg.
  split; [unfold resolvePlugin; rewrite Hreg; reflexivity|].
  rewrite fetchSingleResource_run, Hreg. reflexivity.
Qed.

(** * Properties of the local plugin *)




(** X20: a local resource whose path does not exist makes
    fetchSingleResource throw a ResourceError for the plugin "local"
    whose message chains the wrappers of resource.ts, of the plugin and
    of handleNodeError down to "Path does not exist: <path as
    configured>"; the machine and the log are untouched and the
    descriptor is recorded as fetched. *)
Theorem local_missing_path_message
  (mtime : os -> path -> string) (fields : list (string * jsValue))
  (p : string) (outputs : list string) (projectRoot : path) (w : world) :
  registry w !! "local" = Some (LocalPlugin.plugin mtime) ->
  getField fields "path" = JString p -> p <> EmptyString ->
  stat (tree_of w) (resolve projectRoot p) = inl ENOENT ->
  let definition := localDescriptor (JObject fields) outputs in
  fetchSingleResource definition projectRoot w =
  (afterFetch definition (machine w) [] w,
   inl (ResourceError
          ("Failed to fetch with plugin " +:+ quote "local" +:+ ": Plugin "
             +:+ quote "local" +:+ ": " +:+ missingPathMessage p)
          (Some "local"))).
Proof.
  intros Hreg Hp Hne Hs definition.
  rewrite fetchSingleResource_run. simpl. rewrite Hreg. simpl.
  unfold LocalPlugin.fetch, LocalPlugin.validate, LocalPlugin.pathOf. simpl.
  rewrite Hp.
  destruct (String.eqb_spec p EmptyString) as [|_]; [contradiction|].
  unfold tree_of in Hs. rewrite Hs. reflexivity.
Qed.

Lemma localWorld_registry :
  registry localWorld !! "local" = Some (LocalPlugin.plugin exampleTime).
Proof.
  apply (lookup_insert_eq (registry exampleWorld) "local"
           (LocalPlugin.plugin exampleTime)).
Qed.

Lemma local_missing_path_message_witness :
  (fetchSingleResource (localDescriptor (localConfig "gone.md" JUndefined) ["a.md"])
     ["proj"] localWorld).2 =
  inl (ResourceError
         ("Failed to fetch with plugin " +:+ quote "local" +:+ ": Plugin "
            +:+ quote "local" +:+ ": Failed to access local path "
            +:+ quote "gone.md" +:+ ": Path does not exist: gone.md")
         (Some "local")).
Proof.
  apply (f_equal snd
           (local_missing_path_message exampleTime
              [("path", JString "gone.md"); ("symlink", JUndefined)] "gone.md"
              ["a.md"] ["proj"] localWorld
              localWorld_registry eq_refl ltac:(discriminate)
              ltac:(vm_compute; reflexivity))).
Defined.

(** X21: a resource fetched by the local plugin is placed as a symbolic
    link exactly when the symlink property of its configuration is the
    boolean true: any other value, truthy or not, means copy. *)
Theorem local_symlink_only_when_true
  (mtime : os -> path -> string) (definition : ValidatedResource.t)
  (projectRoot : path) (o o' : os) (lines : list logLine)
  (result : PluginResult.t) :
  ValidatedResource.plugin definition = "local" ->
  LocalPlugin.fetch mtime (ValidatedResource.pluginConfig definition)
    projectRoot o = (o', lines, inr result) ->
  wantsSymlink (fetchedFrom definition result) =
  match jsProperty (ValidatedResource.pluginConfig definition) "symlink" with
  | JBool true => true
  | _ => false
  end.
Proof.
  intros Hname. unfold LocalPlugin.fetch.
  destruct (LocalPlugin.validate _) as [e|[]]; [discriminate|].
  destruct (stat (files o) _) as [c|n]; [discriminate|].
  intros H. inversion H; subst; clear H.
  unfold wantsSymlink, fetchedFrom. simpl. rewrite Hname. simpl.
  destruct (jsProperty (ValidatedResource.pluginConfig definition) "symlink")
    as [| |[|]|[|n']|s|fs]; simpl; try reflexivity.
  destruct (String.eqb s EmptyString); reflexivity.
Qed.

Lemma local_symlink_only_when_true_witness :
  let fetched symlink :=
    match (LocalPlugin.fetch exampleTime (localConfig "../shared/a.md" symlink)
             ["proj"] (machine exampleWorld)).2 with
    | inr result =>
        wantsSymlink
          (fetchedFrom (localDescriptor (localConfig "../shared/a.md" symlink)
                          ["a.md"]) result)
    | inl _ => false
    end in
  fetched (JBool true) = true /\ fetched (JString "yes") = false /\
  fetched (JNumber 1) = false /\ fetched JUndefined = false.
Proof.
  assert (H : forall symlink result,
             (LocalPlugin.fetch exampleTime (localConfig "../shared/a.md" symlink)
                ["proj"] (machine exampleWorld)).2 = inr result ->
             wantsSymlink
               (fetchedFrom (localDescriptor (localConfig "../shared/a.md" symlink)
                               ["a.md"]) result) =
             match symlink with JBool true => true | _ => false end).
  { intros symlink result Hr.
    destruct (LocalPlugin.fetch exampleTime _ ["proj"] (machine exampleWorld))
      as [[o' lines] r] eqn:Hrun.
    simpl in Hr. subst r.
    rewrite (local_symlink_only_when_true exampleTime
               (localDescriptor (localConfig "../shared/a.md" symlink) ["a.md"])
               ["proj"] (machine exampleWorld) o' lines result eq_refl Hrun).
    reflexivity. }
  cbv zeta. split; [|split; [|split]].
  - destruct (LocalPlugin.fetch exampleTime _ _ _).2 as [e|result] eqn:Hr;
      [vm_compute in Hr; discriminate|]. apply (H _ _ Hr).
  - destruct (LocalPlugin.fetch exampleTime _ _ _).2 as [e|result] eqn:Hr;
      [reflexivity|]. apply (H _ _ Hr).
  - destruct (LocalPlugin.fetch exampleTime _ _ _).2 as [e|result] eqn:Hr;
      [reflexivity|]. apply (H _ _ Hr).
  - destruct (LocalPlugin.fetch exampleTime _ _ _).2 as [e|result] eqn:Hr;
      [reflexivity|]. apply (H _ _ Hr).
Defined.

(** * Properties of the init command *)

Lemma initPathExists_run p w :
  InitCommand.pathExists p w = (w, inr (succeeds (stat (tree_of w) p))).
Proof.
  unfold InitCommand.pathExists, tryCatch, bind, fsRead, ret.
  destruct (stat (tree_of w) p); reflexivity.
Qed.

Lemma checkConfigFiles_run directory w :
  forall configFiles,
    InitCommand.checkConfigFiles directory configFiles w =
    match List.find (fun f => succeeds (stat (tree_of w) (resolve directory f)))
                    configFiles with
    | Some configFile =>
        (w, inl (Error ("Configuration file already exists: " +:+ configFile)))
    | None => (w, inr tt)
    end.
Proof.
  induction configFiles as [|f rest IH]; [reflexivity|].
  simpl. unfold bind. rewrite initPathExists_run.
  destruct (succeeds (stat (tree_of w) (resolve directory f)));
    [reflexivity|exact IH].
Qed.

(** The check of package.json has no effect, whatever the file holds. *)
Lemma checkPackageJson_run parseJson directory w :
  InitCommand.checkPackageJson parseJson directory w = (w, inr tt).
Proof.
  unfold InitCommand.checkPackageJson, bind at 1. rewrite initPathExists_run.
  destruct (succeeds (stat (tree_of w) (resolve directory "package.json")));
    [|reflexivity].
  unfold tryCatch, bind at 1, fsRead.
  destruct (readFile (tree_of w) (resolve directory "package.json"))
    as [c|packageContent]; [reflexivity|].
  unfold bind at 1.
  destruct (parseJson packageContent) as [e|packageJson]; [reflexivity|].
  unfold bind.
  destruct packageJson as [| |b|n|s|fields]; simpl;
    try reflexivity;
    match goal with
    | |- context [jsTruthy ?v] => destruct (jsTruthy v); reflexivity
    end.
Qed.

Lemma findTemplate_run w :
  forall paths,
    InitCommand.findTemplate paths w =
    (w, inr (List.find (fun p => succeeds (stat (tree_of w) p)) paths)).
Proof.
  induction paths as [|p rest IH]; [reflexivity|].
  simpl. unfold bind. rewrite initPathExists_run.
  destruct (succeeds (stat (tree_of w) p)); [reflexivity|exact IH].
Qed.

Lemma createTemplate_run moduleDirectory parseJson w :
  InitCommand.createTemplate moduleDirectory parseJson w =
  match List.find (configExists w) InitCommand.CONFIG_FILES with
  | Some configFile =>
      (w, inl (Error ("Configuration file already exists: " +:+ configFile)))
  | None =>
      match List.find (fun p => succeeds (stat (tree_of w) p))
                      (templatePaths moduleDirectory) with
      | None => (w, inl (Error "Could not find configuration template file"))
      | Some templatePath =>
          match readFile (tree_of w) templatePath with
          | inl c => (w, inl (ErrnoException c "open" (showPath templatePath)))
          | inr template =>
              match writeFile (tree_of w)
                      (resolve (cwd (machine w)) ".knowhubrc.ts") template with
              | inl c => (w, inl (ErrnoException c "open" ".knowhubrc.ts"))
              | inr m => (setTree m w, inr tt)
              end
          end
      end
  end.
Proof.
  unfold InitCommand.createTemplate, bind at 1, currentDirectory.
  unfold bind at 1. rewrite checkConfigFiles_run.
  change (fun f => succeeds (stat (tree_of w) (resolve (cwd (machine w)) f)))
    with (configExists w).
  destruct (List.find (configExists w) InitCommand.CONFIG_FILES); [reflexivity|].
  unfold bind at 1. rewrite checkPackageJson_run.
  unfold bind at 1. rewrite findTemplate_run.
  change [resolve moduleDirectory "../../templates/.knowhubrc.template.ts";
          resolve moduleDirectory "../../../templates/.knowhubrc.template.ts"]
    with (templatePaths moduleDirectory).
  destruct (List.find _ (templatePaths moduleDirectory)) as [templatePath|];
    [|reflexivity].
  unfold bind, fsRead, fsWrite.
  destruct (readFile (tree_of w) templatePath) as [c|template]; [reflexivity|].
  destruct (writeFile (tree_of w) _ template); reflexivity.
Qed.

(** X22: init never touches a project that already has a
    configuration file: when one of the six names of CONFIG_FILES exists
    in the working directory, the run exits with code 1, names the first
    such file of the list on standard error, and leaves the world as it
    was. *)
Theorem init_refuses_existing_config
  (moduleDirectory : path) (parseJson : string -> jsError + jsValue)
  (w : world) (configFile : string) :
  List.find (configExists w) InitCommand.CONFIG_FILES = Some configFile ->
  InitCommand.init moduleDirectory parseJson w =
  (w, initFailed ("Configuration file already exists: " +:+ configFile)).
Proof.
  intros Hfind. unfold InitCommand.init.
  rewrite createTemplate_run, Hfind. reflexivity.
Qed.

(** X23: what package.json holds never matters to init: the error
    raised for a "knowhub" field is thrown inside the try block whose
    catch ignores every error, so the run is the same for every outcome
    of JSON.parse, and a project configured through package.json still
    gets a template. *)
Theorem init_ignores_package_json
  (moduleDirectory : path) (parseJson parseJson' : string -> jsError + jsValue)
  (w : world) :
  InitCommand.init moduleDirectory parseJson w
    = InitCommand.init moduleDirectory parseJson' w.
Proof.
  unfold InitCommand.init. rewrite !createTemplate_run. reflexivity.
Qed.

(** X24: a run of init that completes has found no configuration file
    in the working directory, has read the first template that exists
    among the two candidate paths, and has written exactly that text to
    .knowhubrc.ts in the working directory, changing nothing else; a run
    that exits does so with code 1 and changes nothing. *)
Theorem init_writes_the_template
  (moduleDirectory : path) (parseJson : string -> jsError + jsValue)
  (w w' : world) (result : InitCommand.outcome) :
  InitCommand.init moduleDirectory parseJson w = (w', result) ->
  match result with
  | InitCommand.Completed stdout =>
      result = initCompleted /\
      List.find (configExists w) InitCommand.CONFIG_FILES = None /\
      exists templatePath template,
        List.find (fun p => succeeds (stat (tree_of w) p))
                  (templatePaths moduleDirectory) = Some templatePath /\
        readFile (tree_of w) templatePath = inr template /\
        writeFile (tree_of w) (resolve (cwd (machine w)) ".knowhubrc.ts")
                  template = inr (tree_of w') /\
        w' = setTree (tree_of w') w /\
        readFile (tree_of w') (resolve (cwd (machine w)) ".knowhubrc.ts")
          = inr template
  | InitCommand.Exited code stderr => w' = w /\ code = 1
  end.
Proof.
  unfold InitCommand.init. rewrite createTemplate_run.
  destruct (List.find (configExists w) InitCommand.CONFIG_FILES) as [f|];
    [intros H; inversion H; subst; split; reflexivity|].
  destruct (List.find _ (templatePaths moduleDirectory)) as [templatePath|];
    [|intros H; inversion H; subst; split; reflexivity].
  destruct (readFile (tree_of w) templatePath) as [c|template] eqn:Hread;
    [intros H; inversion H; subst; split; reflexivity|].
  destruct (writeFile (tree_of w) _ template) as [c|m] eqn:Hwrite;
    [intros H; inversion H; subst; split; reflexivity|].
  intros H. inversion H; subst; clear H.
  split; [reflexivity|]. split; [reflexivity|].
  exists templatePath, template. rewrite tree_of_setTree.
  split; [reflexivity|]. split; [exact Hread|]. split; [exact Hwrite|].
  split; [reflexivity|]. eapply writeFile_read; exact Hwrite.
Qed.

Lemma init_refuses_existing_config_witness :
  InitCommand.init ["pkg"; "dist"; "commands"] parseWithKnowhub configuredWorld =
  (configuredWorld,
   initFailed "Configuration file already exists: .knowhubrc.yaml").
Proof.
  apply (init_refuses_existing_config ["pkg"; "dist"; "commands"]
           parseWithKnowhub configuredWorld ".knowhubrc.yaml").
  vm_compute. reflexivity.
Defined.

Lemma init_writes_the_template_witness :
  let run := InitCommand.init ["pkg"; "dist"; "commands"] parseWithKnowhub
               packageWorld in
  run.2 = initCompleted /\
  readFile (tree_of run.1) ["proj"; ".knowhubrc.ts"] = inr "export default {}" /\
  (InitCommand.init ["pkg"; "dist"; "commands"] parseWithKnowhub
     configuredWorld).1 = configuredWorld.
Proof.
  intros run.
  assert (H := init_writes_the_template ["pkg"; "dist"; "commands"]
                 parseWithKnowhub packageWorld run.1 run.2
                 (surjective_pairing _)).
  assert (Hrun : run.2 = initCompleted) by (vm_compute; reflexivity).
  rewrite Hrun in H.
  destruct H as (_ & _ & templatePath & template & Hfind & Hread & _ & _ & Hnew).
  split; [exact Hrun|]. split.
  - vm_compute in Hfind. inversion Hfind; subst templatePath.
    vm_compute in Hread. inversion Hread; subst template. exact Hnew.
  - assert (H := init_writes_the_template ["pkg"; "dist"; "commands"]
                   parseWithKnowhub configuredWorld
                   (InitCommand.init ["pkg"; "dist"; "commands"]
                      parseWithKnowhub configuredWorld).1
                   (InitCommand.init ["pkg"; "dist"; "commands"]
                      parseWithKnowhub configuredWorld).2
                   (surjective_pairing _)).
    assert (Hexit : (InitCommand.init ["pkg"; "dist"; "commands"]
                       parseWithKnowhub configuredWorld).2
                    = initFailed
                        "Configuration file already exists: .knowhubrc.yaml")
      by (vm_compute; reflexivity).
    rewrite Hexit in H. exact (proj1 H).
Defined.

Lemma validated_resource_resolves_witness :
  let resource := exampleResource "../shared/a.md" (UString "a.md") in
  let validated := validateResource validateOfLocal resource "resources[0]"
                     localWorld in
  let vr := localDescriptor (localConfig "../shared/a.md" JUndefined) ["a.md"] in
  validated.2 = inr vr /\
  (fetchSingleResource vr ["proj"] validated.1).2 =
    inr (fetchedFrom vr
           {| PluginResult.content := None;
              PluginResult.localPath := Some ["shared"; "a.md"];
              PluginResult.isDirectory := Some false;
              PluginResult.metadata :=
                Some [("lastModified", JString "2024-01-01T00:00:00.000Z");
                      ("version", JString "2024-01-01T00:00:00.000Z");
                      ("symlink", JBool false)] |}) /\
  exists plugin,
    resolvePlugin "local" validated.1 = (validated.1, inr plugin) /\
    fetchSingleResource vr ["proj"] validated.1 =
    let '(o, lines, r) :=
      Plugin.fetch plugin (ValidatedResource.pluginConfig vr) ["proj"]
        (machine validated.1) in
    match r with
    | inr result =>
        (afterFetch vr o lines validated.1, inr (fetchedFrom vr result))
    | inl x => (afterFetch vr o lines validated.1, inl (pluginFailure vr x))
    end.
Proof.
  intros resource validated vr.
  assert (Hrun : validated.2 = inr vr) by (vm_compute; reflexivity).
  split; [exact Hrun|]. split; [vm_compute; reflexivity|].
  apply (validated_resource_resolves validateOfLocal resource "resources[0]"
           localWorld validated.1 vr ["proj"] (run_pair _ _ _ Hrun) eq_refl).
Defined.

(** * Further properties of the validators and of copyDirectory *)

Lemma validateConfigStructure_cases config configPath w w' r :
  validateConfigStructure config configPath w = (w', r) ->
  w' = w /\
  match r with
  | inr _ =>
      exists fields resources,
        config = UObject fields /\
        property config "resources" = UArray resources /\ resources <> []
  | inl e => exists msg, e = ValidationError msg configPath
  end.
Proof.
  unfold validateConfigStructure.
  destruct config as [| |b|n|s|items|fields]; simpl;
    try (intros H; inversion H; subst; split; [reflexivity|eauto]).
  - destruct b; simpl; intros H; inversion H; subst; split;
      try reflexivity; eauto.
  - destruct (n =? 0); simpl; intros H; inversion H; subst; split;
      try reflexivity; eauto.
  - destruct (String.eqb s EmptyString); simpl; intros H; inversion H; subst;
      split; try reflexivity; eauto.
  - destruct (List.find _ fields) as [[k v]|]; simpl;
      [|intros H; inversion H; subst; split; [reflexivity|eauto]].
    destruct v as [| |b|n|s|resources|fs];
      try (intros H; inversion H; subst; split; [reflexivity|eauto]).
    destruct resources as [|x resources];
      intros H; inversion H; subst; (split; [reflexivity|]); eauto.
Qed.

(** X25: validateConfigStructure returns exactly for an object whose
    resources property is a non-empty array: it returns for every such
    value and for no other.  Whatever it throws is a ValidationError
    whose field is the configuration path it was given, and the world is
    never changed. *)
Theorem validateConfigStructure_accepts
  (config : unknown) (configPath : option string) (w : world) :
  (validateConfigStructure config configPath w = (w, inr tt) <->
   exists fields resources,
     config = UObject fields /\
     property config "resources" = UArray resources /\ resources <> []) /\
  (forall w' r,
      validateConfigStructure config configPath w = (w', r) ->
      w' = w /\
      match r with
      | inr _ => True
      | inl e => exists msg, e = ValidationError msg configPath
      end).
Proof.
  split; [split|].
  - intros H. apply validateConfigStructure_cases in H. apply H.
  - intros (fields & resources & -> & Hprop & Hne).
    unfold validateConfigStructure. rewrite Hprop. simpl.
    destruct resources; [contradiction|reflexivity].
  - intros w' r H. apply validateConfigStructure_cases in H.
    destruct H as [-> H]. split; [reflexivity|].
    destruct r; [exact H|exact I].
Qed.

Lemma validateConfigStructure_accepts_witness :
  validateConfigStructure
    (UObject [("plugins", UArray []);
              ("resources", UArray [UObject [("plugin", UString "local")]])])
    (Some "/proj/.knowhubrc.json") exampleWorld = (exampleWorld, inr tt) /\
  validateConfigStructure (UArray [UObject []]) None exampleWorld =
    (exampleWorld,
     inl (ValidationError
            ("Configuration must have a " +:+ quote "resources" +:+ " array")
            None)) /\
  (validateConfigStructure (UObject [("resources", UArray [])]) None
     exampleWorld).2 =
    inl (ValidationError "Configuration must have at least one resource" None).
Proof.
  split; [|split].
  - apply (proj1 (validateConfigStructure_accepts _ _ _)).
    eexists. eexists. split; [reflexivity|]. split; [reflexivity|discriminate].
  - destruct (validateConfigStructure _ None exampleWorld) as [w' r] eqn:Hrun.
    destruct (proj2 (validateConfigStructure_accepts _ _ _) _ _ Hrun) as [-> _].
    apply (f_equal snd) in Hrun. vm_compute in Hrun. rewrite <- Hrun.
    reflexivity.
  - vm_compute. reflexivity.
Defined.



Lemma copyEntries_flat recurse srcDir destDir overwrite :
  forall entries created skipped w w' r,
    Forall (fun e : string * node => isDirectoryNode e.2 = false) entries ->
    copyEntries recurse srcDir destDir overwrite entries created skipped w
      = (w', inr r) ->
    DirResult.created r + DirResult.skipped r =
    created + skipped
      + length (List.filter (fun e : string * node => isFileNode e.2) entries).
Proof.
  induction entries as [|[name entry] entries IH];
    intros created skipped w w' r Hflat H.
  - inversion H; subst. simpl. lia.
  - inversion Hflat as [|? ? Hentry Hrest]; subst. simpl in Hentry.
    simpl in H. rewrite Hentry in H. simpl.
    destruct (isFileNode entry).
    + unfold bind in H.
      destruct (copyFile (join srcDir name) (join destDir name) overwrite w)
        as [w1 [e|res]]; [discriminate|].
      destruct (CopyResult.created res || CopyResult.updated res);
        apply (IH _ _ _ _ _ Hrest) in H; simpl; lia.
    + apply (IH _ _ _ _ _ Hrest) in H. lia.
Qed.

(** X27: when the source directory holds no subdirectory, copyDirectory
    counts every regular file of it exactly once, as created (copied or
    rewritten) or as skipped; symbolic links and nothing else are left
    out of the counts. *)
Theorem copyDirectory_counts_flat
  (srcDir destDir : path) (overwrite : bool) (w w1 w' : world)
  (entries : list (string * node)) (r : DirResult.t) :
  ensureDirectoryExists destDir w = (w1, inr tt) ->
  readdir (tree_of w1) srcDir = inr entries ->
  Forall (fun e : string * node => isDirectoryNode e.2 = false) entries ->
  copyDirectory srcDir destDir overwrite w = (w', inr r) ->
  DirResult.created r + DirResult.skipped r =
  length (List.filter (fun e : string * node => isFileNode e.2) entries).
Proof.
  intros Hdir Hread Hflat. unfold copyDirectory, DEPTH_MAX. simpl.
  unfold bind at 1. rewrite Hdir.
  unfold bind at 1, fsRead. rewrite Hread.
  intros H. apply copyEntries_flat in H; [simpl in H; lia|exact Hflat].
Qed.

Lemma succeeds_entriesOr (r : errno + list (string * node)) :
  succeeds r = true -> r = inr (entriesOr r).
Proof. destruct r; [discriminate|reflexivity]. Qed.

Lemma copyDirectory_counts_flat_witness :
  let w1 := (ensureDirectoryExists ["shared"; "copy"] exampleWorld).1 in
  let entries := entriesOr (readdir (tree_of w1) ["proj"]) in
  let run := copyDirectory ["proj"] ["shared"; "copy"] false exampleWorld in
  run.2 = inr {| DirResult.created := 2; DirResult.skipped := 0 |} /\
  length (List.filter (fun e : string * node => isFileNode e.2) entries) = 2 /\
  (copyDirectory ["proj"] ["shared"; "copy"] false run.1).2
    = inr {| DirResult.created := 0; DirResult.skipped := 2 |}.
Proof.
  intros w1 entries run.
  assert (Hrun : run.2 = inr {| DirResult.created := 2; DirResult.skipped := 0 |})
    by (vm_compute; reflexivity).
  split; [exact Hrun|]. split; [|vm_compute; reflexivity].
  symmetry.
  apply (copyDirectory_counts_flat ["proj"] ["shared"; "copy"] false
           exampleWorld w1 run.1 entries
           {| DirResult.created := 2; DirResult.skipped := 0 |}).
  - apply run_unit. vm_compute. reflexivity.
  - apply succeeds_entriesOr. vm_compute. reflexivity.
  - vm_compute. repeat constructor.
  - apply run_pair. exact Hrun.
Defined.

(** * Placement with overwrite = false

    On a well-formed tree, and for destinations in the form
    path.resolve produces, the engine with overwrite = false only adds
    entries. *)

Lemma plainPath_app p q : plainPath p -> plainPath q -> plainPath (p ++ q).
Proof. apply Forall_app_2. Qed.

Lemma plainPath_snoc p c : plainPath p -> dotless c = true -> plainPath (p ++ [c]).
Proof. intros Hp Hc. apply plainPath_app; [exact Hp|]. repeat constructor. exact Hc. Qed.

Lemma plainPath_removelast p : plainPath p -> plainPath (removelast p).
Proof.
  destruct p as [|c p _] using rev_ind; [auto|].
  rewrite removelast_snoc. intros H. apply Forall_app in H. tauto.
Qed.

Lemma plainPath_last p c : plainPath (p ++ [c]) -> plainPath p /\ dotless c = true.
Proof.
  intros H. apply Forall_app in H as [Hp Hc]. split; [exact Hp|].
  inversion Hc. assumption.
Qed.

Lemma dotless_spec c :
  dotless c = true -> String.eqb c "." = false /\ String.eqb c ".." = false.
Proof.
  unfold dotless. destruct (String.eqb c "."), (String.eqb c "..");
    simpl; intros; try discriminate; auto.
Qed.

Lemma entryOk_spec m k :
  entryOk m k = true <-> plainPath k /\ nodeAt m (removelast k) = Some Dir.
Proof.
  assert (Hall : forallb dotless k = true <-> plainPath k).
  { unfold plainPath. induction k as [|c k IH]; simpl.
    - split; [constructor|reflexivity].
    - rewrite andb_true_iff, IH. split.
      + intros [Hc Hk]. constructor; assumption.
      + intros H. inversion H; subst. auto. }
  unfold entryOk. rewrite andb_true_iff, Hall.
  split; intros [H1 H2]; (split; [exact H1|]).
  - destruct (nodeAt m (removelast k)) as [[d| |a t]|]; try discriminate.
    reflexivity.
  - rewrite H2. reflexivity.
Qed.

Lemma wellFormed_lookup m k n :
  wellFormed m -> m !! k = Some n ->
  plainPath k /\ nodeAt m (removelast k) = Some Dir.
Proof. intros Hwf Hk. apply entryOk_spec. exact (Hwf k n Hk). Qed.

(** In a well-formed tree whatever lies below a location lies below a
    directory. *)
Lemma wellFormed_ancestor m l :
  wellFormed m ->
  forall k n, k <> [] -> m !! (l ++ k) = Some n -> nodeAt m l = Some Dir.
Proof.
  intros Hwf. induction k as [|c k IH] using rev_ind; intros n Hk Hn;
    [contradiction|].
  destruct (wellFormed_lookup _ _ _ Hwf Hn) as [_ Hparent].
  rewrite app_assoc, removelast_snoc in Hparent.
  destruct k as [|c' k']; [rewrite app_nil_r in Hparent; exact Hparent|].
  apply (IH Dir); [discriminate|].
  destruct (l ++ c' :: k') eqn:Heq; [destruct l; discriminate|].
  exact Hparent.
Qed.

Lemma wellFormed_barren m l :
  wellFormed m -> nodeAt m l = None -> barren m l.
Proof.
  intros Hwf Hl k Hk. destruct (m !! (l ++ k)) as [n|] eqn:Hn; [|reflexivity].
  rewrite (wellFormed_ancestor m l Hwf k n Hk Hn) in Hl. discriminate.
Qed.

Lemma wellFormed_location m q n :
  wellFormed m -> nodeAt m q = Some n -> plainPath q.
Proof.
  intros Hwf Hq. destruct q as [|c q]; [constructor|].
  apply (wellFormed_lookup _ _ _ Hwf Hq).
Qed.

(** Adding an entry with a proper name to a directory, or rewriting a
    file, keeps the tree well-formed. *)
Lemma wellFormed_insert m q n :
  wellFormed m -> q <> [] -> plainPath q ->
  nodeAt m (removelast q) = Some Dir ->
  (m !! q = None \/ (isFileNode n = true /\ plainAt m q)) ->
  wellFormed (<[q := n]> m).
Proof.
  intros Hwf Hq Hplain Hparent Hfree k x Hk.
  assert (Hkeep : forall p, nodeAt m p = Some Dir ->
                            nodeAt (<[q := n]> m) p = Some Dir).
  { intros p Hp. rewrite nodeAt_insert. destruct p as [|c p]; [reflexivity|].
    destruct (decide (q = c :: p)) as [->|]; [|exact Hp].
    simpl in Hp. destruct Hfree as [Hnone|[_ Hfile]]; [congruence|].
    unfold plainAt in Hfile. rewrite Hp in Hfile. contradiction. }
  apply entryOk_spec. rewrite lookup_insert in Hk.
  destruct (decide (q = k)) as [->|Hne].
  - split; [exact Hplain|]. apply Hkeep. exact Hparent.
  - destruct (wellFormed_lookup _ _ _ Hwf Hk) as [Hp Hd].
    split; [exact Hp|]. apply Hkeep. exact Hd.
Qed.


(** One more name after a path that resolves to a directory: lstat
    stops at the entry of that name, and so does stat unless the entry
    is a link. *)
Lemma walk_snoc follow m c :
  dotless c = true ->
  forall fuel cur pre qd,
    walk true m fuel cur pre = inr qd ->
    nodeAt m qd = Some Dir ->
    (follow = true -> forall a t, m !! (qd ++ [c]) <> Some (Link a t)) ->
    walk follow m fuel cur (pre ++ [c]) = inr (qd ++ [c]).
Proof.
  intros Hc. destruct (dotless_spec c Hc) as [Hdot Hdotdot].
  intros fuel.
  induction fuel as [fuel IHf] using lt_wf_ind.
  intros cur pre. revert cur.
  induction pre as [|c0 pre IHr]; intros cur qd Hw Hqd Hlink.
  - rewrite walk_nil in Hw. inversion Hw; subst. simpl.
    rewrite walk_cons, Hqd, Hdot, Hdotdot.
    destruct (m !! (qd ++ [c])) as [[d| |a t]|] eqn:Hp;
      try (rewrite walk_nil; reflexivity).
    destruct follow; simpl; [|reflexivity].
    exfalso. apply (Hlink eq_refl a t). reflexivity.
  - simpl. rewrite walk_cons in *.
    destruct (nodeAt m cur) as [[d| |a t]|] eqn:Hnode; try discriminate.
    destruct (String.eqb c0 "."); [eauto|].
    destruct (String.eqb c0 ".."); [eauto|].
    destruct (m !! (cur ++ [c0])) as [[d| |a t]|] eqn:Hp; eauto.
    simpl in Hw.
    replace (negb follow && isNil (pre ++ [c])) with false
      by (destruct pre; rewrite andb_false_r; reflexivity).
    destruct fuel as [|f]; [discriminate|].
    rewrite app_assoc. apply (IHf f); [lia|exact Hw|exact Hqd|exact Hlink].
Qed.

(** lstat of a path that ends in a proper name stops at an entry of a
    directory. *)
Lemma walk_last m c :
  dotless c = true ->
  forall fuel cur pre l,
    walk false m fuel cur (pre ++ [c]) = inr l ->
    exists qd, nodeAt m qd = Some Dir /\ l = qd ++ [c].
Proof.
  intros Hc. destruct (dotless_spec c Hc) as [Hdot Hdotdot].
  intros fuel.
  induction fuel as [fuel IHf] using lt_wf_ind.
  intros cur pre. revert cur.
  induction pre as [|c0 pre IHr]; intros cur l Hw.
  - simpl in Hw. rewrite walk_cons, Hdot, Hdotdot in Hw.
    destruct (nodeAt m cur) as [[d| |a t]|] eqn:Hnode; try discriminate.
    exists cur. split; [exact Hnode|].
    destruct (m !! (cur ++ [c])) as [[d| |a t]|];
      try rewrite walk_nil in Hw; simpl in Hw; congruence.
  - simpl in Hw. rewrite walk_cons in Hw.
    destruct (nodeAt m cur) as [[d| |a t]|] eqn:Hnode; try discriminate.
    destruct (String.eqb c0 "."); [eauto|].
    destruct (String.eqb c0 ".."); [eauto|].
    destruct (m !! (cur ++ [c0])) as [[d| |a t]|] eqn:Hp; eauto.
    replace (negb false && isNil (pre ++ [c])) with false in Hw
      by (destruct pre; reflexivity).
    destruct fuel as [|f]; [discriminate|].
    rewrite app_assoc in Hw. apply (IHf f) in Hw; [exact Hw|lia].
Qed.

Lemma mkdirStep_cases final m p m' :
  mkdirStep final m p = inr m' ->
  m' = m \/
  (exists l, linkpath m p = inr l /\ nodeAt m l = None /\ m' = <[l := Dir]> m /\
             realpath m' p = inr l).
Proof.
  unfold mkdirStep.
  destruct (stat m p) as [e|[d| |a t]] eqn:Hs; try discriminate.
  - destruct (linkpath m p) as [e'|l] eqn:Hl; [discriminate|].
    destruct (nodeAt m l) as [n|] eqn:Hn; [discriminate|].
    intros H. inversion H; subst m'; clear H. right. exists l.
    split; [reflexivity|]. split; [exact Hn|]. split; [reflexivity|].
    assert (Hl' : linkpath (<[l := Dir]> m) p = inr l).
    { unfold linkpath in *. apply walk_update; auto using plainAt_free. }
    unfold realpath. unfold linkpath in Hl'.
    apply walk_nofollow_follow; [exact Hl'|].
    intros a t. rewrite nodeAt_insert. destruct l; [discriminate|].
    rewrite decide_True by reflexivity. discriminate.
  - intros H. inversion H. left. reflexivity.
Qed.

Lemma barren_insert m l n :
  barren m l -> barren (<[l := n]> m) l.
Proof.
  intros Hb k Hk. rewrite lookup_insert_ne; [apply Hb; exact Hk|].
  intros Heq. apply Hk. apply (app_inv_head l). rewrite app_nil_r.
  symmetry. exact Heq.
Qed.

Lemma barren_snoc m l c n :
  barren m l -> barren (<[l ++ [c] := n]> m) (l ++ [c]).
Proof.
  intros Hb k Hk. rewrite lookup_insert_ne.
  - rewrite <- app_assoc. apply Hb. discriminate.
  - intros Heq. apply Hk. apply (app_inv_head (l ++ [c])). rewrite app_nil_r.
    symmetry. exact Heq.
Qed.

Lemma nodeAt_insert_eq m l n : l <> [] -> nodeAt (<[l := n]> m) l = Some n.
Proof.
  intros Hl. rewrite nodeAt_insert. destruct l; [contradiction|].
  rewrite decide_True; reflexivity.
Qed.

(** mkdir -p below a directory that has nothing in it creates the
    whole chain of directories. *)
Lemma mkdirFrom_chain :
  forall todo done m l m1,
    wellFormed m -> plainPath todo ->
    realpath m done = inr l -> nodeAt m l = Some Dir -> barren m l ->
    mkdirFrom m done todo = inr m1 ->
    wellFormed m1 /\ m ⊆ m1 /\
    realpath m1 (done ++ todo) = inr (l ++ todo) /\
    nodeAt m1 (l ++ todo) = Some Dir /\ barren m1 (l ++ todo).
Proof.
  induction todo as [|c todo IH]; intros done m l m1 Hwf Hplain Hr Hl Hb H.
  - simpl in H. inversion H; subst. rewrite !app_nil_r.
    split; [exact Hwf|]. split; [reflexivity|].
    split; [exact Hr|]. split; [exact Hl|exact Hb].
  - inversion Hplain as [|? ? Hc Htodo]; subst.
    assert (Hfree : m !! (l ++ [c]) = None) by (apply Hb; discriminate).
    assert (Hfree' : nodeAt m (l ++ [c]) = None)
      by (rewrite nodeAt_snoc; exact Hfree).
    assert (Hreal : realpath m (done ++ [c]) = inr (l ++ [c])).
    { unfold realpath in *. apply walk_snoc; [exact Hc|exact Hr|exact Hl|].
      intros _ a t. rewrite Hfree. discriminate. }
    assert (Hlink : linkpath m (done ++ [c]) = inr (l ++ [c])).
    { unfold realpath, linkpath in *.
      apply walk_snoc; [exact Hc|exact Hr|exact Hl|discriminate]. }
    simpl in H. unfold mkdirStep, stat in H.
    rewrite Hreal, Hfree', Hlink, Hfree' in H.
    assert (Hne : l ++ [c] <> []) by apply app_singleton_not_nil.
    destruct (IH (done ++ [c]) (<[l ++ [c] := Dir]> m) (l ++ [c]) m1)
      as (Hwf1 & Hsub & Hr1 & Hd1 & Hb1);
      [ | exact Htodo | | | | exact H | ].
    + apply wellFormed_insert;
        [exact Hwf|exact Hne| | |left; exact Hfree].
      * apply plainPath_snoc; [|exact Hc].
        eapply wellFormed_location; eassumption.
      * rewrite removelast_snoc. exact Hl.
    + apply realpath_update;
        [apply plainAt_free; exact Hfree'|exact Hreal|reflexivity].
    + apply nodeAt_insert_eq. exact Hne.
    + apply barren_snoc. exact Hb.
    + replace ((done ++ [c]) ++ todo) with (done ++ c :: todo) in Hr1
        by (rewrite <- app_assoc; reflexivity).
      replace ((l ++ [c]) ++ todo) with (l ++ c :: todo) in Hr1, Hd1, Hb1
        by (rewrite <- app_assoc; reflexivity).
      split; [exact Hwf1|]. split; [|split; [exact Hr1|split; [exact Hd1|exact Hb1]]].
      etransitivity; [|exact Hsub]. apply insert_subseteq. exact Hfree.
Qed.

(** mkdir -p on a well-formed tree only adds directories, and when it
    adds one nothing lies in the directory it was asked for. *)
Lemma mkdirFrom_wellFormed :
  forall todo done m m1,
    wellFormed m -> plainPath todo ->
    mkdirFrom m done todo = inr m1 ->
    wellFormed m1 /\ m ⊆ m1 /\
    (m1 = m \/
     exists l, realpath m1 (done ++ todo) = inr l /\
               nodeAt m1 l = Some Dir /\ barren m1 l).
Proof.
  induction todo as [|c todo IH]; intros done m m1 Hwf Hplain H.
  - simpl in H. inversion H; subst.
    split; [exact Hwf|]. split; [reflexivity|left; reflexivity].
  - inversion Hplain as [|? ? Hc Htodo]; subst. simpl in H.
    destruct (mkdirStep (isNil todo) m (done ++ [c])) as [e|m'] eqn:Hstep;
      [discriminate|].
    destruct (mkdirStep_cases _ _ _ _ Hstep)
      as [->|(l & Hl & Hfree & -> & Hreal)].
    + destruct (IH _ _ _ Hwf Htodo H) as (Hwf1 & Hsub & Hcase).
      split; [exact Hwf1|]. split; [exact Hsub|].
      destruct Hcase as [->|(l & Hr & Hd & Hb)]; [left; reflexivity|].
      right. exists l. rewrite <- app_assoc in Hr.
      split; [exact Hr|]. split; [exact Hd|exact Hb].
    + unfold linkpath in Hl.
      destruct (walk_last m c Hc _ _ _ _ Hl) as (qd & Hqd & ->).
      assert (Hne : qd ++ [c] <> []) by apply app_singleton_not_nil.
      assert (Hnone : m !! (qd ++ [c]) = None)
        by (rewrite <- nodeAt_snoc; exact Hfree).
      destruct (mkdirFrom_chain todo (done ++ [c]) (<[qd ++ [c] := Dir]> m)
                  (qd ++ [c]) m1) as (Hwf1 & Hsub & Hr1 & Hd1 & Hb1);
        [ | exact Htodo | exact Hreal | | | exact H | ].
      * apply wellFormed_insert;
          [exact Hwf|exact Hne| | |left; exact Hnone].
        -- apply plainPath_snoc; [|exact Hc].
           eapply wellFormed_location; eassumption.
        -- rewrite removelast_snoc. exact Hqd.
      * apply nodeAt_insert_eq. exact Hne.
      * apply barren_insert. apply wellFormed_barren; assumption.
      * split; [exact Hwf1|]. split.
        -- etransitivity; [|exact Hsub]. apply insert_subseteq. exact Hnone.
        -- right. exists ((qd ++ [c]) ++ todo).
           rewrite <- app_assoc in Hr1.
           split; [exact Hr1|]. split; [exact Hd1|exact Hb1].
Qed.







Lemma addsOnly_ensureDirectoryExists d :
  plainPath d -> keeps addsOnly (ensureDirectoryExists d).
Proof.
  intros Hd w w' r H Hwf. rewrite ensureDirectoryExists_run in H.
  destruct (mkdir (tree_of w) d) as [c|m] eqn:Hm.
  - destruct c; inversion H; subst; (split; [exact Hwf|reflexivity]).
  - inversion H; subst. rewrite tree_of_setTree.
    destruct (mkdirFrom_wellFormed d [] _ _ Hwf Hd Hm) as (Hwf1 & Hsub & _).
    auto.
Qed.









Lemma symlink_adds m target dest m' :
  wellFormed m -> plainPath dest ->
  symlink m target dest = inr m' ->
  wellFormed m' /\ m ⊆ m'.
Proof.
  intros Hwf Hplain. unfold symlink.
  destruct (isNil target); [discriminate|].
  destruct (linkpath m dest) as [e|l] eqn:Hl; [discriminate|].
  destruct (nodeAt m l) as [n|] eqn:Hn; [discriminate|].
  intros H. inversion H; subst m'; clear H.
  destruct dest as [|b D _] using rev_ind.
  { unfold linkpath in Hl. rewrite walk_nil in Hl. inversion Hl; subst.
    discriminate. }
  destruct (plainPath_last _ _ Hplain) as [_ Hb].
  unfold linkpath in Hl.
  destruct (walk_last m b Hb _ _ _ _ Hl) as (qd & Hqd & ->).
  assert (Hnone : m !! (qd ++ [b]) = None) by (rewrite <- nodeAt_snoc; exact Hn).
  split; [|apply insert_subseteq; exact Hnone].
  apply wellFormed_insert; auto.
  - apply app_singleton_not_nil.
  - apply plainPath_snoc; [|exact Hb]. eapply wellFormed_location; eassumption.
  - rewrite removelast_snoc. exact Hqd.
Qed.











Lemma exampleTree_wellFormed : wellFormed exampleTree.
Proof.
  unfold wellFormed. apply (bool_decide_unpack _). vm_compute. exact I.
Qed.





(** * The link made by symlinkOrCopy *)

Lemma SYMLOOP_MAX_succ : exists f, SYMLOOP_MAX = S f.
Proof. exists 39. vm_compute. reflexivity. Qed.

Lemma nodeAt_app_cons m (C : path) c k :
  nodeAt m (C ++ c :: k) = m !! (C ++ c :: k).
Proof. destruct C; reflexivity. Qed.

Lemma nodeAt_weaken (m m' : tree) p n :
  m ⊆ m' -> nodeAt m p = Some n -> nodeAt m' p = Some n.
Proof.
  intros Hsub. destruct p; [exact id|]. simpl.
  apply (proj1 (map_subseteq_spec m m') Hsub).
Qed.

Lemma pathPrefixes_In : forall pre post, In pre (pathPrefixes (pre ++ post)).
Proof.
  induction pre as [|c pre IH]; intros post.
  - destruct post; left; reflexivity.
  - right. apply in_map. apply IH.
Qed.

Lemma linkless_spec m p :
  linkless m p = true ->
  forall pre post a t, pre <> [] -> p = pre ++ post ->
                       m !! pre <> Some (Link a t).
Proof.
  intros H pre post a t Hpre -> Hlk.
  unfold linkless in H. rewrite forallb_forall in H.
  specialize (H pre (pathPrefixes_In pre post)).
  destruct pre as [|c pre]; [congruence|].
  simpl in H. rewrite Hlk in H. discriminate.
Qed.

Lemma dropCommon_spec :
  forall from to up down,
    dropCommon from to = (up, down) ->
    exists C, from = C ++ up /\ to = C ++ down.
Proof.
  induction from as [|a from IH]; intros to up down H.
  - simpl in H. inversion H. exists []. split; reflexivity.
  - destruct to as [|b to]; simpl in H.
    + inversion H. exists []. split; reflexivity.
    + destruct (String.eqb a b) eqn:Hab.
      * apply String.eqb_eq in Hab. subst b.
        destruct (IH _ _ _ H) as (C & -> & ->).
        exists (a :: C). split; reflexivity.
      * inversion H. exists []. split; reflexivity.
Qed.

(** Walking along entries that are no links follows the components. *)
Lemma walk_through m :
  wellFormed m ->
  forall down C n,
    nodeAt m C = Some Dir -> nodeAt m (C ++ down) = Some n ->
    isLinkNode n = false ->
    forall fuel rest,
      walk true m fuel C (down ++ rest) = walk true m fuel (C ++ down) rest.
Proof.
  intros Hwf. induction down as [|c down IH]; intros C n HC Hn Hlink fuel rest.
  - rewrite app_nil_r. reflexivity.
  - assert (Hplain : plainPath (C ++ c :: down))
      by (eapply wellFormed_location; eassumption).
    assert (Hc : dotless c = true).
    { unfold plainPath in Hplain. apply Forall_app in Hplain as [_ Hp].
      inversion Hp; assumption. }
    destruct (dotless_spec c Hc) as [Hdot Hdots].
    rewrite <- app_comm_cons, walk_cons, HC, Hdot, Hdots.
    destruct down as [|d down'].
    + rewrite <- nodeAt_snoc, Hn.
      destruct n as [data| |a t]; [reflexivity|reflexivity|discriminate].
    + assert (Hdir : nodeAt m (C ++ [c]) = Some Dir).
      { apply (wellFormed_ancestor m (C ++ [c]) Hwf (d :: down') n);
          [discriminate|].
        rewrite <- app_assoc. simpl. rewrite <- nodeAt_app_cons. exact Hn. }
      rewrite <- nodeAt_snoc, Hdir.
      rewrite (IH (C ++ [c]) n Hdir); [|rewrite <- app_assoc; exact Hn|exact Hlink].
      rewrite <- app_assoc. reflexivity.
Qed.

(** From a directory, as many ".." as components lead back up. *)
Lemma walk_ups m :
  wellFormed m ->
  forall up C,
    nodeAt m (C ++ up) = Some Dir ->
    forall fuel rest,
      walk true m fuel (C ++ up) (repeat ".." (length up) ++ rest)
      = walk true m fuel C rest.
Proof.
  intros Hwf. induction up as [|u up IH] using rev_ind; intros C Hdir fuel rest.
  - rewrite app_nil_r. reflexivity.
  - rewrite length_app. simpl length. rewrite Nat.add_1_r.
    change (repeat ".." (S (length up)) ++ rest)
      with (".." :: (repeat ".." (length up) ++ rest)).
    rewrite walk_cons, Hdir.
    change (String.eqb ".." ".") with false.
    change (String.eqb ".." "..") with true. cbv iota.
    rewrite app_assoc, removelast_snoc.
    apply IH.
    rewrite app_assoc in Hdir.
    apply (wellFormed_ancestor m (C ++ up) Hwf [u] Dir); [discriminate|].
    rewrite <- nodeAt_snoc. exact Hdir.
Qed.

(** Where no link is on the way, a path leads to itself. *)
Lemma walk_false_lexical m :
  forall rest fuel cur q,
    plainPath rest ->
    (forall pre post, pre <> [] -> post <> [] -> rest = pre ++ post ->
       forall a t, m !! (cur ++ pre) <> Some (Link a t)) ->
    walk false m fuel cur rest = inr q ->
    q = cur ++ rest.
Proof.
  induction rest as [|c rest IH]; intros fuel cur q Hplain Hfree H.
  - rewrite walk_nil in H. inversion H. rewrite app_nil_r. reflexivity.
  - inversion Hplain as [|? ? Hc Hrest]; subst.
    destruct (dotless_spec c Hc) as [Hd Hdd].
    rewrite walk_cons in H.
    destruct (nodeAt m cur) as [[d| |a t]|]; try discriminate.
    rewrite Hd, Hdd in H.
    assert (Hnext : walk false m fuel (cur ++ [c]) rest = inr q ->
                    q = cur ++ c :: rest).
    { intros H'. apply IH in H'.
      - rewrite H', <- app_assoc. reflexivity.
      - exact Hrest.
      - intros pre post Hpre Hpost Heq a t. rewrite <- app_assoc. simpl.
        apply (Hfree (c :: pre) post); [discriminate|exact Hpost|].
        rewrite Heq. reflexivity. }
    destruct (m !! (cur ++ [c])) as [[d| |a t]|] eqn:Hlook;
      try (apply Hnext; exact H).
    simpl in H. destruct rest as [|c' rest'].
    + simpl in H. inversion H. reflexivity.
    + exfalso.
      apply (Hfree [c] (c' :: rest') ltac:(discriminate) ltac:(discriminate)
               eq_refl a t).
      exact Hlook.
Qed.

Lemma mkdirFrom_links :
  forall todo done m m' k a t,
    mkdirFrom m done todo = inr m' ->
    m' !! k = Some (Link a t) -> m !! k = Some (Link a t).
Proof.
  induction todo as [|c todo IH]; intros done m m' k a t H Hk; simpl in H.
  - inversion H; subst. exact Hk.
  - destruct (mkdirStep (isNil todo) m (done ++ [c])) as [e|m1] eqn:Hstep;
      [discriminate|].
    specialize (IH _ _ _ _ _ _ H Hk).
    destruct (mkdirStep_cases _ _ _ _ Hstep) as [->|(l & _ & _ & -> & _)];
      [exact IH|].
    rewrite lookup_insert in IH. destruct (decide (l = k)); [congruence|exact IH].
Qed.

Lemma ensureDirectoryExists_links d w w1 r k a t :
  ensureDirectoryExists d w = (w1, r) ->
  tree_of w1 !! k = Some (Link a t) -> tree_of w !! k = Some (Link a t).
Proof.
  rewrite ensureDirectoryExists_run.
  destruct (mkdir (tree_of w) d) as [e|m1] eqn:Hmk.
  - destruct e; intros H; inversion H; subst; exact id.
  - intros H; inversion H; subst. rewrite tree_of_setTree. intros Hk.
    unfold mkdir in Hmk. exact (mkdirFrom_links _ _ _ _ _ _ _ Hmk Hk).
Qed.

Lemma symlinkOrCopy_linked src dest overwrite isDir w w' r :
  symlinkOrCopy src dest overwrite isDir w = (w', inr r) ->
  LinkResult.usedSymlink r = true ->
  exists w1,
    ensureDirectoryExists (dirname dest) w = (w1, inr tt) /\
    symlink (tree_of w1) (relative (dirname dest) src) dest = inr (tree_of w').
Proof.
  unfold symlinkOrCopy, bind at 1. rewrite pathExists_run.
  destruct (succeeds (stat (tree_of w) dest)) eqn:Hex.
  - destruct (stat (tree_of w) dest) as [e|n] eqn:Hst; [discriminate|].
    destruct overwrite; simpl.
    + unfold bind at 1. rewrite (ensureDirectoryExists_existing _ _ _ Hst).
      unfold tryCatch, bind at 1, currentPlatform. unfold bind at 1.
      rewrite fsSymlink_run.
      destruct (linkAttempt_exists (machine w) (relative (dirname dest) src)
                  dest n Hst) as [c ->].
      intros H Hused. apply copyFallback_not_symlink in H. congruence.
    + intros H Hused. inversion H; subst. discriminate.
  - simpl. unfold bind at 1.
    destruct (ensureDirectoryExists (dirname dest) w) as [w1 [e|[]]] eqn:Hdir;
      [discriminate|].
    unfold tryCatch, bind at 1, currentPlatform. unfold bind at 1.
    rewrite fsSymlink_run.
    destruct (linkAttempt (machine w1) (relative (dirname dest) src) dest)
      as [c|m] eqn:Hlink.
    + intros H Hused. apply copyFallback_not_symlink in H. congruence.
    + intros H _. inversion H; subst; clear H.
      exists w1. split; [reflexivity|]. rewrite tree_of_setTree.
      unfold linkAttempt in Hlink.
      destruct (symlinkRefusal (machine w1)); [discriminate|]. exact Hlink.
Qed.

Lemma snoc_prefix {A} (pre post D : list A) (c : A) :
  post <> [] -> D ++ [c] = pre ++ post -> exists post', D = pre ++ post'.
Proof.
  intros Hpost Heq.
  destruct (exists_last Hpost) as (post' & x & ->).
  rewrite app_assoc in Heq. apply app_inj_tail in Heq as [-> _].
  exists post'. reflexivity.
Qed.

(** The relative link symlinkOrCopy makes leads to the source. *)
Lemma symlinkOrCopy_resolves
  (src dest : path) (overwrite isDir : bool) (w w' : world)
  (r : LinkResult.t) (n : node) :
  wellFormed (tree_of w) ->
  plainPath dest ->
  linkless (tree_of w) (dirname dest) = true ->
  nodeAt (tree_of w) src = Some n ->
  isLinkNode n = false ->
  symlinkOrCopy src dest overwrite isDir w = (w', inr r) ->
  LinkResult.usedSymlink r = true ->
  realpath (tree_of w') dest = inr src /\
  realpath (tree_of w') src = inr src /\
  nodeAt (tree_of w') src = Some n.
Proof.
  intros Hwf Hplain Hfree Hsrc Hnl Hrun Hused.
  destruct (symlinkOrCopy_linked _ _ _ _ _ _ _ Hrun Hused) as (w1 & Hdir & Hsym).
  assert (HplainD : plainPath (dirname dest))
    by (apply plainPath_removelast; exact Hplain).
  destruct (addsOnly_ensureDirectoryExists (dirname dest) HplainD w w1 (inr tt)
              Hdir Hwf) as [Hwf1 Hsub1].
  destruct (symlink_adds _ _ _ _ Hwf1 Hplain Hsym) as [Hwf' Hsub'].
  destruct (symlink_spec _ _ _ _ Hsym) as (l & Hl & Hnone & _ & _ & Hlook).
  assert (Hne : dest <> []).
  { intros ->. unfold linkpath in Hl. rewrite walk_nil in Hl.
    inversion Hl; subst. discriminate Hnone. }
  destruct (exists_last Hne) as (D & c & ->).
  unfold dirname in *. rewrite removelast_snoc in *.
  destruct (plainPath_last D c Hplain) as [_ Hc].
  assert (Hl' : l = D ++ [c]).
  { unfold linkpath in Hl.
    apply (walk_false_lexical (tree_of w1) _ _ _ _ Hplain) in Hl; [exact Hl|].
    intros pre post Hpre Hpost Heq a t Hlk. simpl in Hlk.
    destruct (snoc_prefix pre post D c Hpost Heq) as [post' HD].
    apply (ensureDirectoryExists_links _ _ _ _ _ _ _ Hdir) in Hlk.
    exact (linkless_spec _ _ Hfree pre post' a t Hpre HD Hlk). }
  subst l.
  destruct (walk_last _ c Hc _ _ _ _ Hl) as (qd & Hqd & Heq).
  apply app_inj_tail in Heq as [<- _].
  assert (HD' : nodeAt (tree_of w') D = Some Dir)
    by (eapply nodeAt_weaken; eassumption).
  assert (Hsrc' : nodeAt (tree_of w') src = Some n).
  { eapply nodeAt_weaken; [exact Hsub'|].
    eapply nodeAt_weaken; [exact Hsub1|exact Hsrc]. }
  assert (Hreal_src : forall fuel, walk true (tree_of w') fuel [] src = inr src).
  { intros fuel. rewrite <- (app_nil_r src) at 1.
    rewrite (walk_through _ Hwf' src [] n);
      [apply walk_nil|reflexivity|exact Hsrc'|exact Hnl]. }
  assert (Hreal : realpath (tree_of w') (D ++ [c]) = inr src).
  { unfold realpath. destruct SYMLOOP_MAX_succ as [f ->].
    rewrite (walk_through _ Hwf' D [] Dir); [|reflexivity|exact HD'|reflexivity].
    change ([] ++ D) with D.
    rewrite walk_cons, HD'. destruct (dotless_spec c Hc) as [-> ->].
    rewrite Hlook.
    change (negb true && isNil (@nil string)) with false. cbv iota.
    unfold relative.
    destruct (dropCommon D src) as [up down] eqn:Hdc.
    destruct (dropCommon_spec _ _ _ _ Hdc) as (C & -> & ->).
    rewrite <- app_assoc.
    rewrite (walk_ups _ Hwf' up C HD').
    assert (HC : nodeAt (tree_of w') C = Some Dir).
    { destruct up as [|u up].
      - rewrite app_nil_r in HD'. exact HD'.
      - apply (wellFormed_ancestor _ C Hwf' (u :: up) Dir); [discriminate|].
        rewrite <- nodeAt_app_cons. exact HD'. }
    rewrite (walk_through _ Hwf' down C n HC Hsrc' Hnl).
    apply walk_nil. }
  split; [exact Hreal|]. split; [apply Hreal_src|exact Hsrc'].
Qed.

(** X30: when symlinkOrCopy reports usedSymlink = true on a
    well-formed file tree, for a destination without "." and ".."
    components whose directory is not reached through a symbolic link,
    and a source that is a file or a directory at its own location, the
    relative link it made leads to the source: the destination resolves
    to the source, and stat gives the same node for both. *)
Theorem symlink_resolves_to_source
  (src dest : path) (overwrite isDir : bool) (w w' : world)
  (r : LinkResult.t) (n : node) :
  wellFormed (tree_of w) ->
  plainPath dest ->
  linkless (tree_of w) (dirname dest) = true ->
  nodeAt (tree_of w) src = Some n ->
  isLinkNode n = false ->
  symlinkOrCopy src dest overwrite isDir w = (w', inr r) ->
  LinkResult.usedSymlink r = true ->
  realpath (tree_of w') dest = inr src /\
  stat (tree_of w') dest = inr n /\
  stat (tree_of w') src = inr n.
Proof.
  intros Hwf Hplain Hfree Hsrc Hnl Hrun Hused.
  destruct (symlinkOrCopy_resolves src dest overwrite isDir w w' r n
              Hwf Hplain Hfree Hsrc Hnl Hrun Hused) as (Hdest & Hsource & Hnode).
  split; [exact Hdest|]. unfold stat.
  rewrite Hdest, Hsource, Hnode. split; reflexivity.
Qed.

Lemma symlink_resolves_to_source_witness :
  let run := symlinkOrCopy ["shared"; "a.md"] ["proj"; "sub"; "link.md"]
               false false exampleWorld in
  LinkResult.usedSymlink (match run.2 with
                          | inr r => r
                          | inl _ => {| LinkResult.created := false;
                                        LinkResult.updated := false;
                                        LinkResult.usedSymlink := false |}
                          end) = true /\
  tree_of run.1 !! ["proj"; "sub"; "link.md"]
  = Some (Link false [".."; ".."; "shared"; "a.md"]) /\
  realpath (tree_of run.1) ["proj"; "sub"; "link.md"] = inr ["shared"; "a.md"] /\
  stat (tree_of run.1) ["proj"; "sub"; "link.md"] = inr (File "X") /\
  stat (tree_of run.1) ["shared"; "a.md"] = inr (File "X").
Proof.
  intros run.
  split; [vm_compute; reflexivity|]. split; [vm_compute; reflexivity|].
  apply (symlink_resolves_to_source ["shared"; "a.md"]
           ["proj"; "sub"; "link.md"] false false exampleWorld run.1
           {| LinkResult.created := true; LinkResult.updated := false;
              LinkResult.usedSymlink := true |} (File "X")).
  - exact exampleTree_wellFormed.
  - repeat constructor.
  - vm_compute. reflexivity.
  - vm_compute. reflexivity.
  - reflexivity.
  - apply run_pair. vm_compute. reflexivity.
  - reflexivity.
Defined.

(** * A second run, and placement onto what exists *)










